(** * Binary heap and optimized heap of [dimasadyaksa/data-structures/heap]

    A shallow embedding of [heap.go] (type [Heap]), [optimized_heap.go]
    (type [OptimizedHeap]) and [errors.go], followed by the properties of
    the specification that are stated about them.

    Conventions of the embedding.
    - Go's [int] is [Z].  The indices the package computes are children of
      indices inside a slice, and the capacities it holds are capacities
      [make] or [append] served, all far below [2^63], so its arithmetic on
      them does not wrap.  A property about an index that is not tied to a
      slice, or about the result of a growth function that [make] refuses,
      states the bound [max_int] of an [int] as a hypothesis.
    - A slice is the list of its visible elements together with the number
      of spare cells of its backing array, so [len s <= cap s] holds by
      construction.  The cells beyond [len] are never read by this package.
    - An index expression that is out of range, and a method call through a
      nil [*Heap], panic: operations return a [result], whose [Panic] is that
      runtime panic.  The loops [heapifyUp], [heapifyDown] and [buildHeap]
      are given fuel by their callers; [OutOfFuel] is kept apart from
      [Panic] so that termination is a theorem and not a convention.
    - What [append] does to the capacity of a full slice, and the largest
      capacity [make] serves before it panics, are decided by the Go runtime,
      not by this package: they are the parameters [growslice_slack] and
      [makeslice_limit].  [append] itself is taken to be served: it grows a
      slice by one value at a time, and no run holds as many values as the
      allocator's limit.
    - The element type comes with its zero value ([var zero T]). *)

From Stdlib Require Import ZArith String Lia.
From stdpp Require Import base list sorting.

Local Open Scope Z_scope.

(** ** Results of operations that may panic *)

Inductive result (A : Type) : Type :=
| Ok (a : A)
| Panic
| OutOfFuel.
Arguments Ok {A} a.
Arguments Panic {A}.
Arguments OutOfFuel {A}.

#[global] Instance result_ret : MRet result := fun A a => Ok a.
#[global] Instance result_bind : MBind result := fun A B k m =>
  match m with
  | Ok a => k a
  | Panic => Panic
  | OutOfFuel => OutOfFuel
  end.

(** The zero value of a Go type. *)
Class Zero (T : Type) := zero : T.

(** The part of the Go runtime this package relies on.  When [append] finds
    the slice full, the new backing array has room for the new element and
    for [growslice_slack oldCap] more.  [make] serves a capacity up to
    [makeslice_limit] and panics beyond it (makeslice: cap out of range).
    The limit is the runtime's: the allocator's largest block divided by
    the size of a cell, [2^45] cells of eight bytes on a 64-bit platform,
    and never more than the largest [int]. *)
Class Runtime := {
  growslice_slack : Z -> nat;
  makeslice_limit : Z
}.

(** ** errors.go *)

Definition Error := string.
Definition ErrNegativeCap : Error := "heap: capacity cannot be negative"%string.
Definition ErrZeroCap : Error := "heap: capacity cannot be zero"%string.
Definition ErrCapacityReached : Error := "heap: capacity reached and cannot grow"%string.

(** ** Slices *)

Module slice.
Section slice.
Context {T : Type} {zt : Zero T} {rt : Runtime}.

Record t := mk { elems : list T; spare : nat }.

Definition len (s : t) : Z := Z.of_nat (length (elems s)).
Definition cap (s : t) : Z := len s + Z.of_nat (spare s).

(** The nil slice. *)
Definition nil_ : t := mk [] 0.

(** [s[i]] *)
Definition index (s : t) (i : Z) : result T :=
  if i <? 0 then Panic
  else match elems s !! Z.to_nat i with
       | Some x => Ok x
       | None => Panic
       end.

(** [s[i] = x] *)
Definition store (s : t) (i : Z) (x : T) : result t :=
  if (0 <=? i) && (i <? len s)
  then Ok (mk (<[Z.to_nat i := x]> (elems s)) (spare s))
  else Panic.

(** [s[:hi]] for [hi <= len s]; the cells cut off stay in the backing
    array.  (Go also allows [len s < hi <= cap s]; the package never
    does that, and the model panics there.) *)
Definition reslice_to (s : t) (hi : Z) : result t :=
  if (0 <=? hi) && (hi <=? len s)
  then Ok (mk (take (Z.to_nat hi) (elems s)) (spare s + Z.to_nat (len s - hi)))
  else Panic.

(** [append(s, x)] *)
Definition append (s : t) (x : T) : t :=
  match spare s with
  | S k => mk (elems s ++ [x]) k
  | O => mk (elems s ++ [x]) (growslice_slack (cap s))
  end.

(** [make([]T, n, c)] *)
Definition make (n c : Z) : result t :=
  if (0 <=? n) && (n <=? c) && (c <=? makeslice_limit)
  then Ok (mk (replicate (Z.to_nat n) zero) (Z.to_nat (c - n)))
  else Panic.

(** [copy(dst, src)] *)
Definition copy (dst src : t) : t :=
  let k := Nat.min (length (elems dst)) (length (elems src)) in
  mk (take k (elems src) ++ drop k (elems dst)) (spare dst).
End slice.
Arguments t T : clear implicits.
End slice.

(** ** heap.go *)

Module Heap.
Section Heap.
Context {T : Type} {zt : Zero T} {rt : Runtime}.

Record t := mk {
  data : slice.t T;
  less : T -> T -> bool  (* true if a has higher priority than b *)
}.

Definition New (less : T -> T -> bool) : t := mk slice.nil_ less.

Definition parentIndex (index : Z) : Z :=
  if index =? 0 then -1 (* root has no parent *)
  else Z.quot (index - 1) 2.

Definition leftChildIndex (index : Z) : Z := 2 * index + 1.

Definition rightChildIndex (index : Z) : Z := 2 * index + 2.

Definition set_data (h : t) (d : slice.t T) : t := mk d (less h).

(** [h.data[i], h.data[j] = h.data[j], h.data[i]] *)
Definition swap (h : t) (i j : Z) : result t :=
  a ← slice.index (data h) j;
  b ← slice.index (data h) i;
  d1 ← slice.store (data h) i a;
  d2 ← slice.store d1 j b;
  Ok (set_data h d2).

Fixpoint heapifyUp_loop (fuel : nat) (index : Z) (h : t) : result t :=
  match fuel with
  | O => OutOfFuel
  | S fuel' =>
    if 0 <? index then
      let parentIndex := parentIndex index in
      x ← slice.index (data h) index;
      y ← slice.index (data h) parentIndex;
      if less h x y then
        h' ← swap h index parentIndex;
        heapifyUp_loop fuel' parentIndex h'
      else Ok h
    else Ok h
  end.

Definition heapifyUp (index : Z) (h : t) : result t :=
  heapifyUp_loop (S (Z.to_nat index)) index h.

Fixpoint heapifyDown_rec (fuel : nat) (index : Z) (h : t) : result t :=
  match fuel with
  | O => OutOfFuel
  | S fuel' =>
    let n := slice.len (data h) in
    let current := index in
    let leftChild := leftChildIndex index in
    let rightChild := rightChildIndex index in
    c1 ← (if leftChild <? n then
            x ← slice.index (data h) leftChild;
            y ← slice.index (data h) current;
            Ok (less h x y)
          else Ok false);
    let current := if c1 : bool then leftChild else current in
    c2 ← (if rightChild <? n then
            x ← slice.index (data h) rightChild;
            y ← slice.index (data h) current;
            Ok (less h x y)
          else Ok false);
    let current := if c2 : bool then rightChild else current in
    if negb (current =? index) then
      h' ← swap h index current;
      heapifyDown_rec fuel' current h'
    else Ok h
  end.

Definition heapifyDown (index : Z) (h : t) : result t :=
  heapifyDown_rec (S (length (slice.elems (data h)))) index h.

Definition Insert (value : T) (h : t) : result (t * option Error) :=
  let h1 := set_data h (slice.append (data h) value) in
  h2 ← heapifyUp (slice.len (data h1) - 1) h1;
  Ok (h2, None).

Definition Extract (h : t) : result (t * (T * bool)) :=
  if slice.len (data h) =? 0 then Ok (h, (zero, false))
  else
    root ← slice.index (data h) 0;
    let lastIndex := slice.len (data h) - 1 in
    x ← slice.index (data h) lastIndex;
    d1 ← slice.store (data h) 0 x;
    d2 ← slice.reslice_to d1 lastIndex;
    h3 ← heapifyDown 0 (set_data h d2);
    Ok (h3, (root, true)).
End Heap.
Arguments t T : clear implicits.
End Heap.


(** ** optimized_heap.go *)

Module OptimizedHeap.
Section OptimizedHeap.
Context {T : Type} {zt : Zero T} {rt : Runtime}.

Record t := mk {
  h : option (Heap.t T);   (* [*Heap[T]]; [None] is the nil pointer *)
  cap : Z;
  canGrow : bool;
  useLazy : bool;
  growthFunc : Z -> Z;
  heapified : bool
}.

Definition Opt := t -> t.

Definition set_h (oh : t) (hp : Heap.t T) : t :=
  mk (Some hp) (cap oh) (canGrow oh) (useLazy oh) (growthFunc oh) (heapified oh).

Definition set_heapified (oh : t) (b : bool) : t :=
  mk (h oh) (cap oh) (canGrow oh) (useLazy oh) (growthFunc oh) b.

Definition defaultOptimizedHeap : t :=
  mk None 16 true false
     (fun currentCap =>
        if currentCap <? 1024 then currentCap * 2
        else currentCap + Z.quot currentCap 4)
     false.

Definition WithCapacity (cap : Z) (canGrow : bool) : Opt :=
  fun oh => mk (h oh) cap canGrow (useLazy oh) (growthFunc oh) (heapified oh).

Definition WithGrowthFunction (growthFunc : Z -> Z) : Opt :=
  fun oh => mk (h oh) (cap oh) (canGrow oh) (useLazy oh) growthFunc (heapified oh).

Definition UseLazyHeapification : Opt :=
  fun oh => mk (h oh) (cap oh) (canGrow oh) true (growthFunc oh) (heapified oh).

Definition validateOptions (oh : t) : option Error :=
  if cap oh <? 0 then Some ErrNegativeCap
  else if cap oh =? 0 then Some ErrZeroCap
  else None.

Definition NewOptimizedHeap (less : T -> T -> bool) (opts : list Opt)
  : result (option t * option Error) :=
  let oh := fold_left (fun oh o => o oh) opts defaultOptimizedHeap in
  match validateOptions oh with
  | Some err => Ok (None, Some err)
  | None =>
    d ← slice.make 0 (cap oh);
    Ok (Some (set_h oh (Heap.mk d less)), None)
  end.

(** Dereferencing [oh.h]. *)
Definition deref (oh : t) : result (Heap.t T) :=
  match h oh with
  | Some hp => Ok hp
  | None => Panic
  end.

Definition insertOnly (value : T) (oh : t) : result t :=
  hp ← deref oh;
  Ok (set_h oh (Heap.set_data hp (slice.append (Heap.data hp) value))).

Definition shouldBuildHeap (oh : t) : result bool :=
  if negb (heapified oh) then
    hp ← deref oh;
    Ok (slice.len (Heap.data hp) >? 0)
  else Ok false.

Fixpoint buildHeap_loop (fuel : nat) (i : Z) (hp : Heap.t T) : result (Heap.t T) :=
  match fuel with
  | O => OutOfFuel
  | S fuel' =>
    if 0 <=? i then
      hp' ← Heap.heapifyDown i hp;
      buildHeap_loop fuel' (i - 1) hp'
    else Ok hp
  end.

Definition buildHeap (oh : t) : result t :=
  hp ← deref oh;
  let n := slice.len (Heap.data hp) in
  hp' ← buildHeap_loop (S (Z.to_nat (Z.quot n 2))) (Z.quot n 2 - 1) hp;
  Ok (set_h oh hp').

Definition Insert (value : T) (oh : t) : result (t * option Error) :=
  hp ← deref oh;
  if negb (canGrow oh) && (slice.len (Heap.data hp) >=? slice.cap (Heap.data hp)) then
    Ok (oh, Some ErrCapacityReached)
  else if useLazy oh then
    oh1 ← insertOnly value oh;
    Ok (set_heapified oh1 false, None)
  else
    hp1 ← (if slice.len (Heap.data hp) =? slice.cap (Heap.data hp) then
             let newCap := growthFunc oh (slice.cap (Heap.data hp)) in
             let newCap := if newCap <=? slice.cap (Heap.data hp)
                           then slice.cap (Heap.data hp) + 1 else newCap in
             newData ← slice.make (slice.len (Heap.data hp)) newCap;
             Ok (Heap.set_data hp (slice.copy newData (Heap.data hp)))
           else Ok hp);
    r ← Heap.Insert value hp1;
    Ok (set_h oh r.1, r.2).

Definition Extract (oh : t) : result (t * (T * bool)) :=
  b ← (if useLazy oh then shouldBuildHeap oh else Ok false);
  oh1 ← (if b : bool then
           oh' ← buildHeap oh;
           Ok (set_heapified oh' true)
         else Ok oh);
  hp ← deref oh1;
  r ← Heap.Extract hp;
  Ok (set_h oh1 r.1, r.2).
End OptimizedHeap.
Arguments t T : clear implicits.
Arguments Opt T : clear implicits.
End OptimizedHeap.

(** ** Comparators of the convenience constructors

    [NewMinHeap], [NewMaxHeap], [NewOptimizedMinHeap] and
    [NewOptimizedMaxHeap] take [a < b] and [a > b] of a
    [constraints.Ordered] type.  Such a type is given here by its boolean
    [<]; the order laws are stated where they are used. *)

Class Ordered (T : Type) := ltb : T -> T -> bool.

Section constructors.
Context {T : Type} {zt : Zero T} {rt : Runtime} `{!Ordered T}.

Definition NewMinHeap : Heap.t T := Heap.New (fun a b => ltb a b).
Definition NewMaxHeap : Heap.t T := Heap.New (fun a b => ltb b a).

Definition NewOptimizedMinHeap (opts : list (OptimizedHeap.Opt T)) :=
  OptimizedHeap.NewOptimizedHeap (fun a b => ltb a b) opts.
Definition NewOptimizedMaxHeap (opts : list (OptimizedHeap.Opt T)) :=
  OptimizedHeap.NewOptimizedHeap (fun a b => ltb b a) opts.
End constructors.

#[global] Instance Z_zero : Zero Z := 0.
#[global] Instance Z_ordered : Ordered Z := Z.ltb.
#[global] Instance prod_zero {A B} `{!Zero A} `{!Zero B} : Zero (A * B) := (zero, zero).

(** One runtime, used where a property is evaluated on concrete input: a
    full slice of capacity [c >= 1] is moved to capacity [2 * c], an empty
    one of capacity [0] to capacity [1], and [make] serves up to [2^45]
    cells, which is what a 64-bit Go serves for cells of eight bytes. *)
Definition doubling_runtime : Runtime :=
  {| growslice_slack := fun oldCap => Z.to_nat (oldCap - 1);
     makeslice_limit := 2 ^ 45 |}.

(** The largest [int] of a 64-bit platform. *)
Definition max_int : Z := 2 ^ 63 - 1.

(** The capacity the growth policy of eager [Insert] moves a full slice of
    capacity [c] to. *)
Definition grown_capacity (growthFunc : Z -> Z) (c : Z) : Z :=
  if growthFunc c <=? c then c + 1 else growthFunc c.

(** ** Sequences of calls *)

Inductive op (T : Type) : Type :=
| OpInsert (value : T)
| OpExtract.
Arguments OpInsert {T} value.
Arguments OpExtract {T}.

(** What a call returns: the error of [Insert], or the pair of [Extract]. *)
Inductive ret (T : Type) : Type :=
| RetInsert (err : option Error)
| RetExtract (value : T) (found : bool).
Arguments RetInsert {T} err.
Arguments RetExtract {T} value found.

Section calls.
Context {T : Type} {zt : Zero T} {rt : Runtime}.

Definition Heap_call (o : op T) (h : Heap.t T) : result (Heap.t T * ret T) :=
  match o with
  | OpInsert v => r ← Heap.Insert v h; Ok (r.1, RetInsert r.2)
  | OpExtract => r ← Heap.Extract h; Ok (r.1, RetExtract r.2.1 r.2.2)
  end.

Definition OptimizedHeap_call (o : op T) (oh : OptimizedHeap.t T)
  : result (OptimizedHeap.t T * ret T) :=
  match o with
  | OpInsert v => r ← OptimizedHeap.Insert v oh; Ok (r.1, RetInsert r.2)
  | OpExtract => r ← OptimizedHeap.Extract oh; Ok (r.1, RetExtract r.2.1 r.2.2)
  end.

(** Runs the calls in order, collecting what each returns. *)
Fixpoint run {S : Type} (call : op T -> S -> result (S * ret T))
  (ops : list (op T)) (s : S) : result (S * list (ret T)) :=
  match ops with
  | [] => Ok (s, [])
  | o :: ops' =>
    r ← call o s;
    r' ← run call ops' r.1;
    Ok (r'.1, r.2 :: r'.2)
  end.

(** The results of the [Extract] calls of a trace. *)
Definition extracted (tr : list (ret T)) : list (T * bool) :=
  omap (fun r => match r with
                 | RetExtract v f => Some (v, f)
                 | RetInsert _ => None
                 end) tr.
End calls.

(** * Properties *)

(** ** Reading and exchanging cells *)

Section cells.
Context {T : Type} {zt : Zero T}.
Implicit Types (d : list T) (s : slice.t T) (i j k : Z).

(** The cell [i] of a list, the zero value outside of it. *)
Definition get d i : T := default zero (d !! Z.to_nat i).

(** The list with the cells [i] and [j] exchanged. *)
Definition exch d i j : list T :=
  <[Z.to_nat j := get d i]> (<[Z.to_nat i := get d j]> d).

Definition llen d : Z := Z.of_nat (length d).

Lemma index_ok s i :
  0 <= i < slice.len s -> slice.index s i = Ok (get (slice.elems s) i).
Proof.
  intros Hi. unfold slice.index, get, slice.len in *.
  destruct (Z.ltb_spec i 0); [lia|].
  destruct (lookup_lt_is_Some_2 (slice.elems s) (Z.to_nat i)) as [x Hx]; [lia|].
  by rewrite Hx.
Qed.

Lemma index_Ok_inv s i x :
  slice.index s i = Ok x -> 0 <= i < slice.len s /\ x = get (slice.elems s) i.
Proof.
  unfold slice.index, get, slice.len.
  destruct (Z.ltb_spec i 0); [done|].
  destruct (slice.elems s !! Z.to_nat i) as [y|] eqn:Hy; [|done].
  intros [= ->]. apply lookup_lt_Some in Hy. split; [lia|done].
Qed.

Lemma store_ok s i x :
  0 <= i < slice.len s ->
  slice.store s i x = Ok (slice.mk (<[Z.to_nat i := x]> (slice.elems s)) (slice.spare s)).
Proof.
  intros Hi. unfold slice.store.
  destruct (Z.leb_spec 0 i); [|lia]. destruct (Z.ltb_spec i (slice.len s)); [done|lia].
Qed.

Lemma swap_ok (h : Heap.t T) i j :
  0 <= i < slice.len (Heap.data h) -> 0 <= j < slice.len (Heap.data h) ->
  Heap.swap h i j =
  Ok (Heap.set_data h (slice.mk (exch (slice.elems (Heap.data h)) i j)
                                (slice.spare (Heap.data h)))).
Proof.
  intros Hi Hj. unfold Heap.swap.
  rewrite !index_ok by done. cbn. rewrite store_ok by done. cbn.
  rewrite store_ok; [done|]. unfold slice.len in *. cbn. rewrite length_insert. done.
Qed.

Lemma length_exch d i j : length (exch d i j) = length d.
Proof. unfold exch. by rewrite !length_insert. Qed.

Lemma llen_exch d i j : llen (exch d i j) = llen d.
Proof. unfold llen. by rewrite length_exch. Qed.

Lemma get_exch d i j k :
  0 <= i < llen d -> 0 <= j < llen d -> 0 <= k ->
  get (exch d i j) k =
  if decide (k = j) then get d i else if decide (k = i) then get d j else get d k.
Proof.
  unfold llen. intros Hi Hj Hk. unfold exch, get at 1.
  destruct (decide (k = j)) as [->|Hkj].
  - rewrite list_lookup_insert_eq; [done|]. rewrite length_insert. lia.
  - rewrite list_lookup_insert_ne by lia.
    destruct (decide (k = i)) as [->|Hki].
    + rewrite list_lookup_insert_eq; [done|lia].
    + by rewrite list_lookup_insert_ne by lia.
Qed.

Lemma lookup_get d i : 0 <= i < llen d -> d !! Z.to_nat i = Some (get d i).
Proof.
  unfold llen. intros Hi. unfold get.
  destruct (lookup_lt_is_Some_2 d (Z.to_nat i)) as [x Hx]; [lia|]. by rewrite Hx.
Qed.

Lemma insert_Permutation_cons d (n : nat) x y :
  d !! n = Some y -> x :: d ≡ₚ y :: <[n:=x]> d.
Proof.
  revert n. induction d as [|a d IH]; intros [|n] H; simplify_eq/=.
  - apply perm_swap.
  - etrans; [apply perm_swap|]. etrans; [|apply perm_swap].
    constructor. by apply IH.
Qed.

Lemma exch_Permutation d i j :
  0 <= i < llen d -> 0 <= j < llen d -> exch d i j ≡ₚ d.
Proof.
  intros Hi Hj. unfold exch.
  destruct (decide (i = j)) as [->|Hij].
  - rewrite list_insert_insert_eq. rewrite list_insert_id; [done|]. by apply lookup_get.
  - apply (Permutation_cons_inv (a := get d j)).
    rewrite <- (insert_Permutation_cons _ (Z.to_nat j) (get d i) (get d j)).
    + symmetry. apply insert_Permutation_cons. by apply lookup_get.
    + rewrite list_lookup_insert_ne by lia. by apply lookup_get.
Qed.
End cells.

(** ** Comparators

    The specification takes the comparator to be a strict weak order: no
    two values beat each other, and "does not beat" is transitive. *)

Class StrictWeakOrder {T : Type} (less : T -> T -> bool) : Prop := {
  less_asym a b : less a b = true -> less b a = false;
  less_negtrans a b c : less a b = false -> less b c = false -> less a c = false
}.

(** A strict total order: moreover, values that do not beat each other are
    the same value. *)
Class StrictTotalOrder {T : Type} (less : T -> T -> bool) : Prop := {
  total_weak :: StrictWeakOrder less;
  less_total a b : less a b = false -> less b a = false -> a = b
}.

Section comparators.
Context {T : Type} (less : T -> T -> bool) `{!StrictWeakOrder less}.

Lemma less_irrefl a : less a a = false.
Proof.
  destruct (less a a) eqn:E; [|done].
  pose proof (less_asym _ _ E). congruence.
Qed.

Lemma less_trans a b c : less a b = true -> less b c = true -> less a c = true.
Proof.
  intros Hab Hbc. destruct (less a c) eqn:E; [done|].
  apply less_asym in Hbc. pose proof (less_negtrans _ _ _ E Hbc) as H.
  congruence.
Qed.

Lemma less_false_true a b c : less a b = false -> less c b = true -> less a c = false.
Proof.
  intros Hab Hcb. destruct (less a c) eqn:E; [|done].
  pose proof (less_trans _ _ _ E Hcb) as H. congruence.
Qed.

Lemma flip_StrictWeakOrder : StrictWeakOrder (fun a b => less b a).
Proof.
  split.
  - intros a b. apply less_asym.
  - intros a b c Hab Hbc. by apply (less_negtrans c b a).
Qed.
End comparators.

#[global] Instance Z_ltb_StrictTotalOrder : StrictTotalOrder Z.ltb.
Proof.
  split; [split|].
  - intros a b H. apply Z.ltb_lt in H. apply Z.ltb_ge. lia.
  - intros a b c H1 H2. apply Z.ltb_ge in H1, H2. apply Z.ltb_ge. lia.
  - intros a b H1 H2. apply Z.ltb_ge in H1, H2. lia.
Qed.

(** ** The tree laid out in the array *)

Section tree.

(** The parent of a cell that is not the root. *)
Definition par (j : Z) : Z := (j - 1) / 2.

Lemma parentIndex_pos j : 0 < j -> Heap.parentIndex j = par j.
Proof.
  intros Hj. unfold Heap.parentIndex, par.
  destruct (Z.eqb_spec j 0); [lia|]. apply Z.quot_div_nonneg; lia.
Qed.

Lemma par_bounds j : 0 < j -> 0 <= par j < j.
Proof. intros Hj. unfold par. Z.div_mod_to_equations. lia. Qed.

Lemma par_children i j :
  0 < j -> par j = i <-> j = Heap.leftChildIndex i \/ j = Heap.rightChildIndex i.
Proof.
  intros Hj. unfold par, Heap.leftChildIndex, Heap.rightChildIndex.
  Z.div_mod_to_equations. lia.
Qed.

End tree.

(** ** Sifting down *)

Section sift_down.
Context {T : Type} {zt : Zero T}.
Implicit Types (d : list T) (i j lo : Z) (less : T -> T -> bool).

(** A heap record with the given cells. *)
Definition heap_of less d (k : nat) : Heap.t T := Heap.mk (slice.mk d k) less.

(** Every cell whose parent is at [lo] or after does not beat its parent. *)
Definition ordered_from less lo d : Prop :=
  forall j, 0 < j < llen d -> lo <= par j -> less (get d j) (get d (par j)) = false.

Lemma ordered_from_nil less lo : ordered_from less lo [].
Proof. intros j Hj. change (llen []) with 0 in Hj. lia. Qed.

(** What sifting down at [i] starts from: the cells are ordered from [lo]
    except under [i], and the children of [i] do not beat the parent of
    [i]. *)
Definition down_pre less lo i d : Prop :=
  (forall j, 0 < j < llen d -> lo <= par j -> par j <> i ->
             less (get d j) (get d (par j)) = false) /\
  (0 < i -> lo <= par i ->
   forall j, 0 < j < llen d -> par j = i -> less (get d j) (get d (par i)) = false).

(** The cell that [heapifyDown] exchanges with [i]: [i] itself when no
    exchange takes place. *)
Definition pick less d i : Z :=
  let c := if (2 * i + 1 <? llen d) && less (get d (2 * i + 1)) (get d i)
           then 2 * i + 1 else i in
  if (2 * i + 2 <? llen d) && less (get d (2 * i + 2)) (get d c)
  then 2 * i + 2 else c.

Lemma pick_range less d i :
  0 <= i ->
  pick less d i = i \/
  (pick less d i = 2 * i + 1 \/ pick less d i = 2 * i + 2) /\ pick less d i < llen d.
Proof.
  intros Hi. unfold pick.
  destruct (Z.ltb_spec (2 * i + 1) (llen d)), (Z.ltb_spec (2 * i + 2) (llen d)); cbn;
    repeat (match goal with |- context [if ?b then _ else _] => destruct b end);
    lia.
Qed.

Lemma pick_order less `{!StrictWeakOrder less} d i :
  0 <= i ->
  (pick less d i <> i -> less (get d (pick less d i)) (get d i) = true) /\
  (forall c, c = 2 * i + 1 \/ c = 2 * i + 2 -> c < llen d ->
             less (get d c) (get d (pick less d i)) = false).
Proof.
  intros Hi. unfold pick.
  destruct (Z.ltb_spec (2 * i + 1) (llen d)) as [HL|HL],
           (Z.ltb_spec (2 * i + 2) (llen d)) as [HR|HR]; cbn; try lia.
  - destruct (less (get d (2 * i + 1)) (get d i)) eqn:EL.
    + destruct (less (get d (2 * i + 2)) (get d (2 * i + 1))) eqn:ER.
      * split; [intros _; by eapply less_trans|].
        intros c [->| ->] _; [by apply less_asym|by apply less_irrefl].
      * split; [done|]. intros c [->| ->] _; [by apply less_irrefl|done].
    + destruct (less (get d (2 * i + 2)) (get d i)) eqn:ER.
      * split; [done|].
        intros c [->| ->] _; [by eapply less_false_true|by apply less_irrefl].
      * split; [done|]. by intros c [->| ->] _.
  - destruct (less (get d (2 * i + 1)) (get d i)) eqn:EL.
    + split; [done|]. intros c [->| ->] ?; [by apply less_irrefl|lia].
    + split; [done|]. intros c [->| ->] ?; [done|lia].
  - split; [done|]. intros c [->| ->] ?; lia.
Qed.

Lemma heapifyDown_rec_step less d k fuel i :
  0 <= i ->
  Heap.heapifyDown_rec (S fuel) i (heap_of less d k) =
  if decide (pick less d i = i) then Ok (heap_of less d k)
  else Heap.heapifyDown_rec fuel (pick less d i)
         (heap_of less (exch d i (pick less d i)) k).
Proof.
  intros Hi.
  assert (Hlen : slice.len (Heap.data (heap_of less d k)) = llen d) by done.
  assert (Hidx : forall j, 0 <= j < llen d ->
            slice.index (Heap.data (heap_of less d k)) j = Ok (get d j)).
  { intros j Hj. by rewrite index_ok. }
  assert (Hswap : forall j, 0 <= j < llen d -> 0 <= i < llen d ->
            Heap.swap (heap_of less d k) i j = Ok (heap_of less (exch d i j) k)).
  { intros j Hj Hi'. by rewrite swap_ok. }
  unfold pick. cbn [Heap.heapifyDown_rec].
  unfold Heap.leftChildIndex, Heap.rightChildIndex. rewrite Hlen.
  destruct (Z.ltb_spec (2 * i + 1) (llen d)) as [HL|HL]; cbn [andb].
  - rewrite (Hidx (2 * i + 1)), (Hidx i) by lia.
    cbn [mbind result_bind Heap.less heap_of].
    destruct (less (get d (2 * i + 1)) (get d i)) eqn:EL.
    + destruct (Z.ltb_spec (2 * i + 2) (llen d)) as [HR|HR]; cbn [andb].
      * rewrite (Hidx (2 * i + 2)), (Hidx (2 * i + 1)) by lia.
        cbn [mbind result_bind Heap.less heap_of].
        destruct (less (get d (2 * i + 2)) (get d (2 * i + 1))) eqn:ER.
        -- destruct (Z.eqb_spec (2 * i + 2) i); [lia|]. cbn [negb].
           rewrite Hswap by lia. cbn [mbind result_bind].
           destruct (decide (2 * i + 2 = i)); [lia|done].
        -- destruct (Z.eqb_spec (2 * i + 1) i); [lia|]. cbn [negb].
           rewrite Hswap by lia. cbn [mbind result_bind].
           destruct (decide (2 * i + 1 = i)); [lia|done].
      * cbn [mbind result_bind].
        destruct (Z.eqb_spec (2 * i + 1) i); [lia|]. cbn [negb].
        rewrite Hswap by lia. cbn [mbind result_bind].
        destruct (decide (2 * i + 1 = i)); [lia|done].
    + destruct (Z.ltb_spec (2 * i + 2) (llen d)) as [HR|HR]; cbn [andb].
      * rewrite (Hidx (2 * i + 2)), (Hidx i) by lia.
        cbn [mbind result_bind Heap.less heap_of].
        destruct (less (get d (2 * i + 2)) (get d i)) eqn:ER.
        -- destruct (Z.eqb_spec (2 * i + 2) i); [lia|]. cbn [negb].
           rewrite Hswap by lia. cbn [mbind result_bind].
           destruct (decide (2 * i + 2 = i)); [lia|done].
        -- rewrite Z.eqb_refl. cbn [negb]. destruct (decide (i = i)); done.
      * cbn [mbind result_bind]. rewrite Z.eqb_refl. cbn [negb].
        destruct (decide (i = i)); done.
  - cbn [mbind result_bind].
    destruct (Z.ltb_spec (2 * i + 2) (llen d)) as [HR|HR]; [lia|]. cbn [andb].
    cbn [mbind result_bind]. rewrite Z.eqb_refl. cbn [negb].
    destruct (decide (i = i)); done.
Qed.
Lemma down_pre_done less `{!StrictWeakOrder less} lo i d :
  0 <= i -> pick less d i = i -> down_pre less lo i d -> ordered_from less lo d.
Proof.
  intros Hi Hpick [H1 _] j Hj Hlo.
  destruct (decide (par j = i)) as [Hp|Hp]; [|by apply H1].
  destruct (pick_order less d i Hi) as [_ Hc]. rewrite Hpick in Hc.
  rewrite Hp. apply Hc; [|lia]. apply par_children in Hp; [|lia].
  unfold Heap.leftChildIndex, Heap.rightChildIndex in Hp. lia.
Qed.

Lemma down_pre_exch less `{!StrictWeakOrder less} lo i d :
  0 <= lo <= i -> pick less d i <> i -> down_pre less lo i d ->
  down_pre less lo (pick less d i) (exch d i (pick less d i)).
Proof.
  intros Hlo Hne [H1 H2].
  destruct (pick_range less d i) as [?|[Hm Hmn]]; [lia|done|].
  destruct (pick_order less d i) as [Hbeat Hc]; [lia|].
  specialize (Hbeat Hne). set (m := pick less d i) in *.
  assert (Hpm : par m = i).
  { apply par_children; [lia|]. unfold Heap.leftChildIndex, Heap.rightChildIndex. lia. }
  split.
  - intros j Hj Hloj Hpj. rewrite llen_exch in Hj.
    pose proof (par_bounds j ltac:(lia)) as Hb.
    rewrite !get_exch by lia.
    destruct (decide (j = m)) as [->|Hjm].
    + rewrite Hpm. destruct (decide (i = m)); [lia|].
      destruct (decide (i = i)); [|done]. by apply less_asym.
    + destruct (decide (par j = m)); [done|].
      destruct (decide (j = i)) as [->|Hji].
      * destruct (decide (par i = i)); [lia|]. apply H2; [lia..|done].
      * destruct (decide (par j = i)) as [Hpji|Hpji]; [|by apply H1].
        apply Hc; [|lia]. apply par_children in Hpji; [|lia].
        unfold Heap.leftChildIndex, Heap.rightChildIndex in Hpji. lia.
  - intros Hm0 Hlom j Hj Hpj. rewrite llen_exch in Hj.
    pose proof (par_bounds j ltac:(lia)) as Hb.
    rewrite !get_exch by lia. rewrite Hpm.
    destruct (decide (j = m)); [lia|]. destruct (decide (j = i)); [lia|].
    destruct (decide (i = m)); [lia|]. destruct (decide (i = i)); [|done].
    rewrite <- Hpj. apply H1; lia.
Qed.

(** [heapifyDown] returns, exchanges cells only, and orders the cells from
    [lo] when started as [down_pre] says. *)
Lemma heapifyDown_rec_spec less k (fuel : nat) : forall i d,
  0 <= i -> (Z.to_nat (llen d - i) < fuel)%nat ->
  exists d', Heap.heapifyDown_rec fuel i (heap_of less d k) = Ok (heap_of less d' k) /\
             d' ≡ₚ d /\
             (forall lo, StrictWeakOrder less -> 0 <= lo <= i ->
                         down_pre less lo i d -> ordered_from less lo d').
Proof.
  induction fuel as [|fuel IH]; intros i d Hi Hfuel; [lia|].
  rewrite heapifyDown_rec_step by done.
  destruct (decide (pick less d i = i)) as [Hpick|Hpick].
  - exists d. split; [done|]. split; [done|].
    intros lo ? Hlo Hpre. by eapply down_pre_done.
  - destruct (pick_range less d i Hi) as [?|[Hm Hmn]]; [done|].
    destruct (IH (pick less d i) (exch d i (pick less d i))) as (d' & Hrun & Hperm & Hord).
    { lia. } { rewrite llen_exch. lia. }
    exists d'. split; [done|]. split.
    + rewrite Hperm. apply exch_Permutation; lia.
    + intros lo ? Hlo Hpre. apply Hord; [done|lia|]. by apply down_pre_exch.
Qed.

Lemma heapifyDown_spec less k i d :
  0 <= i ->
  exists d', Heap.heapifyDown i (heap_of less d k) = Ok (heap_of less d' k) /\
             d' ≡ₚ d /\
             (forall lo, StrictWeakOrder less -> 0 <= lo <= i ->
                         down_pre less lo i d -> ordered_from less lo d').
Proof.
  intros Hi. unfold Heap.heapifyDown. apply heapifyDown_rec_spec; [done|].
  cbn. unfold llen. lia.
Qed.
End sift_down.

(** ** Sifting up *)

Section sift_up.
Context {T : Type} {zt : Zero T}.
Implicit Types (d : list T) (i j : Z) (less : T -> T -> bool).

(** What sifting up at [i] starts from: every cell but [i] does not beat
    its parent, and the children of [i] do not beat the parent of [i]. *)
Definition up_pre less i d : Prop :=
  (forall j, 0 < j < llen d -> j <> i -> less (get d j) (get d (par j)) = false) /\
  (0 < i -> forall j, 0 < j < llen d -> par j = i ->
            less (get d j) (get d (par i)) = false).

Lemma heapifyUp_loop_step less d k fuel i :
  0 <= i < llen d ->
  Heap.heapifyUp_loop (S fuel) i (heap_of less d k) =
  if decide (0 < i /\ less (get d i) (get d (par i)) = true)
  then Heap.heapifyUp_loop fuel (par i) (heap_of less (exch d i (par i)) k)
  else Ok (heap_of less d k).
Proof.
  intros Hi. cbn [Heap.heapifyUp_loop].
  destruct (Z.ltb_spec 0 i) as [H0|H0].
  - pose proof (par_bounds i H0). rewrite parentIndex_pos by done.
    rewrite !index_ok by (cbn; unfold slice.len; cbn; unfold llen in *; lia).
    cbn [mbind result_bind Heap.less heap_of Heap.data slice.elems].
    destruct (less (get d i) (get d (par i))) eqn:E.
    + rewrite swap_ok by (cbn; unfold slice.len; cbn; unfold llen in *; lia).
      cbn [mbind result_bind]. by rewrite decide_True.
    + rewrite decide_False; [done|]. intros [_ ?]. congruence.
  - rewrite decide_False; [done|lia].
Qed.

Lemma up_pre_done less `{!StrictWeakOrder less} i d :
  0 <= i -> ~ (0 < i /\ less (get d i) (get d (par i)) = true) ->
  up_pre less i d -> ordered_from less 0 d.
Proof.
  intros Hi Hno [H1 _] j Hj _.
  destruct (decide (j = i)) as [->|Hji]; [|by apply H1].
  destruct (less (get d i) (get d (par i))) eqn:E; [|done].
  exfalso. apply Hno. split; [lia|done].
Qed.

Lemma up_pre_exch less `{!StrictWeakOrder less} i d :
  0 < i < llen d -> less (get d i) (get d (par i)) = true ->
  up_pre less i d -> up_pre less (par i) (exch d i (par i)).
Proof.
  intros Hi Hbeat [H1 H2]. pose proof (par_bounds i ltac:(lia)) as Hpi.
  set (p := par i) in *.
  split.
  - intros j Hj Hjp. rewrite llen_exch in Hj.
    pose proof (par_bounds j ltac:(lia)) as Hb.
    rewrite !get_exch by lia.
    destruct (decide (j = p)); [done|].
    destruct (decide (j = i)) as [->|Hji].
    + fold p. destruct (decide (p = p)); [|done]. by apply less_asym.
    + destruct (decide (par j = p)) as [Hpj|Hpj].
      * apply (less_false_true less _ (get d p)); [|exact Hbeat].
        rewrite <- Hpj. by apply H1.
      * destruct (decide (par j = i)) as [Hpji|Hpji]; [|by apply H1].
        apply H2; [lia..|done].
  - intros Hp j Hj Hpj. rewrite llen_exch in Hj.
    pose proof (par_bounds j ltac:(lia)) as Hb.
    pose proof (par_bounds p Hp) as Hpp.
    assert (Hord_p : less (get d p) (get d (par p)) = false) by (apply H1; lia).
    rewrite !get_exch by lia.
    destruct (decide (par p = p)); [lia|]. destruct (decide (par p = i)); [lia|].
    destruct (decide (j = p)); [lia|].
    destruct (decide (j = i)) as [->|Hji]; [done|].
    apply (less_negtrans _ (get d p)); [|exact Hord_p].
    rewrite <- Hpj. by apply H1.
Qed.

(** [heapifyUp] returns, exchanges cells only, and leaves a heap when
    started as [up_pre] says. *)
Lemma heapifyUp_loop_spec less k (fuel : nat) : forall i d,
  0 <= i < llen d -> (Z.to_nat i < fuel)%nat ->
  exists d', Heap.heapifyUp_loop fuel i (heap_of less d k) = Ok (heap_of less d' k) /\
             d' ≡ₚ d /\
             (StrictWeakOrder less -> up_pre less i d -> ordered_from less 0 d').
Proof.
  induction fuel as [|fuel IH]; intros i d Hi Hfuel; [lia|].
  rewrite heapifyUp_loop_step by done.
  destruct (decide (0 < i /\ less (get d i) (get d (par i)) = true)) as [[H0 Hb]|Hno].
  - pose proof (par_bounds i H0) as Hp.
    destruct (IH (par i) (exch d i (par i))) as (d' & Hrun & Hperm & Hord).
    { rewrite llen_exch. lia. } { lia. }
    exists d'. split; [done|]. split.
    + rewrite Hperm. apply exch_Permutation; lia.
    + intros ? Hpre. apply Hord; [done|]. apply up_pre_exch; [done|lia|done..].
  - exists d. split; [done|]. split; [done|].
    intros ? Hpre. apply (up_pre_done less i d); [lia|done..].
Qed.

Lemma heapifyUp_spec less k i d :
  0 <= i < llen d ->
  exists d', Heap.heapifyUp i (heap_of less d k) = Ok (heap_of less d' k) /\
             d' ≡ₚ d /\
             (StrictWeakOrder less -> up_pre less i d -> ordered_from less 0 d').
Proof. intros Hi. apply heapifyUp_loop_spec; [done|lia]. Qed.
End sift_up.

(** ** [Heap.Insert] and [Heap.Extract] on the cells *)

Section heap_calls.
Context {T : Type} {zt : Zero T} {rt : Runtime}.
Implicit Types (d : list T) (i j : Z) (less : T -> T -> bool).

Lemma llen_app d l : llen (d ++ l) = llen d + llen l.
Proof. unfold llen. rewrite length_app. lia. Qed.

Lemma get_app_l d l j : 0 <= j < llen d -> get (d ++ l) j = get d j.
Proof.
  unfold llen, get. intros Hj. rewrite lookup_app_l; [done|lia].
Qed.

Lemma elem_of_get d x : x ∈ d -> exists j, 0 <= j < llen d /\ get d j = x.
Proof.
  intros [n Hn]%list_elem_of_lookup. exists (Z.of_nat n).
  pose proof (lookup_lt_Some _ _ _ Hn). unfold llen, get.
  rewrite Nat2Z.id, Hn. split; [lia|done].
Qed.

(** The capacity left after [append]. *)
Definition spare_after_append d (k : nat) : nat :=
  slice.spare (slice.append (slice.mk d k) zero).

Lemma append_eq d k v :
  slice.append (slice.mk d k) v = slice.mk (d ++ [v]) (spare_after_append d k).
Proof. unfold spare_after_append, slice.append. cbn. by destruct k. Qed.

Lemma up_pre_snoc less d v :
  ordered_from less 0 d -> up_pre less (llen d) (d ++ [v]).
Proof.
  intros Hord. split.
  - intros j Hj Hne. rewrite llen_app in Hj. change (llen [v]) with 1 in Hj.
    pose proof (par_bounds j ltac:(lia)).
    rewrite !get_app_l by lia. apply Hord; lia.
  - intros H0 j Hj Hp. rewrite llen_app in Hj. change (llen [v]) with 1 in Hj.
    pose proof (par_bounds j ltac:(lia)). lia.
Qed.

Lemma Heap_Insert_spec less d k v :
  exists d', Heap.Insert v (heap_of less d k)
             = Ok (heap_of less d' (spare_after_append d k), None) /\
             d' ≡ₚ v :: d /\
             (StrictWeakOrder less -> ordered_from less 0 d -> ordered_from less 0 d').
Proof.
  unfold Heap.Insert. cbn [Heap.data heap_of Heap.set_data Heap.less].
  rewrite append_eq.
  destruct (heapifyUp_spec less (spare_after_append d k) (llen d) (d ++ [v]))
    as (d' & Hrun & Hperm & Hord).
  { rewrite llen_app. change (llen [v]) with 1. unfold llen. lia. }
  exists d'. split; [|split].
  - replace (slice.len _ - 1) with (llen d).
    + change (Heap.set_data (heap_of less d k) _)
        with (heap_of less (d ++ [v]) (spare_after_append d k)).
      by rewrite Hrun.
    + unfold slice.len, llen. cbn. rewrite length_app. cbn. lia.
  - rewrite Hperm. by rewrite Permutation_app_comm.
  - intros ? H0. apply Hord; [done|]. by apply up_pre_snoc.
Qed.

Lemma Heap_Extract_empty less k :
  Heap.Extract (heap_of less [] k) = Ok (heap_of less [] k, (zero, false)).
Proof. done. Qed.

(** The cells left by [Extract] before the root is sifted down. *)
Definition without_root d : list T :=
  take (Z.to_nat (llen d - 1)) (<[0%nat := get d (llen d - 1)]> d).

Lemma without_root_Permutation d : d <> [] -> get d 0 :: without_root d ≡ₚ d.
Proof.
  destruct d as [|x tl]; [done|]. intros _. unfold without_root, get, llen.
  destruct tl as [|y tl _] using rev_ind.
  - done.
  - cbn [length]. rewrite length_app. cbn [length].
    replace (Z.to_nat (Z.of_nat (S (length tl + 1)) - 1)) with (S (length tl)) by lia.
    change (Z.to_nat 0) with 0%nat.
    assert (E : (x :: tl ++ [y]) !! S (length tl) = Some y)
      by (by apply (list_lookup_middle (x :: tl) [] y)).
    rewrite E. cbn. rewrite take_app_length. constructor.
    by rewrite Permutation_app_comm.
Qed.

Lemma llen_without_root d : d <> [] -> llen (without_root d) = llen d - 1.
Proof.
  intros Hd. apply without_root_Permutation, Permutation_length in Hd.
  unfold llen. cbn in Hd. lia.
Qed.

Lemma get_without_root d j :
  0 < j < llen d - 1 -> get (without_root d) j = get d j.
Proof.
  unfold without_root, get, llen. intros Hj.
  rewrite lookup_take_lt by lia. by rewrite list_lookup_insert_ne by lia.
Qed.

Lemma Heap_Extract_spec less d k :
  d <> [] ->
  exists d', Heap.Extract (heap_of less d k)
             = Ok (heap_of less d' (S k), (get d 0, true)) /\
             get d 0 :: d' ≡ₚ d /\
             (StrictWeakOrder less -> ordered_from less 0 d -> ordered_from less 0 d').
Proof.
  intros Hd.
  assert (Hn : 0 < llen d) by (destruct d; [done|unfold llen; cbn; lia]).
  destruct (heapifyDown_spec less (S k) 0 (without_root d)) as (d' & Hrun & Hperm & Hord);
    [lia|].
  exists d'. split; [|split].
  - unfold Heap.Extract. cbn [Heap.data heap_of Heap.set_data Heap.less].
    change (slice.len {| slice.elems := d; slice.spare := k |}) with (llen d).
    destruct (Z.eqb_spec (llen d) 0); [lia|].
    rewrite !index_ok by (change (slice.len _) with (llen d); lia).
    cbn [mbind result_bind slice.elems].
    rewrite store_ok by (change (slice.len _) with (llen d); lia).
    cbn [mbind result_bind slice.elems slice.spare].
    unfold slice.reslice_to. cbn [slice.elems slice.spare].
    change (slice.len _) with (llen (<[Z.to_nat 0:=get d (llen d - 1)]> d)).
    unfold llen at 2 3. rewrite length_insert. fold (llen d).
    destruct (Z.leb_spec 0 (llen d - 1)); [|lia].
    destruct (Z.leb_spec (llen d - 1) (llen d)); [|lia].
    cbn [andb mbind result_bind].
    match goal with
    | |- Heap.heapifyDown 0 ?h ≫= _ = _ =>
        replace h with (heap_of less (without_root d) (S k))
    end.
    + by rewrite Hrun.
    + unfold heap_of, Heap.set_data, without_root. cbn [Heap.less]. do 2 f_equal.
      unfold llen. rewrite length_insert. lia.
  - rewrite Hperm. by apply without_root_Permutation.
  - intros ? H0. apply (Hord 0); [done|lia|]. split; [|lia].
    intros j Hj _ Hp. rewrite llen_without_root in Hj by done.
    pose proof (par_bounds j ltac:(lia)).
    rewrite !get_without_root by lia. apply H0; lia.
Qed.

(** In a heap no cell beats the root. *)
Lemma root_first less `{!StrictWeakOrder less} d :
  ordered_from less 0 d ->
  forall x, x ∈ d -> less x (get d 0) = false.
Proof.
  intros Hord.
  assert (Hall : forall n : nat, forall j, 0 <= j < llen d -> Z.to_nat j = n ->
                                less (get d j) (get d 0) = false).
  { induction n as [n IH] using lt_wf_ind. intros j Hj Hn.
    destruct (decide (j = 0)) as [->|Hj0]; [by apply less_irrefl|].
    pose proof (par_bounds j ltac:(lia)).
    apply (less_negtrans _ (get d (par j))).
    - apply Hord; lia.
    - apply (IH (Z.to_nat (par j))); [lia|lia|done]. }
  intros x (j & Hj & <-)%elem_of_get. by eapply Hall.
Qed.
End heap_calls.

(** ** [OptimizedHeap] on the cells *)

Section optimized_calls.
Context {T : Type} {zt : Zero T} {rt : Runtime}.
Implicit Types (d : list T) (i j : Z) (less : T -> T -> bool) (k : nat).
Implicit Types (c : Z) (g l hf : bool) (f : Z -> Z).

(** An optimized heap that owns a heap with the given cells. *)
Definition optimized_of less d k c g l f hf : OptimizedHeap.t T :=
  OptimizedHeap.mk (Some (heap_of less d k)) c g l f hf.

Lemma optimized_of_eta (oh : OptimizedHeap.t T) hp :
  OptimizedHeap.h oh = Some hp ->
  oh = optimized_of (Heap.less hp) (slice.elems (Heap.data hp)) (slice.spare (Heap.data hp))
         (OptimizedHeap.cap oh) (OptimizedHeap.canGrow oh) (OptimizedHeap.useLazy oh)
         (OptimizedHeap.growthFunc oh) (OptimizedHeap.heapified oh).
Proof. destruct oh, hp as [[??]?]. cbn. by intros [= ->]. Qed.

Lemma buildHeap_loop_spec less k (fuel : nat) : forall i d,
  -1 <= i -> (Z.to_nat (i + 1) < fuel)%nat ->
  exists d', OptimizedHeap.buildHeap_loop fuel i (heap_of less d k)
             = Ok (heap_of less d' k) /\
             d' ≡ₚ d /\
             (StrictWeakOrder less -> ordered_from less (i + 1) d ->
              ordered_from less 0 d').
Proof.
  induction fuel as [|fuel IH]; intros i d Hi Hfuel; [lia|].
  cbn [OptimizedHeap.buildHeap_loop].
  destruct (Z.leb_spec 0 i) as [H0|H0].
  - destruct (heapifyDown_spec less k i d H0) as (d1 & Hrun1 & Hperm1 & Hord1).
    rewrite Hrun1. cbn [mbind result_bind].
    destruct (IH (i - 1) d1) as (d' & Hrun & Hperm & Hord); [lia..|].
    exists d'. split; [done|]. split; [by rewrite Hperm|].
    intros ? Hfrom. apply Hord; [done|].
    replace (i - 1 + 1) with i by lia. apply Hord1; [done|lia|].
    split.
    + intros j Hj Hlo Hne. apply Hfrom; [done|lia].
    + intros Hpos Hlo. pose proof (par_bounds i Hpos). lia.
  - exists d. split; [done|]. split; [done|].
    intros _ Hfrom. by replace (i + 1) with 0 in Hfrom by lia.
Qed.

Lemma ordered_from_half less d : ordered_from less (Z.quot (llen d) 2) d.
Proof.
  intros j Hj Hlo. exfalso. rewrite Z.quot_div_nonneg in Hlo by (unfold llen; lia).
  unfold par in Hlo. Z.div_mod_to_equations. lia.
Qed.

Lemma buildHeap_spec less d k c g l f hf :
  exists d', OptimizedHeap.buildHeap (optimized_of less d k c g l f hf)
             = Ok (optimized_of less d' k c g l f hf) /\
             d' ≡ₚ d /\
             (StrictWeakOrder less -> ordered_from less 0 d').
Proof.
  unfold OptimizedHeap.buildHeap. cbn [OptimizedHeap.deref OptimizedHeap.h optimized_of].
  cbn [mbind result_bind].
  change (slice.len (Heap.data (heap_of less d k))) with (llen d).
  assert (0 <= Z.quot (llen d) 2).
  { rewrite Z.quot_div_nonneg by (unfold llen; lia). apply Z.div_pos; unfold llen; lia. }
  destruct (buildHeap_loop_spec less k (S (Z.to_nat (Z.quot (llen d) 2)))
              (Z.quot (llen d) 2 - 1) d) as (d' & Hrun & Hperm & Hord); [lia..|].
  exists d'. rewrite Hrun. split; [done|]. split; [done|].
  intros ?. apply Hord; [done|].
  replace (Z.quot (llen d) 2 - 1 + 1) with (Z.quot (llen d) 2) by lia.
  apply ordered_from_half.
Qed.

Lemma OptimizedHeap_Insert_rejected less d c l f hf v :
  OptimizedHeap.Insert v (optimized_of less d 0 c false l f hf)
  = Ok (optimized_of less d 0 c false l f hf, Some ErrCapacityReached).
Proof.
  unfold OptimizedHeap.Insert.
  cbn [OptimizedHeap.deref OptimizedHeap.h optimized_of mbind result_bind
       OptimizedHeap.canGrow negb andb].
  unfold slice.cap. cbn [slice.spare Heap.data heap_of].
  match goal with |- context [?a >=? ?b] => destruct (Z.geb_spec a b) end; [done|lia].
Qed.

Lemma OptimizedHeap_Insert_guard less d k g :
  g = true \/ k <> 0%nat ->
  negb g && (slice.len (Heap.data (heap_of less d k))
             >=? slice.cap (Heap.data (heap_of less d k))) = false.
Proof.
  intros Hg. unfold slice.cap. cbn [slice.spare Heap.data heap_of].
  destruct g; [done|]. cbn [negb andb].
  match goal with |- context [?a >=? ?b] => destruct (Z.geb_spec a b) end; [|done].
  destruct Hg; [done|lia].
Qed.

Lemma OptimizedHeap_Insert_lazy less d k c g f hf v :
  g = true \/ k <> 0%nat ->
  OptimizedHeap.Insert v (optimized_of less d k c g true f hf)
  = Ok (optimized_of less (d ++ [v]) (spare_after_append d k) c g true f false, None).
Proof.
  intros Hg. unfold OptimizedHeap.Insert.
  cbn [OptimizedHeap.deref OptimizedHeap.h optimized_of mbind result_bind
       OptimizedHeap.canGrow OptimizedHeap.useLazy].
  rewrite OptimizedHeap_Insert_guard by done.
  unfold OptimizedHeap.insertOnly.
  cbn [OptimizedHeap.deref OptimizedHeap.h optimized_of mbind result_bind
       Heap.data heap_of].
  rewrite append_eq. done.
Qed.

(** The spare cells of the slice that eager [Insert] hands to
    [Heap.Insert]: those of a reallocation when the slice is full. *)
Definition eager_spare f d k : nat :=
  match k with
  | O => let newCap := f (llen d) in
         let newCap := if newCap <=? llen d then llen d + 1 else newCap in
         Z.to_nat (newCap - llen d)
  | S _ => k
  end.

Lemma eager_spare_pos f d k : eager_spare f d k <> 0%nat.
Proof.
  unfold eager_spare. destruct k; [|done].
  destruct (Z.leb_spec (f (llen d)) (llen d)); lia.
Qed.

Lemma copy_make d (n : nat) :
  slice.copy (slice.mk (replicate (length d) zero) n) (slice.mk d 0) = slice.mk d n.
Proof.
  unfold slice.copy. cbn [slice.elems slice.spare].
  rewrite length_replicate, Nat.min_id, firstn_all.
  rewrite drop_ge by (by rewrite length_replicate). by rewrite app_nil_r.
Qed.

(** [make] serves the capacity the next [Insert] asks for, and the capacity
    every [Insert] of a run that stays below [n] values asks for. *)
Definition servable_now f d k g l : Prop :=
  l = false -> g = true -> k = 0%nat -> grown_capacity f (llen d) <= makeslice_limit.

Definition servable_run f g l (n : Z) : Prop :=
  l = false -> g = true -> forall c, 0 <= c < n -> grown_capacity f c <= makeslice_limit.

Lemma servable_run_now f d k g l n :
  servable_run f g l n -> llen d < n -> servable_now f d k g l.
Proof. intros Hs Hn Hl Hg _. apply (Hs Hl Hg). unfold llen in *. lia. Qed.

Lemma servable_now_lazy f d k g : servable_now f d k g true.
Proof. by intros ?. Qed.

Lemma servable_now_fixed f d k l : servable_now f d k false l.
Proof. by intros ??. Qed.

Lemma servable_run_lazy f g n : servable_run f g true n.
Proof. by intros ?. Qed.

Lemma servable_run_fixed f l n : servable_run f false l n.
Proof. by intros ??. Qed.

Lemma grown_capacity_gt f c : c < grown_capacity f c.
Proof. unfold grown_capacity. destruct (Z.leb_spec (f c) c); lia. Qed.

Lemma OptimizedHeap_Insert_eager less d k c g f hf v :
  g = true \/ k <> 0%nat ->
  (k = 0%nat -> grown_capacity f (llen d) <= makeslice_limit) ->
  OptimizedHeap.Insert v (optimized_of less d k c g false f hf)
  = (r ← Heap.Insert v (heap_of less d (eager_spare f d k));
     Ok (OptimizedHeap.mk (Some r.1) c g false f hf, r.2)).
Proof.
  intros Hg Hserve. unfold OptimizedHeap.Insert.
  cbn [OptimizedHeap.deref OptimizedHeap.h optimized_of mbind result_bind
       OptimizedHeap.canGrow OptimizedHeap.useLazy OptimizedHeap.growthFunc].
  rewrite OptimizedHeap_Insert_guard by done.
  unfold slice.cap. cbn [slice.spare Heap.data heap_of].
  change (slice.len {| slice.elems := d; slice.spare := k |}) with (llen d).
  destruct k as [|k].
  - rewrite Z.add_0_r, Z.eqb_refl. unfold slice.make.
    fold (grown_capacity f (llen d)).
    specialize (Hserve eq_refl). pose proof (grown_capacity_gt f (llen d)).
    destruct (Z.leb_spec 0 (llen d)); [|unfold llen in *; lia].
    destruct (Z.leb_spec (llen d) (grown_capacity f (llen d))); [|lia].
    destruct (Z.leb_spec (grown_capacity f (llen d)) makeslice_limit); [|lia].
    cbn [andb mbind result_bind]. unfold Heap.set_data. cbn [Heap.data Heap.less].
    unfold llen at 1. rewrite Nat2Z.id, copy_make.
    unfold eager_spare. fold (grown_capacity f (llen d)). done.
  - destruct (Z.eqb_spec (llen d) (llen d + Z.of_nat (S k))); [lia|]. done.
Qed.

Lemma OptimizedHeap_Insert_eager_panic less d c f hf v :
  makeslice_limit < grown_capacity f (llen d) ->
  OptimizedHeap.Insert v (optimized_of less d 0 c true false f hf) = Panic.
Proof.
  intros Hserve. unfold OptimizedHeap.Insert.
  cbn [OptimizedHeap.deref OptimizedHeap.h optimized_of mbind result_bind
       OptimizedHeap.canGrow OptimizedHeap.useLazy OptimizedHeap.growthFunc negb andb].
  unfold slice.cap. cbn [slice.spare Heap.data heap_of].
  change (slice.len {| slice.elems := d; slice.spare := 0 |}) with (llen d).
  rewrite Z.add_0_r, Z.eqb_refl. unfold slice.make.
  fold (grown_capacity f (llen d)).
  destruct (Z.leb_spec (grown_capacity f (llen d)) makeslice_limit); [lia|].
  by rewrite andb_false_r.
Qed.

Lemma OptimizedHeap_Extract_direct less d k c g l f hf :
  l = false \/ hf = true \/ d = [] ->
  OptimizedHeap.Extract (optimized_of less d k c g l f hf)
  = (r ← Heap.Extract (heap_of less d k);
     Ok (OptimizedHeap.mk (Some r.1) c g l f hf, r.2)).
Proof.
  intros Hcase. unfold OptimizedHeap.Extract, OptimizedHeap.shouldBuildHeap.
  cbn [OptimizedHeap.deref OptimizedHeap.h optimized_of mbind result_bind
       OptimizedHeap.useLazy OptimizedHeap.heapified].
  destruct l; [|done]. destruct hf; [done|].
  destruct Hcase as [?|[?| ->]]; done.
Qed.

Lemma OptimizedHeap_Extract_build less d k c g f :
  d <> [] ->
  exists d1, OptimizedHeap.buildHeap (optimized_of less d k c g true f false)
             = Ok (optimized_of less d1 k c g true f false) /\
             d1 ≡ₚ d /\
             (StrictWeakOrder less -> ordered_from less 0 d1) /\
             OptimizedHeap.Extract (optimized_of less d k c g true f false)
             = (r ← Heap.Extract (heap_of less d1 k);
                Ok (OptimizedHeap.mk (Some r.1) c g true f true, r.2)).
Proof.
  intros Hd. destruct (buildHeap_spec less d k c g true f false) as (d1 & Hb & Hperm & Hord).
  exists d1. split; [done|]. split; [done|]. split; [done|].
  assert (0 < llen d) by (destruct d; [done|unfold llen; cbn; lia]).
  unfold OptimizedHeap.Extract, OptimizedHeap.shouldBuildHeap.
  rewrite Hb.
  change (OptimizedHeap.deref (optimized_of less d k c g true f false))
    with (Ok (heap_of less d k)).
  cbn [OptimizedHeap.useLazy OptimizedHeap.heapified optimized_of negb
       mbind result_bind].
  change (slice.len (Heap.data (heap_of less d k))) with (llen d).
  destruct (Z.gtb_spec (llen d) 0); [|lia]. done.
Qed.
End optimized_calls.

(** * The specification's properties *)

(** The heap property, read off the backing array as the code reads it:
    for every index that is not the root, the comparator does not rank the
    cell before its parent. *)
Definition heap_property {T : Type} (h : Heap.t T) : Prop :=
  forall i, 0 < i < slice.len (Heap.data h) ->
    exists x y, slice.index (Heap.data h) i = Ok x /\
                slice.index (Heap.data h) (Heap.parentIndex i) = Ok y /\
                Heap.less h x y = false.

(** The configuration [NewOptimizedHeap] validates: the defaults with the
    options applied in order. *)
Definition configured {T : Type} (opts : list (OptimizedHeap.Opt T)) : OptimizedHeap.t T :=
  fold_left (fun oh o => o oh) opts OptimizedHeap.defaultOptimizedHeap.

(** Eager [Insert] on a heap that may grow and is full asks [make] for the
    grown capacity.  [growth_served] says that [make] serves what the next
    [Insert] on this heap would ask for; [growth_servable] says so for every
    capacity below [n], which covers the calls of a run that never holds [n]
    values.  Neither asks anything of a lazy heap or of one that cannot grow,
    which never call [make] after construction. *)
Definition growth_served {T : Type} {rt : Runtime}
    (oh : OptimizedHeap.t T) (hp : Heap.t T) : Prop :=
  OptimizedHeap.useLazy oh = false -> OptimizedHeap.canGrow oh = true ->
  slice.len (Heap.data hp) = slice.cap (Heap.data hp) ->
  grown_capacity (OptimizedHeap.growthFunc oh) (slice.cap (Heap.data hp)) <= makeslice_limit.

Definition growth_servable {T : Type} {rt : Runtime} (oh : OptimizedHeap.t T) (n : Z) : Prop :=
  OptimizedHeap.useLazy oh = false -> OptimizedHeap.canGrow oh = true ->
  forall c, 0 <= c < n ->
    grown_capacity (OptimizedHeap.growthFunc oh) c <= makeslice_limit.


Section property_lemmas.
Context {T : Type} {zt : Zero T} {rt : Runtime}.
Implicit Types (d : list T) (less : T -> T -> bool) (k : nat).

(** A growth function that stays below a capacity [make] serves is
    servable. *)
Lemma growth_servable_bounded (oh : OptimizedHeap.t T) (n b : Z) :
  (forall c, 0 <= c < n -> OptimizedHeap.growthFunc oh c <= b) ->
  n <= b -> b <= makeslice_limit -> growth_servable oh n.
Proof.
  intros Hf Hn Hb _ _ c Hc. specialize (Hf c Hc). unfold grown_capacity.
  destruct (Z.leb_spec (OptimizedHeap.growthFunc oh c) c); lia.
Qed.

Lemma heap_property_ordered less d k :
  heap_property (heap_of less d k) <-> ordered_from less 0 d.
Proof.
  unfold heap_property. cbn [Heap.data heap_of Heap.less].
  change (slice.len {| slice.elems := d; slice.spare := k |}) with (llen d).
  split.
  - intros Hp j Hj _. destruct (Hp j Hj) as (x & y & Hx & Hy & Hxy).
    apply index_Ok_inv in Hx as [_ ->]. rewrite parentIndex_pos in Hy by lia.
    by apply index_Ok_inv in Hy as [_ ->].
  - intros Hord i Hi. pose proof (par_bounds i ltac:(lia)).
    exists (get d i), (get d (par i)). rewrite parentIndex_pos by lia.
    rewrite !index_ok by (change (slice.len _) with (llen d); lia).
    split; [done|]. split; [done|]. apply Hord; lia.
Qed.

Lemma Heap_Insert_ok (h : Heap.t T) v :
  exists h', Heap.Insert v h = Ok (h', None) /\
             Heap.less h' = Heap.less h /\
             slice.elems (Heap.data h') ≡ₚ v :: slice.elems (Heap.data h) /\
             slice.spare (Heap.data h')
             = spare_after_append (slice.elems (Heap.data h)) (slice.spare (Heap.data h)) /\
             (StrictWeakOrder (Heap.less h) -> heap_property h -> heap_property h').
Proof.
  destruct h as [[d k] less]. change (Heap.mk (slice.mk d k) less) with (heap_of less d k).
  cbn [Heap.less Heap.data heap_of slice.elems slice.spare].
  destruct (Heap_Insert_spec less d k v) as (d' & Hrun & Hperm & Hord).
  eexists. split; [exact Hrun|]. split; [done|]. split; [done|]. split; [done|].
  intros ? Hp. apply heap_property_ordered, Hord; [done|].
  by apply (heap_property_ordered _ _ k).
Qed.

Lemma Heap_Extract_ok (h : Heap.t T) :
  exists h' r, Heap.Extract h = Ok (h', r) /\
               Heap.less h' = Heap.less h /\
               slice.cap (Heap.data h') = slice.cap (Heap.data h) /\
               (slice.elems (Heap.data h) = [] -> h' = h /\ r = (zero, false)) /\
               (slice.elems (Heap.data h) <> [] ->
                r = (get (slice.elems (Heap.data h)) 0, true) /\
                r.1 :: slice.elems (Heap.data h') ≡ₚ slice.elems (Heap.data h)) /\
               (StrictWeakOrder (Heap.less h) -> heap_property h -> heap_property h').
Proof.
  destruct h as [[d k] less]. change (Heap.mk (slice.mk d k) less) with (heap_of less d k).
  cbn [Heap.less Heap.data heap_of slice.elems slice.spare].
  destruct d as [|x tl].
  - exists (heap_of less [] k), (zero, false). rewrite Heap_Extract_empty.
    split; [done|]. split; [done|]. split; [done|]. split; [done|]. split; [done|]. done.
  - destruct (Heap_Extract_spec less (x :: tl) k) as (d' & Hrun & Hperm & Hord); [done|].
    eexists _, _. split; [exact Hrun|]. split; [done|]. split.
    { unfold slice.cap, slice.len. cbn [Heap.data heap_of slice.elems slice.spare].
      apply Permutation_length in Hperm. cbn [length] in *. lia. }
    split; [done|]. split; [done|].
    intros ? Hp. apply heap_property_ordered, Hord; [done|].
    by apply (heap_property_ordered _ _ k).
Qed.
End property_lemmas.

(** ** Extraction from an empty structure *)

(** C8: [Extract] on an empty [Heap] returns the zero value with
    [found = false] and the heap as it was; [Extract] on an empty
    [OptimizedHeap] returns the same pair and the optimized heap as it was.
    Both return normally: the result is [Ok], not a panic. *)
Theorem extract_empty_unchanged {T : Type} {zt : Zero T} :
  (forall h : Heap.t T,
     slice.len (Heap.data h) = 0 -> Heap.Extract h = Ok (h, (zero, false))) /\
  (forall (oh : OptimizedHeap.t T) (hp : Heap.t T),
     OptimizedHeap.h oh = Some hp -> slice.len (Heap.data hp) = 0 ->
     OptimizedHeap.Extract oh = Ok (oh, (zero, false))).
Proof.
  split.
  - intros h Hlen. unfold Heap.Extract. by rewrite Hlen.
  - intros oh hp Hh Hlen. rewrite (optimized_of_eta oh hp Hh).
    assert (Hd : slice.elems (Heap.data hp) = []).
    { unfold slice.len in Hlen. destruct (slice.elems (Heap.data hp)); [done|].
      cbn in Hlen. lia. }
    rewrite Hd, OptimizedHeap_Extract_direct by auto.
    by rewrite Heap_Extract_empty.
Qed.

Lemma extract_empty_unchanged_witness :
  Heap.Extract (Heap.New Z.ltb) = Ok (Heap.New Z.ltb, (0, false)) /\
  OptimizedHeap.Extract (optimized_of Z.ltb [] 16 16 true true (fun c => c * 2) false)
  = Ok (optimized_of Z.ltb [] 16 16 true true (fun c => c * 2) false, (0, false)).
Proof.
  split.
  - by apply (proj1 extract_empty_unchanged).
  - by eapply (proj2 extract_empty_unchanged).
Defined.

(** ** Construction *)

(** C7: with the options applied to the defaults, a requested capacity
    below zero makes [NewOptimizedHeap] return no heap and
    [ErrNegativeCap]; a capacity of zero, no heap and [ErrZeroCap]; a
    capacity of at least one that [make] serves, a heap and no error, whose
    backing slice is empty with exactly the requested capacity, whose
    comparator is the one given and whose policy fields are the configured
    ones; a capacity beyond what [make] serves passes the validation and
    panics in [make], returning neither a heap nor an error. *)
Theorem construction_validation {T : Type} {zt : Zero T} {rt : Runtime}
    (less : T -> T -> bool) (opts : list (OptimizedHeap.Opt T)) :
  let c := OptimizedHeap.cap (configured opts) in
  (c < 0 -> OptimizedHeap.NewOptimizedHeap less opts = Ok (None, Some ErrNegativeCap)) /\
  (c = 0 -> OptimizedHeap.NewOptimizedHeap less opts = Ok (None, Some ErrZeroCap)) /\
  (1 <= c <= makeslice_limit ->
   exists hp,
     OptimizedHeap.NewOptimizedHeap less opts
     = Ok (Some (OptimizedHeap.set_h (configured opts) hp), None) /\
     Heap.less hp = less /\
     slice.elems (Heap.data hp) = [] /\
     slice.cap (Heap.data hp) = c) /\
  (1 <= c -> makeslice_limit < c -> OptimizedHeap.NewOptimizedHeap less opts = Panic).
Proof.
  intros c. unfold OptimizedHeap.NewOptimizedHeap, OptimizedHeap.validateOptions.
  fold (configured opts). fold c.
  split; [|split; [|split]].
  - intros Hc. destruct (Z.ltb_spec c 0); [done|lia].
  - intros Hc. destruct (Z.ltb_spec c 0); [lia|]. destruct (Z.eqb_spec c 0); [done|lia].
  - intros Hc. destruct (Z.ltb_spec c 0); [lia|]. destruct (Z.eqb_spec c 0); [lia|].
    unfold slice.make. destruct (Z.leb_spec 0 c); [|lia].
    destruct (Z.leb_spec c makeslice_limit); [|lia].
    cbn [andb Z.leb mbind result_bind].
    eexists. split; [done|]. split; [done|]. split; [done|].
    unfold slice.cap, slice.len. cbn [Heap.data slice.elems slice.spare].
    change (length (replicate (Z.to_nat 0) zero)) with 0%nat. lia.
  - intros Hc Hlim. destruct (Z.ltb_spec c 0); [lia|]. destruct (Z.eqb_spec c 0); [lia|].
    unfold slice.make. destruct (Z.leb_spec c makeslice_limit); [lia|].
    by rewrite andb_false_r.
Qed.

Lemma construction_validation_witness :
  OptimizedHeap.NewOptimizedHeap (rt := doubling_runtime) Z.ltb
    [OptimizedHeap.WithCapacity (-1) true]
  = Ok (None, Some ErrNegativeCap) /\
  OptimizedHeap.NewOptimizedHeap (rt := doubling_runtime) Z.ltb
    [OptimizedHeap.WithCapacity 0 true]
  = Ok (None, Some ErrZeroCap) /\
  (exists hp,
    OptimizedHeap.NewOptimizedHeap (rt := doubling_runtime) Z.ltb
      [OptimizedHeap.WithCapacity 1 false]
    = Ok (Some (OptimizedHeap.set_h (configured [OptimizedHeap.WithCapacity 1 false]) hp),
          None) /\
    Heap.less hp = Z.ltb /\
    slice.elems (Heap.data hp) = [] /\
    slice.cap (Heap.data hp) = 1) /\
  OptimizedHeap.NewOptimizedHeap (rt := doubling_runtime) Z.ltb
    [OptimizedHeap.WithCapacity (2 ^ 45 + 1) true]
  = Panic.
Proof.
  split; [|split; [|split]].
  - by apply (proj1 (construction_validation (rt := doubling_runtime) Z.ltb
                       [OptimizedHeap.WithCapacity (-1) true])).
  - by apply (proj1 (proj2 (construction_validation (rt := doubling_runtime) Z.ltb
                              [OptimizedHeap.WithCapacity 0 true]))).
  - by apply (proj1 (proj2 (proj2 (construction_validation (rt := doubling_runtime) Z.ltb
                                     [OptimizedHeap.WithCapacity 1 false])))).
  - by apply (proj2 (proj2 (proj2 (construction_validation (rt := doubling_runtime) Z.ltb
                                     [OptimizedHeap.WithCapacity (2 ^ 45 + 1) true])))).
Defined.

(** The claim as the specification words it, success for every capacity of
    at least one, fails on a 64-bit Go with cells of eight bytes: the
    capacity [2^62] passes the validation, and [make] panics on it. *)
Lemma construction_validation_counterexample :
  1 <= OptimizedHeap.cap (configured (T := Z) [OptimizedHeap.WithCapacity (2 ^ 62) true]) /\
  OptimizedHeap.NewOptimizedHeap (rt := doubling_runtime) Z.ltb
    [OptimizedHeap.WithCapacity (2 ^ 62) true]
  = Panic /\
  ~ exists oh,
      OptimizedHeap.NewOptimizedHeap (rt := doubling_runtime) Z.ltb
        [OptimizedHeap.WithCapacity (2 ^ 62) true]
      = Ok (Some oh, None).
Proof.
  split; [done|]. split; [done|]. by intros [oh Hoh].
Defined.

(** ** Calls return *)

Section calls_return.
Context {T : Type} {zt : Zero T} {rt : Runtime}.
Implicit Types (d : list T) (less : T -> T -> bool) (k : nat).

Lemma heapifyUp_ok (h : Heap.t T) i :
  0 <= i < slice.len (Heap.data h) -> exists h', Heap.heapifyUp i h = Ok h'.
Proof.
  destruct h as [[d k] less]. intros Hi.
  destruct (heapifyUp_spec less k i d Hi) as (d' & Hrun & _). eauto.
Qed.

Lemma heapifyDown_ok (h : Heap.t T) i :
  0 <= i -> exists h', Heap.heapifyDown i h = Ok h'.
Proof.
  destruct h as [[d k] less]. intros Hi.
  destruct (heapifyDown_spec less k i d Hi) as (d' & Hrun & _). eauto.
Qed.

Lemma buildHeap_ok (oh : OptimizedHeap.t T) hp :
  OptimizedHeap.h oh = Some hp -> exists oh', OptimizedHeap.buildHeap oh = Ok oh'.
Proof.
  intros Hh. rewrite (optimized_of_eta oh hp Hh).
  edestruct buildHeap_spec as (d' & Hrun & _). eauto.
Qed.

Lemma growth_served_now (oh : OptimizedHeap.t T) d k less :
  growth_served oh (heap_of less d k) <->
  servable_now (OptimizedHeap.growthFunc oh) d k
    (OptimizedHeap.canGrow oh) (OptimizedHeap.useLazy oh).
Proof.
  unfold growth_served, servable_now, slice.cap, slice.len.
  cbn [Heap.data heap_of slice.elems slice.spare]. fold (llen d).
  split.
  - intros Hs Hl Hg ->. specialize (Hs Hl Hg). rewrite Z.add_0_r in Hs. by apply Hs.
  - intros Hs Hl Hg Hfull. assert (k = 0%nat) as -> by lia.
    rewrite Z.add_0_r. by apply Hs.
Qed.

Lemma OptimizedHeap_Insert_ok (oh : OptimizedHeap.t T) hp v :
  OptimizedHeap.h oh = Some hp -> growth_served oh hp ->
  exists r, OptimizedHeap.Insert v oh = Ok r.
Proof.
  intros Hh Hs. rewrite (optimized_of_eta oh hp Hh).
  destruct hp as [[d k] less]. apply (growth_served_now oh d k less) in Hs.
  cbn [Heap.less Heap.data slice.elems slice.spare].
  destruct (OptimizedHeap.canGrow oh) eqn:Hg, (OptimizedHeap.useLazy oh) eqn:Hl, k as [|k].
  all: try (rewrite OptimizedHeap_Insert_lazy by auto; eauto).
  all: try (rewrite OptimizedHeap_Insert_rejected; eauto).
  all: rewrite OptimizedHeap_Insert_eager; [|by auto|intros Hk; try done; by apply Hs].
  all: edestruct Heap_Insert_spec as (d' & -> & _); eauto.
Qed.

Lemma OptimizedHeap_Extract_ok (oh : OptimizedHeap.t T) hp :
  OptimizedHeap.h oh = Some hp -> exists r, OptimizedHeap.Extract oh = Ok r.
Proof.
  intros Hh. rewrite (optimized_of_eta oh hp Hh).
  destruct hp as [[d k] less].
  cbn [Heap.less Heap.data slice.elems slice.spare].
  destruct d as [|x tl].
  { rewrite OptimizedHeap_Extract_direct by auto. rewrite Heap_Extract_empty. eauto. }
  destruct (OptimizedHeap.useLazy oh) eqn:Hl, (OptimizedHeap.heapified oh) eqn:Hf.
  all: try (rewrite OptimizedHeap_Extract_direct by auto;
            edestruct (Heap_Extract_spec less (x :: tl)) as (d' & -> & _); [done|]; eauto).
  edestruct (OptimizedHeap_Extract_build less (x :: tl)) as (d1 & _ & Hperm & _ & ->); [done|].
  edestruct (Heap_Extract_spec less d1) as (d' & -> & _); [|eauto].
  intros ->. by apply Permutation_nil_cons in Hperm.
Qed.
End calls_return.

(** C10: no index expression of the package is out of range, and its loops
    end.  [Insert] and [Extract] of [Heap], [Extract] of [OptimizedHeap] and
    [buildHeap] return on every heap, and so does [Insert] of
    [OptimizedHeap] whenever [make] serves the capacity it asks for;
    [heapifyUp] returns at every index of the array and [heapifyDown] at
    every index from zero on whose children are indices an [int] holds,
    inside the array or not.  Sifting down at the root of an array left
    empty changes nothing, which is what [Extract] does on a heap of one
    element. *)
Theorem accesses_in_bounds {T : Type} {zt : Zero T} {rt : Runtime} :
  (forall (h : Heap.t T) v, exists h', Heap.Insert v h = Ok (h', None)) /\
  (forall h : Heap.t T, exists r, Heap.Extract h = Ok r) /\
  (forall (h : Heap.t T) i,
     0 <= i < slice.len (Heap.data h) -> exists h', Heap.heapifyUp i h = Ok h') /\
  (forall (h : Heap.t T) i,
     0 <= i -> Heap.rightChildIndex i <= max_int ->
     exists h', Heap.heapifyDown i h = Ok h') /\
  (forall (oh : OptimizedHeap.t T) hp,
     OptimizedHeap.h oh = Some hp -> exists oh', OptimizedHeap.buildHeap oh = Ok oh') /\
  (forall (oh : OptimizedHeap.t T) hp v,
     OptimizedHeap.h oh = Some hp -> growth_served oh hp ->
     exists r, OptimizedHeap.Insert v oh = Ok r) /\
  (forall (oh : OptimizedHeap.t T) hp,
     OptimizedHeap.h oh = Some hp -> exists r, OptimizedHeap.Extract oh = Ok r) /\
  (forall (less : T -> T -> bool) k,
     Heap.heapifyDown 0 (heap_of less [] k) = Ok (heap_of less [] k)) /\
  (forall (less : T -> T -> bool) x k,
     Heap.Extract (heap_of less [x] k) = Ok (heap_of less [] (S k), (x, true))).
Proof.
  split. { intros h v. destruct (Heap_Insert_ok h v) as (h' & Hrun & _). eauto. }
  split. { intros h. destruct (Heap_Extract_ok h) as (h' & r & Hrun & _). eauto. }
  split. { apply heapifyUp_ok. }
  split. { intros h i Hi _. by apply heapifyDown_ok. }
  split. { apply buildHeap_ok. }
  split. { intros oh hp v. by apply OptimizedHeap_Insert_ok. }
  split. { apply OptimizedHeap_Extract_ok. }
  split. { reflexivity. }
  intros less x k.
  destruct (Heap_Extract_spec less [x] k) as (d' & Hrun & Hperm & _); [done|].
  apply Permutation_cons_inv, Permutation_nil_r in Hperm. by subst d'.
Qed.

Lemma accesses_in_bounds_witness :
  (exists h', Heap.heapifyUp 2 (heap_of Z.ltb [3; 5; 1] 0) = Ok h') /\
  (exists h', Heap.heapifyDown 7 (heap_of Z.ltb [3; 5; 1] 0) = Ok h') /\
  (exists r, OptimizedHeap.Insert (rt := doubling_runtime) 4
               (optimized_of Z.ltb [3; 5; 1] 0 3 true false (fun c => c * 2) false) = Ok r) /\
  (exists r, OptimizedHeap.Extract
               (optimized_of Z.ltb [3; 5; 1] 0 3 false true (fun c => c) false) = Ok r).
Proof.
  pose proof (accesses_in_bounds (T := Z) (rt := doubling_runtime))
    as (_ & _ & Hup & Hdown & _ & Hins & Hex & _).
  split; [|split; [|split]].
  - apply Hup. unfold slice.len. simpl. lia.
  - apply Hdown; [lia|done].
  - eapply Hins; [reflexivity|]. by intros _ _ _.
  - by eapply Hex.
Defined.

(** ** One call on an optimized heap, by cases *)

Section optimized_cases.
Context {T : Type} {zt : Zero T} {rt : Runtime}.
Implicit Types (d : list T) (less : T -> T -> bool) (k : nat).
Implicit Types (c : Z) (g l hf : bool) (f : Z -> Z).

Lemma spare_after_append_pred d k : k <> 0%nat -> spare_after_append d k = Nat.pred k.
Proof. by destruct k. Qed.

Lemma eager_spare_nonzero f d k : k <> 0%nat -> eager_spare f d k = k.
Proof. by destruct k. Qed.

Lemma OptimizedHeap_Insert_cases less d k c g l f hf v :
  servable_now f d k g l ->
  exists d' k' hf' e,
    OptimizedHeap.Insert v (optimized_of less d k c g l f hf)
    = Ok (optimized_of less d' k' c g l f hf', e) /\
    ((g = false /\ k = 0%nat /\ e = Some ErrCapacityReached /\
      d' = d /\ k' = k /\ hf' = hf) \/
     ((g = true \/ k <> 0%nat) /\ e = None /\ d' ≡ₚ v :: d /\
      (g = false -> k' = Nat.pred k) /\
      (l = true -> hf' = false) /\
      (l = false -> hf' = hf /\
                    (StrictWeakOrder less -> ordered_from less 0 d ->
                     ordered_from less 0 d')))).
Proof.
  intros Hs. destruct (decide (g = true \/ k <> 0%nat)) as [Hg|Hg].
  - destruct l.
    + rewrite OptimizedHeap_Insert_lazy by done.
      eexists _, _, _, _. split; [done|]. right.
      split; [done|]. split; [done|]. split; [by rewrite Permutation_app_comm|].
      split; [|done]. intros ->. apply spare_after_append_pred. by destruct Hg.
    + rewrite OptimizedHeap_Insert_eager;
        [|done|intros Hk; destruct Hg as [Hg|Hg]; [by apply Hs|done]].
      destruct (Heap_Insert_spec less d (eager_spare f d k) v) as (d' & -> & Hperm & Hord).
      eexists _, _, _, _. split; [done|]. right.
      split; [done|]. split; [done|]. split; [done|]. split; [|done].
      intros ->. destruct Hg as [|Hk]; [done|].
      rewrite eager_spare_nonzero by done. by apply spare_after_append_pred.
  - assert (g = false /\ k = 0%nat) as [-> ->].
    { destruct g; [by destruct Hg; left|]. split; [done|].
      destruct k; [done|]. destruct Hg. by right. }
    rewrite OptimizedHeap_Insert_rejected.
    eexists _, _, _, _. split; [done|]. by left.
Qed.

Lemma OptimizedHeap_Extract_cases less d k c g l f hf :
  exists d' k' hf' r,
    OptimizedHeap.Extract (optimized_of less d k c g l f hf)
    = Ok (optimized_of less d' k' c g l f hf', r) /\
    ((d = [] /\ d' = [] /\ k' = k /\ hf' = hf /\ r = (zero, false)) \/
     (d <> [] /\ k' = S k /\ hf' = (if l then true else hf) /\
      exists x, r = (x, true) /\ x :: d' ≡ₚ d /\
        (StrictWeakOrder less ->
         (l = false \/ hf = true -> ordered_from less 0 d) ->
         ordered_from less 0 d' /\ forall y, y ∈ d -> less y x = false))).
Proof.
  destruct (decide (d = [])) as [->|Hd].
  { rewrite OptimizedHeap_Extract_direct by auto. rewrite Heap_Extract_empty.
    eexists _, _, _, _. split; [done|]. by left. }
  destruct (decide (l = false \/ hf = true)) as [Hcase|Hcase].
  - rewrite OptimizedHeap_Extract_direct by tauto.
    destruct (Heap_Extract_spec less d k Hd) as (d' & -> & Hperm & Hord).
    eexists _, _, _, _. split; [done|]. right.
    split; [done|]. split; [done|]. split.
    { destruct l; [|done]. by destruct Hcase. }
    eexists. split; [done|]. split; [done|].
    intros ? Hheap. split; [by apply Hord, Hheap|].
    by apply root_first, Hheap.
  - assert (l = true /\ hf = false) as [-> ->].
    { destruct l, hf; try done; destruct Hcase; auto. }
    destruct (OptimizedHeap_Extract_build less d k c g f Hd)
      as (d1 & _ & Hperm1 & Hord1 & ->).
    assert (Hd1 : d1 <> []).
    { intros ->. apply Permutation_nil in Hperm1. done. }
    destruct (Heap_Extract_spec less d1 k Hd1) as (d' & -> & Hperm & Hord).
    eexists _, _, _, _. split; [done|]. right.
    split; [done|]. split; [done|]. split; [done|].
    eexists. split; [done|]. split; [by rewrite Hperm|].
    intros ? _. split; [by apply Hord, Hord1|].
    intros y Hy. apply root_first; [done|by apply Hord1|]. by rewrite Hperm1.
Qed.
(** One call of a run that never holds [n] values: [make] serves what the
    call asks for, and the rest of the run stays below [n]. *)
Lemma OptimizedHeap_Insert_step less d k c g l f hf v n (ops : list (op T)) :
  servable_run f g l n -> llen d + Z.of_nat (S (length ops)) <= n ->
  exists d' k' hf' e,
    OptimizedHeap.Insert v (optimized_of less d k c g l f hf)
    = Ok (optimized_of less d' k' c g l f hf', e) /\
    llen d' + Z.of_nat (length ops) <= n /\
    ((g = false /\ k = 0%nat /\ e = Some ErrCapacityReached /\
      d' = d /\ k' = k /\ hf' = hf) \/
     ((g = true \/ k <> 0%nat) /\ e = None /\ d' ≡ₚ v :: d /\
      (g = false -> k' = Nat.pred k) /\
      (l = true -> hf' = false) /\
      (l = false -> hf' = hf /\
                    (StrictWeakOrder less -> ordered_from less 0 d ->
                     ordered_from less 0 d')))).
Proof.
  intros Hs Hn.
  destruct (OptimizedHeap_Insert_cases less d k c g l f hf v)
    as (d1 & k1 & hf1 & e & Hrun & Hcase).
  { apply (servable_run_now f d k g l n Hs). lia. }
  exists d1, k1, hf1, e. split; [done|]. split; [|done].
  destruct Hcase as [(_ & _ & _ & -> & _)|(_ & _ & Hperm & _)]; [lia|].
  apply Permutation_length in Hperm. cbn [length] in Hperm. unfold llen in *. lia.
Qed.

Lemma OptimizedHeap_Extract_step less d k c g l f hf n (ops : list (op T)) :
  llen d + Z.of_nat (S (length ops)) <= n ->
  exists d' k' hf' r,
    OptimizedHeap.Extract (optimized_of less d k c g l f hf)
    = Ok (optimized_of less d' k' c g l f hf', r) /\
    llen d' + Z.of_nat (length ops) <= n /\
    ((d = [] /\ d' = [] /\ k' = k /\ hf' = hf /\ r = (zero, false)) \/
     (d <> [] /\ k' = S k /\ hf' = (if l then true else hf) /\
      exists x, r = (x, true) /\ x :: d' ≡ₚ d /\
        (StrictWeakOrder less ->
         (l = false \/ hf = true -> ordered_from less 0 d) ->
         ordered_from less 0 d' /\ forall y, y ∈ d -> less y x = false))).
Proof.
  intros Hn.
  destruct (OptimizedHeap_Extract_cases less d k c g l f hf)
    as (d1 & k1 & hf1 & r & Hrun & Hcase).
  exists d1, k1, hf1, r. split; [done|]. split; [|done].
  destruct Hcase as [(-> & -> & _)|(_ & _ & _ & x & _ & Hperm & _)]; [lia|].
  apply Permutation_length in Hperm. cbn [length] in Hperm. unfold llen in *. lia.
Qed.
End optimized_cases.

(** ** Growth of an eager optimized heap *)

(** C5: on an eager optimized heap that may grow and whose slice is full,
    [Insert] asks [make] for a slice whose capacity is what the growth
    function returns for the current capacity when that is strictly larger,
    and the current capacity plus one otherwise; the capacity asked for is
    therefore strictly larger than the current one.  When [make] serves it,
    the cells are moved to the new slice in their order, what [Insert]
    returns is what [Heap.Insert] returns on that reallocated heap, and the
    capacity stays the new one.  When the capacity asked for is beyond what
    [make] serves (the growth function returning an [int]), [Insert] panics
    in [make] and returns nothing. *)
Theorem eager_insert_grows {T : Type} {zt : Zero T} {rt : Runtime}
    (oh : OptimizedHeap.t T) (hp : Heap.t T) (v : T) :
  OptimizedHeap.h oh = Some hp ->
  OptimizedHeap.useLazy oh = false ->
  OptimizedHeap.canGrow oh = true ->
  slice.len (Heap.data hp) = slice.cap (Heap.data hp) ->
  let c := slice.cap (Heap.data hp) in
  let newCap := grown_capacity (OptimizedHeap.growthFunc oh) c in
  let reallocated :=
    Heap.mk (slice.mk (slice.elems (Heap.data hp))
                      (Z.to_nat (newCap - slice.len (Heap.data hp))))
            (Heap.less hp) in
  c < newCap /\
  slice.cap (Heap.data reallocated) = newCap /\
  (newCap <= makeslice_limit ->
   exists hp',
     Heap.Insert v reallocated = Ok (hp', None) /\
     OptimizedHeap.Insert v oh = Ok (OptimizedHeap.set_h oh hp', None) /\
     slice.cap (Heap.data hp') = newCap /\
     slice.len (Heap.data hp') = slice.len (Heap.data hp) + 1) /\
  (makeslice_limit < newCap -> OptimizedHeap.growthFunc oh c <= max_int ->
   OptimizedHeap.Insert v oh = Panic).
Proof.
  intros Hh Hl Hg Hfull c newCap reallocated.
  rewrite (optimized_of_eta oh hp Hh), Hl, Hg.
  destruct hp as [[d k] less]. subst c newCap reallocated.
  unfold slice.cap, slice.len in *. cbn [Heap.data Heap.less slice.elems slice.spare] in *.
  assert (k = 0%nat) as -> by lia. fold (llen d). rewrite Z.add_0_r.
  set (f := OptimizedHeap.growthFunc oh).
  pose proof (grown_capacity_gt f (llen d)) as Hgrow.
  split; [done|]. split; [lia|]. split.
  - intros Hserve. rewrite OptimizedHeap_Insert_eager by auto.
    change (eager_spare f d 0) with (Z.to_nat (grown_capacity f (llen d) - llen d)).
    destruct (Heap_Insert_spec less d (Z.to_nat (grown_capacity f (llen d) - llen d)) v)
      as (d' & Hrun & Hperm & _).
    change (Heap.mk (slice.mk d ?n) less) with (heap_of less d n).
    rewrite Hrun. eexists. split; [done|]. split; [done|].
    cbn [Heap.data heap_of slice.elems slice.spare].
    apply Permutation_length in Hperm. cbn [length] in Hperm.
    rewrite spare_after_append_pred by lia. unfold llen in *. lia.
  - intros Hserve _. change (Heap.mk (slice.mk d 0) less) with (heap_of less d 0).
    by apply OptimizedHeap_Insert_eager_panic.
Qed.

Lemma eager_insert_grows_witness :
  let oh := optimized_of Z.ltb [10; 20] 0 2 true false (fun c => c * 2) false in
  let oh' := optimized_of Z.ltb [10; 20] 0 2 true false (fun c => c + 2 ^ 50) false in
  (exists hp',
     OptimizedHeap.Insert (rt := doubling_runtime) 30 oh
     = Ok (OptimizedHeap.set_h oh hp', None) /\
     slice.cap (Heap.data hp') = 4 /\
     slice.len (Heap.data hp') = 3) /\
  OptimizedHeap.Insert (rt := doubling_runtime) 30 oh' = Panic.
Proof.
  intros oh oh'. split.
  - destruct (eager_insert_grows (rt := doubling_runtime) oh (heap_of Z.ltb [10; 20] 0) 30)
      as (_ & _ & Hok & _); [reflexivity..|].
    destruct Hok as (hp' & _ & Hrun & Hcap & Hlen); [done|].
    exists hp'. split; [exact Hrun|]. split; [exact Hcap|exact Hlen].
  - destruct (eager_insert_grows (rt := doubling_runtime) oh' (heap_of Z.ltb [10; 20] 0) 30)
      as (_ & _ & _ & Hpanic); [reflexivity..|].
    apply Hpanic; done.
Defined.

(** The claim as the specification words it, a reallocation to whatever the
    growth function returns, fails on a 64-bit Go with cells of eight bytes:
    a heap of capacity one whose growth function returns [2^62] accepts one
    value, and the next [Insert] panics in [make]. *)
Lemma eager_insert_grows_counterexample :
  let opts := [OptimizedHeap.WithCapacity 1 true;
               OptimizedHeap.WithGrowthFunction (fun _ => 2 ^ 62)] in
  exists oh0 oh1,
    OptimizedHeap.NewOptimizedHeap (rt := doubling_runtime) Z.ltb opts = Ok (Some oh0, None) /\
    OptimizedHeap.useLazy oh0 = false /\
    OptimizedHeap.canGrow oh0 = true /\
    OptimizedHeap.Insert (rt := doubling_runtime) 10 oh0 = Ok (oh1, None) /\
    OptimizedHeap.Insert (rt := doubling_runtime) 30 oh1 = Panic.
Proof.
  intros opts. eexists _, _. split; [reflexivity|]. split; [reflexivity|].
  split; [reflexivity|]. split; reflexivity.
Defined.

(** ** Fixed capacity *)

Section fixed_capacity.
Context {T : Type} {zt : Zero T} {rt : Runtime}.
Implicit Types (d : list T) (less : T -> T -> bool) (k : nat).

Lemma run_cons {S : Type} (call : op T -> S -> result (S * ret T)) o ops s :
  run call (o :: ops) s
  = (r ← call o s; r' ← run call ops r.1; Ok (r'.1, r.2 :: r'.2)).
Proof. done. Qed.

Lemma run_app {S : Type} (call : op T -> S -> result (S * ret T)) ops1 ops2 s :
  run call (ops1 ++ ops2) s
  = (r1 ← run call ops1 s; r2 ← run call ops2 r1.1; Ok (r2.1, r1.2 ++ r2.2)).
Proof.
  revert s. induction ops1 as [|o ops1 IH]; intros s.
  - cbn. by destruct (run call ops2 s) as [[??]| |].
  - cbn [app]. rewrite !run_cons. destruct (call o s) as [[s1 r]| |]; [|done..].
    cbn. rewrite IH. destruct (run call ops1 s1) as [[s2 tr]| |]; [|done..].
    cbn. by destruct (run call ops2 s2) as [[??]| |].
Qed.

Lemma construction_validation_cases less (opts : list (OptimizedHeap.Opt T)) :
  match OptimizedHeap.NewOptimizedHeap less opts with
  | Ok (Some oh, None) =>
      1 <= OptimizedHeap.cap (configured opts) <= makeslice_limit /\
      oh = OptimizedHeap.set_h (configured opts)
             (heap_of less [] (Z.to_nat (OptimizedHeap.cap (configured opts))))
  | Ok (None, Some _) => OptimizedHeap.cap (configured opts) <= 0
  | Panic =>
      1 <= OptimizedHeap.cap (configured opts) /\
      makeslice_limit < OptimizedHeap.cap (configured opts)
  | _ => False
  end.
Proof.
  unfold OptimizedHeap.NewOptimizedHeap, OptimizedHeap.validateOptions.
  fold (configured opts). set (c := OptimizedHeap.cap (configured opts)).
  destruct (Z.ltb_spec c 0); [lia|]. destruct (Z.eqb_spec c 0); [lia|].
  unfold slice.make. destruct (Z.leb_spec 0 c); [|lia].
  destruct (Z.leb_spec c makeslice_limit); cbn [andb Z.leb mbind result_bind].
  - split; [lia|]. unfold heap_of. do 4 f_equal. lia.
  - change ((0 <=? 0) && true && false) with false. cbn [mbind result_bind]. lia.
Qed.

Lemma NewOptimizedHeap_served less (opts : list (OptimizedHeap.Opt T)) :
  1 <= OptimizedHeap.cap (configured opts) <= makeslice_limit ->
  OptimizedHeap.NewOptimizedHeap less opts
  = Ok (Some (OptimizedHeap.set_h (configured opts)
                (heap_of less [] (Z.to_nat (OptimizedHeap.cap (configured opts))))),
        None).
Proof.
  intros Hc. pose proof (construction_validation_cases less opts) as Hcv.
  destruct (OptimizedHeap.NewOptimizedHeap less opts) as [[[oh|] [e|]]| |];
    try done; try lia.
  by destruct Hcv as (_ & ->).
Qed.

(** The calls on a heap that cannot grow keep the capacity of its slice. *)
Lemma fixed_capacity_run less (ops : list (op T)) : forall d k c l f hf,
  exists d' k' hf' tr,
    run OptimizedHeap_call ops (optimized_of less d k c false l f hf)
    = Ok (optimized_of less d' k' c false l f hf', tr) /\
    llen d' + Z.of_nat k' = llen d + Z.of_nat k.
Proof.
  induction ops as [|o ops IH]; intros d k c l f hf.
  { eexists _, _, _, _. split; [done|lia]. }
  rewrite run_cons. destruct o as [v|]; cbn [OptimizedHeap_call].
  - destruct (OptimizedHeap_Insert_cases less d k c false l f hf v)
      as (d1 & k1 & hf1 & e & -> & Hcase); [apply servable_now_fixed|].
    cbn [mbind result_bind fst snd].
    destruct (IH d1 k1 c l f hf1) as (d' & k' & hf' & tr & -> & Hcap).
    eexists _, _, _, _. split; [done|]. rewrite Hcap.
    destruct Hcase as [(_ & _ & _ & -> & -> & _)|([|Hk] & _ & Hperm & Hk1 & _)];
      [done|done|].
    apply Permutation_length in Hperm. cbn [length] in Hperm.
    rewrite Hk1 by done. unfold llen. lia.
  - destruct (OptimizedHeap_Extract_cases less d k c false l f hf)
      as (d1 & k1 & hf1 & r & -> & Hcase).
    cbn [mbind result_bind fst snd].
    destruct (IH d1 k1 c l f hf1) as (d' & k' & hf' & tr & -> & Hcap).
    eexists _, _, _, _. split; [done|]. rewrite Hcap.
    destruct Hcase as [(-> & -> & -> & _)|(_ & -> & _ & x & _ & Hperm & _)]; [done|].
    apply Permutation_length in Hperm. cbn [length] in Hperm. unfold llen. lia.
Qed.

(** While cells are free, a heap that cannot grow accepts a value and uses
    one of them. *)
Lemma fixed_capacity_Insert less d k c l f hf v :
  exists d' hf',
    OptimizedHeap.Insert v (optimized_of less d (S k) c false l f hf)
    = Ok (optimized_of less d' k c false l f hf', None) /\
    d' ≡ₚ v :: d.
Proof.
  destruct (OptimizedHeap_Insert_cases less d (S k) c false l f hf v)
    as (d1 & k1 & hf1 & e & -> & Hcase); [apply servable_now_fixed|].
  destruct Hcase as [(_ & ? & _)|(_ & -> & Hperm & Hk1 & _)]; [done|].
  rewrite Hk1 by done. by eexists _, _.
Qed.

(** As many values as there are free cells are all accepted. *)
Lemma fixed_capacity_inserts less (vals : list T) : forall d k c l f hf,
  exists d' hf',
    run OptimizedHeap_call (map OpInsert vals)
      (optimized_of less d (length vals + k) c false l f hf)
    = Ok (optimized_of less d' k c false l f hf', map (fun _ => RetInsert None) vals) /\
    d' ≡ₚ vals ++ d.
Proof.
  induction vals as [|v vals IH]; intros d k c l f hf.
  { by eexists _, _. }
  cbn [map length Nat.add]. rewrite run_cons. cbn [OptimizedHeap_call].
  destruct (fixed_capacity_Insert less d (length vals + k) c l f hf v)
    as (d1 & hf1 & -> & Hperm1).
  cbn [mbind result_bind fst snd].
  destruct (IH d1 k c l f hf1) as (d' & hf' & -> & Hperm).
  eexists _, _. split; [done|].
  rewrite Hperm, Hperm1. cbn [app]. by rewrite Permutation_middle.
Qed.

(** A full heap that cannot grow refuses every value of a burst and stays
    as it is. *)
Lemma fixed_capacity_refusals less (more : list T) d c l f hf :
  run OptimizedHeap_call (map OpInsert more) (optimized_of less d 0 c false l f hf)
  = Ok (optimized_of less d 0 c false l f hf,
        map (fun _ => RetInsert (Some ErrCapacityReached)) more).
Proof.
  induction more as [|v more IH]; [done|].
  cbn [map]. rewrite run_cons. cbn [OptimizedHeap_call].
  rewrite OptimizedHeap_Insert_rejected. cbn [mbind result_bind fst snd].
  by rewrite IH.
Qed.

(** [Extract] on a full heap that cannot grow frees a cell, which the next
    [Insert] uses. *)
Lemma fixed_capacity_usable less d c l f hf :
  d <> [] ->
  exists d1 hf1 x,
    OptimizedHeap.Extract (optimized_of less d 0 c false l f hf)
    = Ok (optimized_of less d1 1 c false l f hf1, (x, true)) /\
    x :: d1 ≡ₚ d /\
    forall v, exists d2 hf2,
      OptimizedHeap.Insert v (optimized_of less d1 1 c false l f hf1)
      = Ok (optimized_of less d2 0 c false l f hf2, None) /\
      d2 ≡ₚ v :: d1.
Proof.
  intros Hd.
  destruct (OptimizedHeap_Extract_cases less d 0 c false l f hf)
    as (d1 & k1 & hf1 & r & -> & Hcase).
  destruct Hcase as [(-> & _)|(_ & -> & _ & x & -> & Hperm & _)]; [done|].
  eexists _, _, x. split; [done|]. split; [done|].
  intros v. apply fixed_capacity_Insert.
Qed.
End fixed_capacity.

(** C6: a heap built with capacity [c] and growth disallowed keeps that
    capacity through any calls and never holds more than [c] values.  After
    any calls, [Insert] is accepted with one more value held while fewer
    than [c] are held, and otherwise returns [ErrCapacityReached] and the
    heap exactly as it was.  On the new heap any [c] values are all
    accepted; the heap then holds these [c] values, every further [Insert],
    alone or in a burst, returns [ErrCapacityReached] and the same heap,
    and the heap stays usable: [Extract] returns one of the values and
    leaves [c - 1], after which [Insert] succeeds and [c] are held again. *)
Theorem fixed_capacity_rejection {T : Type} {zt : Zero T} {rt : Runtime}
    (less : T -> T -> bool) (opts : list (OptimizedHeap.Opt T))
    (oh0 : OptimizedHeap.t T) :
  OptimizedHeap.NewOptimizedHeap less opts = Ok (Some oh0, None) ->
  OptimizedHeap.canGrow oh0 = false ->
  let c := OptimizedHeap.cap oh0 in
  (forall ops : list (op T),
   exists oh tr hp,
     run OptimizedHeap_call ops oh0 = Ok (oh, tr) /\
     OptimizedHeap.h oh = Some hp /\
     slice.cap (Heap.data hp) = c /\
     slice.len (Heap.data hp) <= c /\
     forall v,
       if slice.len (Heap.data hp) <? c
       then exists oh' hp',
              OptimizedHeap.Insert v oh = Ok (oh', None) /\
              OptimizedHeap.h oh' = Some hp' /\
              slice.elems (Heap.data hp') ≡ₚ v :: slice.elems (Heap.data hp) /\
              slice.len (Heap.data hp') = slice.len (Heap.data hp) + 1 /\
              slice.cap (Heap.data hp') = c
       else OptimizedHeap.Insert v oh = Ok (oh, Some ErrCapacityReached)) /\
  (forall vals more : list T,
   Z.of_nat (length vals) = c ->
   exists ohf hpf,
     run OptimizedHeap_call (map OpInsert vals) oh0
     = Ok (ohf, map (fun _ => RetInsert None) vals) /\
     OptimizedHeap.h ohf = Some hpf /\
     slice.elems (Heap.data hpf) ≡ₚ vals /\
     slice.len (Heap.data hpf) = c /\
     (forall v, OptimizedHeap.Insert v ohf = Ok (ohf, Some ErrCapacityReached)) /\
     run OptimizedHeap_call (map OpInsert more) ohf
     = Ok (ohf, map (fun _ => RetInsert (Some ErrCapacityReached)) more) /\
     exists oh1 hp1 x,
       OptimizedHeap.Extract ohf = Ok (oh1, (x, true)) /\
       OptimizedHeap.h oh1 = Some hp1 /\
       x :: slice.elems (Heap.data hp1) ≡ₚ vals /\
       slice.len (Heap.data hp1) = c - 1 /\
       forall v, exists oh2 hp2,
         OptimizedHeap.Insert v oh1 = Ok (oh2, None) /\
         OptimizedHeap.h oh2 = Some hp2 /\
         slice.elems (Heap.data hp2) ≡ₚ v :: slice.elems (Heap.data hp1) /\
         slice.len (Heap.data hp2) = c).
Proof.
  intros Hnew Hg c0.
  pose proof (construction_validation_cases less opts) as Hcv.
  rewrite Hnew in Hcv. destruct Hcv as (Hc & ->). subst c0.
  cbn [OptimizedHeap.canGrow OptimizedHeap.set_h OptimizedHeap.cap] in *.
  set (cfg := configured opts) in *. unfold OptimizedHeap.set_h. rewrite Hg.
  set (c := OptimizedHeap.cap cfg) in *.
  set (l := OptimizedHeap.useLazy cfg). set (f := OptimizedHeap.growthFunc cfg).
  set (hf0 := OptimizedHeap.heapified cfg).
  change (OptimizedHeap.mk (Some (heap_of less [] (Z.to_nat c))) c false l f hf0)
    with (optimized_of less [] (Z.to_nat c) c false l f hf0).
  split.
  - intros ops.
    destruct (fixed_capacity_run less ops [] (Z.to_nat c) c l f hf0)
      as (d & k & hf & tr & -> & Hcap).
    change (llen []) with 0 in Hcap.
    eexists _, tr, _. split; [done|]. split; [done|].
    unfold slice.cap, slice.len. cbn [Heap.data heap_of slice.elems slice.spare].
    fold (llen d). split; [lia|]. split; [lia|]. intros v.
    destruct (Z.ltb_spec (llen d) c) as [Hfree|Hfull].
    + destruct k as [|k]; [lia|].
      destruct (fixed_capacity_Insert less d k c l f hf v) as (d' & hf' & -> & Hperm).
      eexists _, _. split; [done|]. split; [done|].
      cbn [Heap.data heap_of slice.elems slice.spare]. split; [done|].
      apply Permutation_length in Hperm. cbn [length] in Hperm.
      unfold llen in *. lia.
    + assert (k = 0%nat) as -> by lia. apply OptimizedHeap_Insert_rejected.
  - intros vals more Hvals.
    assert (Hk : Z.to_nat c = (length vals + 0)%nat) by lia. rewrite Hk.
    destruct (fixed_capacity_inserts less vals [] 0 c l f hf0) as (d & hf & -> & Hperm).
    rewrite app_nil_r in Hperm.
    assert (Hlen : llen d = c).
    { apply Permutation_length in Hperm. unfold llen. lia. }
    eexists _, _. split; [done|]. split; [done|].
    cbn [Heap.data heap_of slice.elems slice.spare].
    split; [done|]. split; [done|].
    split. { intros v. apply OptimizedHeap_Insert_rejected. }
    split. { apply fixed_capacity_refusals. }
    destruct (fixed_capacity_usable less d c l f hf) as (d1 & hf1 & x & -> & Hperm1 & Hins).
    { intros ->. change (llen []) with 0 in Hlen. lia. }
    eexists _, _, x. split; [done|]. split; [done|].
    cbn [Heap.data heap_of slice.elems slice.spare].
    split; [by rewrite Hperm1|].
    assert (Hlen1 : llen d1 = c - 1).
    { apply Permutation_length in Hperm1. cbn [length] in Hperm1. unfold llen in *. lia. }
    split; [done|]. intros v.
    destruct (Hins v) as (d2 & hf2 & -> & Hperm2).
    eexists _, _. split; [done|]. split; [done|].
    cbn [Heap.data heap_of slice.elems slice.spare]. split; [done|].
    apply Permutation_length in Hperm2. cbn [length] in Hperm2.
    unfold slice.len, llen in *. cbn [slice.elems]. lia.
Qed.

Lemma fixed_capacity_rejection_witness :
  let opts := [OptimizedHeap.WithCapacity 2 false] in
  let oh0 := OptimizedHeap.set_h (configured opts) (heap_of Z.ltb [] 2) in
  let full := OptimizedHeap.set_h (configured opts) (heap_of Z.ltb [3; 5] 0) in
  (exists oh,
     run (OptimizedHeap_call (rt := doubling_runtime))
       [OpInsert 5; OpInsert 3; OpInsert 8; OpExtract; OpInsert 9;
        OpExtract; OpExtract; OpExtract] oh0
     = Ok (oh, [RetInsert None; RetInsert None; RetInsert (Some ErrCapacityReached);
                RetExtract 3 true; RetInsert None;
                RetExtract 5 true; RetExtract 9 true; RetExtract 0 false])) /\
  run (OptimizedHeap_call (rt := doubling_runtime)) [OpInsert 5; OpInsert 3] oh0
  = Ok (full, [RetInsert None; RetInsert None]) /\
  OptimizedHeap.Insert (rt := doubling_runtime) 8 full = Ok (full, Some ErrCapacityReached) /\
  exists ohf hpf,
    run (OptimizedHeap_call (rt := doubling_runtime)) [OpInsert 5; OpInsert 3] oh0
    = Ok (ohf, [RetInsert None; RetInsert None]) /\
    OptimizedHeap.h ohf = Some hpf /\
    slice.elems (Heap.data hpf) ≡ₚ [5; 3] /\
    slice.len (Heap.data hpf) = 2 /\
    (forall v, OptimizedHeap.Insert (rt := doubling_runtime) v ohf
               = Ok (ohf, Some ErrCapacityReached)) /\
    run (OptimizedHeap_call (rt := doubling_runtime)) [OpInsert 8; OpInsert 1] ohf
    = Ok (ohf, [RetInsert (Some ErrCapacityReached); RetInsert (Some ErrCapacityReached)]) /\
    exists oh1 hp1 x,
      OptimizedHeap.Extract ohf = Ok (oh1, (x, true)) /\
      OptimizedHeap.h oh1 = Some hp1 /\
      x :: slice.elems (Heap.data hp1) ≡ₚ [5; 3] /\
      slice.len (Heap.data hp1) = 1 /\
      forall v, exists oh2 hp2,
        OptimizedHeap.Insert (rt := doubling_runtime) v oh1 = Ok (oh2, None) /\
        OptimizedHeap.h oh2 = Some hp2 /\
        slice.elems (Heap.data hp2) ≡ₚ v :: slice.elems (Heap.data hp1) /\
        slice.len (Heap.data hp2) = 2.
Proof.
  intros opts oh0 full. split; [eexists; vm_compute; reflexivity|].
  split; [vm_compute; reflexivity|]. split; [reflexivity|].
  exact (proj2 (fixed_capacity_rejection (rt := doubling_runtime) Z.ltb opts oh0
                  eq_refl eq_refl) [5; 3] [8; 1] eq_refl).
Defined.

(** ** The heap property after every call *)

Section heap_invariant.
Context {T : Type} {zt : Zero T} {rt : Runtime}.
Context (less : T -> T -> bool) `{!StrictWeakOrder less}.
Implicit Types (d : list T) (k : nat).

Lemma Heap_run_ordered (ops : list (op T)) : forall d k,
  ordered_from less 0 d ->
  exists d' k' tr,
    run Heap_call ops (heap_of less d k) = Ok (heap_of less d' k', tr) /\
    ordered_from less 0 d'.
Proof.
  induction ops as [|o ops IH]; intros d k Hord.
  { eexists _, _, _. split; [done|done]. }
  rewrite run_cons. destruct o as [v|]; cbn [Heap_call].
  - destruct (Heap_Insert_spec less d k v) as (d1 & -> & _ & Hord1).
    cbn [mbind result_bind fst snd].
    destruct (IH d1 (spare_after_append d k)) as (d' & k' & tr & -> & Hord');
      [by apply Hord1|].
    eexists _, _, _. split; [done|done].
  - destruct d as [|x tl].
    + rewrite Heap_Extract_empty. cbn [mbind result_bind fst snd].
      destruct (IH [] k Hord) as (d' & k' & tr & -> & Hord').
      eexists _, _, _. split; [done|done].
    + destruct (Heap_Extract_spec less (x :: tl) k) as (d1 & -> & _ & Hord1); [done|].
      cbn [mbind result_bind fst snd].
      destruct (IH d1 (S k)) as (d' & k' & tr & -> & Hord'); [by apply Hord1|].
      eexists _, _, _. split; [done|done].
Qed.

Lemma OptimizedHeap_run_ordered (ops : list (op T)) : forall d k c g l f hf n,
  servable_run f g l n -> llen d + Z.of_nat (length ops) <= n ->
  (l = false \/ hf = true -> ordered_from less 0 d) ->
  exists d' k' hf' tr,
    run OptimizedHeap_call ops (optimized_of less d k c g l f hf)
    = Ok (optimized_of less d' k' c g l f hf', tr) /\
    (l = false \/ hf' = true -> ordered_from less 0 d').
Proof.
  induction ops as [|o ops IH]; intros d k c g l f hf n Hs Hn Hord.
  { eexists _, _, _, _. split; [done|done]. }
  rewrite run_cons. destruct o as [v|]; cbn [OptimizedHeap_call].
  - destruct (OptimizedHeap_Insert_step less d k c g l f hf v n ops Hs Hn)
      as (d1 & k1 & hf1 & e & -> & Hn1 & Hcase).
    cbn [mbind result_bind fst snd].
    destruct (IH d1 k1 c g l f hf1 n Hs Hn1) as (d' & k' & hf' & tr & -> & Hord').
    { destruct Hcase as [(_ & _ & _ & -> & _ & ->)|(_ & _ & _ & _ & Hl & He)]; [done|].
      destruct l.
      - rewrite Hl by done. by intros [|].
      - destruct He as [-> Hkeep]; [done|]. intros _. apply Hkeep; [done|]. by apply Hord; left. }
    eexists _, _, _, _. split; [done|done].
  - destruct (OptimizedHeap_Extract_step less d k c g l f hf n ops Hn)
      as (d1 & k1 & hf1 & r & -> & Hn1 & Hcase).
    cbn [mbind result_bind fst snd].
    destruct (IH d1 k1 c g l f hf1 n Hs Hn1) as (d' & k' & hf' & tr & -> & Hord').
    { destruct Hcase as [(-> & -> & _ & -> & _)|(_ & _ & _ & x & _ & _ & Hheap)]; [done|].
      intros _. by apply Hheap. }
    eexists _, _, _, _. split; [done|done].
Qed.
End heap_invariant.



(** ** Sorted extraction *)

Section sorted_extraction.
Context {T : Type} {zt : Zero T} {rt : Runtime}.
Context (less : T -> T -> bool) `{!StrictWeakOrder less}.
Implicit Types (d vals out : list T) (k : nat).

(** Earlier values are not beaten by later ones. *)
Definition by_priority (less : T -> T -> bool) : list T -> Prop :=
  StronglySorted (fun a b => less b a = false).

Lemma Heap_run_inserts vals : forall d k,
  ordered_from less 0 d ->
  exists d' k',
    run Heap_call (map OpInsert vals) (heap_of less d k)
    = Ok (heap_of less d' k', replicate (length vals) (RetInsert None)) /\
    d' ≡ₚ vals ++ d /\ ordered_from less 0 d'.
Proof.
  induction vals as [|v vals IH]; intros d k Hord.
  { eexists _, _. split; [done|]. split; [done|done]. }
  cbn [map]. rewrite run_cons. cbn [Heap_call].
  destruct (Heap_Insert_spec less d k v) as (d1 & -> & Hperm1 & Hord1).
  cbn [mbind result_bind fst snd].
  destruct (IH d1 (spare_after_append d k)) as (d' & k' & -> & Hperm & Hord');
    [by apply Hord1|].
  eexists _, _. split; [done|]. split; [|done].
  rewrite Hperm, Hperm1. cbn [app]. by rewrite Permutation_middle.
Qed.

Lemma Heap_run_extracts (n : nat) : forall d k,
  length d = n -> ordered_from less 0 d ->
  exists out k',
    run Heap_call (replicate n OpExtract) (heap_of less d k)
    = Ok (heap_of less [] k', map (fun v => RetExtract v true) out) /\
    out ≡ₚ d /\ by_priority less out.
Proof.
  induction n as [|n IH]; intros d k Hlen Hord.
  { destruct d; [|done]. exists [], k. split; [done|]. split; [done|]. constructor. }
  assert (Hd : d <> []) by (by destruct d).
  cbn [replicate]. rewrite run_cons. cbn [Heap_call].
  destruct (Heap_Extract_spec less d k Hd) as (d1 & -> & Hperm1 & Hord1).
  cbn [mbind result_bind fst snd].
  destruct (IH d1 (S k)) as (out & k' & -> & Hperm & Hsorted).
  { apply Permutation_length in Hperm1. cbn [length] in Hperm1. lia. }
  { by apply Hord1. }
  exists (get d 0 :: out), k'. split; [done|]. split; [by rewrite Hperm|].
  constructor; [done|]. apply Forall_forall. intros y Hy.
  apply root_first; [done..|]. rewrite <- Hperm1, <- Hperm. by right.
Qed.

Lemma Heap_run_inserts_extracts vals :
  exists h out,
    run Heap_call (map OpInsert vals ++ replicate (length vals) OpExtract) (Heap.New less)
    = Ok (h, replicate (length vals) (RetInsert None)
             ++ map (fun v => RetExtract v true) out) /\
    out ≡ₚ vals /\ by_priority less out /\
    Heap.Extract h = Ok (h, (zero, false)).
Proof.
  rewrite run_app.
  destruct (Heap_run_inserts vals [] 0) as (d & k & Hfill & Hperm & Hord).
  { apply ordered_from_nil. }
  change (Heap.New less) with (heap_of less [] 0). rewrite Hfill.
  cbn [mbind result_bind fst snd]. rewrite app_nil_r in Hperm.
  destruct (Heap_run_extracts (length vals) d k) as (out & k' & -> & Hperm' & Hsorted).
  { by apply Permutation_length. } { done. }
  eexists _, out. split; [done|]. split; [by rewrite Hperm'|]. split; [done|].
  apply Heap_Extract_empty.
Qed.
End sorted_extraction.

(** C1: on a type ordered by a strict total order, inserting any values
    into a heap made by [NewMinHeap] or by [NewMaxHeap] and calling
    [Extract] as many times returns all of them, each with [found = true],
    in an order in which no value is beaten by a later one under the
    comparator of the heap; the heap is then empty and a further [Extract]
    returns [found = false]. *)
Theorem sorted_extraction_min_max {T : Type} {zt : Zero T} {rt : Runtime}
    {ot : Ordered T} (vals : list T) (h0 : Heap.t T) :
  StrictTotalOrder (ltb (T := T)) ->
  h0 = NewMinHeap \/ h0 = NewMaxHeap ->
  exists h out,
    run Heap_call (map OpInsert vals ++ replicate (length vals) OpExtract) h0
    = Ok (h, replicate (length vals) (RetInsert None)
             ++ map (fun v => RetExtract v true) out) /\
    out ≡ₚ vals /\
    by_priority (Heap.less h0) out /\
    Heap.Extract h = Ok (h, (zero, false)).
Proof.
  intros Htotal [-> | ->].
  - apply (Heap_run_inserts_extracts (fun a b => ltb a b)
             (StrictWeakOrder0 := total_weak)).
  - apply (Heap_run_inserts_extracts (fun a b => ltb b a)
             (StrictWeakOrder0 := flip_StrictWeakOrder ltb)).
Qed.

Lemma sorted_extraction_min_max_witness :
  StrictTotalOrder (ltb (T := Z)) /\
  exists h,
    run (Heap_call (rt := doubling_runtime))
        (map OpInsert [5; 3; 8; 1; 2] ++ replicate 5 OpExtract) NewMinHeap
    = Ok (h, replicate 5 (RetInsert None)
             ++ map (fun v => RetExtract v true) [1; 2; 3; 5; 8]) /\
    Heap.Extract h = Ok (h, (0, false)).
Proof.
  split; [apply Z_ltb_StrictTotalOrder|].
  destruct (sorted_extraction_min_max (rt := doubling_runtime) [5; 3; 8; 1; 2] NewMinHeap)
    as (h & out & Hrun & _ & _ & Hempty); [apply Z_ltb_StrictTotalOrder|by left|].
  exists h. split; [|exact Hempty].
  assert (Hc : run (Heap_call (rt := doubling_runtime))
                 (map OpInsert [5; 3; 8; 1; 2] ++ replicate 5 OpExtract) NewMinHeap
               = Ok (heap_of (fun a b => ltb a b) [] 8,
                     replicate 5 (RetInsert None)
                     ++ map (fun v => RetExtract v true) [1; 2; 3; 5; 8]))
    by reflexivity.
  cbn [length] in Hrun. rewrite Hc in Hrun. injection Hrun as <- _. exact Hc.
Defined.

(** ** The rebuild of a lazy heap *)

Section rebuild.
Context {T : Type} {zt : Zero T} {rt : Runtime}.
Implicit Types (d : list T) (less : T -> T -> bool) (k : nat) (hp : Heap.t T).

(** Sifting down at each of the given indices, in their order. *)
Definition sift_down_each (indices : list Z) hp : result (Heap.t T) :=
  foldl (fun acc i => hp' ← acc; Heap.heapifyDown i hp') (Ok hp) indices.

(** The indices [n/2 - 1], [n/2 - 2], ..., [0]. *)
Definition last_parent_down_to_root (n : Z) : list Z := reverse (seqZ 0 (Z.quot n 2)).

Lemma sift_down_each_failed (r : result (Heap.t T)) indices :
  (forall hp, r <> Ok hp) ->
  foldl (fun acc i => hp' ← acc; Heap.heapifyDown i hp') r indices = r.
Proof.
  intros Hr. induction indices as [|j indices IH]; [done|].
  cbn [foldl]. destruct r as [hp| |]; [by destruct (Hr hp)|exact IH..].
Qed.

Lemma sift_down_each_cons i indices hp :
  sift_down_each (i :: indices) hp
  = (hp' ← Heap.heapifyDown i hp; sift_down_each indices hp').
Proof.
  unfold sift_down_each. cbn [foldl mbind result_bind].
  destruct (Heap.heapifyDown i hp) as [hp'| |]; [done|..];
    by apply sift_down_each_failed.
Qed.

Lemma buildHeap_loop_each (fuel : nat) : forall i hp,
  -1 <= i -> (Z.to_nat (i + 1) < fuel)%nat ->
  OptimizedHeap.buildHeap_loop fuel i hp
  = sift_down_each (reverse (seqZ 0 (i + 1))) hp.
Proof.
  induction fuel as [|fuel IH]; intros i hp Hi Hfuel; [lia|].
  cbn [OptimizedHeap.buildHeap_loop].
  destruct (Z.leb_spec 0 i) as [H0|H0].
  - rewrite (seqZ_app 0 i 1) by lia. change (seqZ (0 + i) 1) with [0 + i].
    rewrite reverse_snoc, sift_down_each_cons. rewrite Z.add_0_l.
    destruct (Heap.heapifyDown i hp) as [hp'| |]; [|done..].
    cbn [mbind result_bind]. rewrite IH by lia. by replace (i - 1 + 1) with i by lia.
  - by replace (i + 1) with 0 by lia.
Qed.

Lemma buildHeap_each less d k c g l f hf :
  OptimizedHeap.buildHeap (optimized_of less d k c g l f hf)
  = (hp' ← sift_down_each (last_parent_down_to_root (llen d)) (heap_of less d k);
     Ok (OptimizedHeap.mk (Some hp') c g l f hf)).
Proof.
  unfold OptimizedHeap.buildHeap, last_parent_down_to_root.
  cbn [OptimizedHeap.deref OptimizedHeap.h optimized_of mbind result_bind].
  change (slice.len (Heap.data (heap_of less d k))) with (llen d).
  assert (0 <= Z.quot (llen d) 2).
  { rewrite Z.quot_div_nonneg by (unfold llen; lia). apply Z.div_pos; unfold llen; lia. }
  rewrite buildHeap_loop_each by lia.
  by replace (Z.quot (llen d) 2 - 1 + 1) with (Z.quot (llen d) 2) by lia.
Qed.
End rebuild.

(** C9: on a lazy optimized heap, [Extract] of a heap marked not rebuilt and
    not empty first sifts down at each index from [n/2 - 1] down to [0];
    for a comparator that is a strict weak order the array then has the
    heap property; the heap is marked rebuilt and [Extract] goes on as
    [Heap.Extract] on the rebuilt heap.  When the heap is marked rebuilt or
    is empty there is no such pass: [Extract] is [Heap.Extract] on the
    wrapped heap, with the mark as it was. *)
Theorem lazy_extract_rebuilds {T : Type} {zt : Zero T} {rt : Runtime}
    (oh : OptimizedHeap.t T) (hp : Heap.t T) :
  OptimizedHeap.h oh = Some hp ->
  OptimizedHeap.useLazy oh = true ->
  StrictWeakOrder (Heap.less hp) ->
  let n := slice.len (Heap.data hp) in
  (OptimizedHeap.heapified oh = false -> 0 < n ->
   exists hp1,
     sift_down_each (last_parent_down_to_root n) hp = Ok hp1 /\
     OptimizedHeap.buildHeap oh = Ok (OptimizedHeap.set_h oh hp1) /\
     heap_property hp1 /\
     OptimizedHeap.Extract oh
     = (r ← Heap.Extract hp1;
        Ok (OptimizedHeap.set_h
              (OptimizedHeap.set_heapified (OptimizedHeap.set_h oh hp1) true) r.1,
            r.2)) /\
     exists oh' hp' r,
       OptimizedHeap.Extract oh = Ok (oh', r) /\
       OptimizedHeap.h oh' = Some hp' /\
       OptimizedHeap.heapified oh' = true /\
       heap_property hp') /\
  (OptimizedHeap.heapified oh = true \/ n = 0 ->
   OptimizedHeap.Extract oh
   = (r ← Heap.Extract hp; Ok (OptimizedHeap.set_h oh r.1, r.2))).
Proof.
  intros Hh Hl Hswo n. subst n.
  destruct oh as [h0 c g l f hf], hp as [[d k] less].
  cbn [OptimizedHeap.h OptimizedHeap.useLazy OptimizedHeap.heapified
       Heap.less Heap.data] in *.
  subst h0 l.
  change (slice.len {| slice.elems := d; slice.spare := k |}) with (llen d).
  change (Heap.mk (slice.mk d k) less) with (heap_of less d k).
  change (OptimizedHeap.mk (Some (heap_of less d k)) c g true f hf)
    with (optimized_of less d k c g true f hf).
  split.
  - intros -> Hn.
    assert (Hd : d <> []) by (intros ->; change (llen []) with 0 in Hn; lia).
    destruct (OptimizedHeap_Extract_build less d k c g f Hd)
      as (d1 & Hbuild & Hperm & Hord & Hext).
    pose proof Hbuild as Hbuild'. rewrite buildHeap_each in Hbuild'.
    destruct (sift_down_each (last_parent_down_to_root (llen d)) (heap_of less d k))
      as [hp1| |] eqn:Heach; [|done..].
    cbn [mbind result_bind] in Hbuild'. injection Hbuild' as ->.
    exists (heap_of less d1 k). split; [done|]. split; [exact Hbuild|].
    split; [by apply heap_property_ordered, Hord|]. split; [exact Hext|].
    assert (Hd1 : d1 <> []).
    { intros ->. apply Permutation_nil in Hperm. done. }
    destruct (Heap_Extract_spec less d1 k Hd1) as (d' & Hrun & _ & Hord').
    rewrite Hext, Hrun. eexists _, _, _. split; [done|]. split; [done|]. split; [done|].
    by apply heap_property_ordered, Hord', Hord.
  - intros Hcase. apply OptimizedHeap_Extract_direct.
    destruct Hcase as [->|Hn]; [auto|]. right; right.
    destruct d; [done|]. unfold llen in Hn. cbn in Hn. lia.
Qed.

Lemma lazy_extract_rebuilds_witness :
  let oh := optimized_of Z.ltb [5; 3; 8; 1; 2] 11 16 true true (fun c => c * 2) false in
  StrictWeakOrder Z.ltb /\
  exists hp1,
    sift_down_each [1; 0] (heap_of Z.ltb [5; 3; 8; 1; 2] 11) = Ok hp1 /\
    OptimizedHeap.buildHeap oh = Ok (OptimizedHeap.set_h oh hp1) /\
    heap_property hp1.
Proof.
  intros oh. split; [apply _|].
  destruct (lazy_extract_rebuilds (rt := doubling_runtime) oh
              (heap_of Z.ltb [5; 3; 8; 1; 2] 11)) as [Hbuild _];
    [reflexivity|reflexivity|apply _|].
  destruct Hbuild as (hp1 & Heach & Hb & Hp & _); [reflexivity|reflexivity|].
  exists hp1. split; [exact Heach|]. split; [exact Hb|exact Hp].
Defined.

(** ** Lazy and eager heaps side by side *)

(** What the result of a call shows with the extracted value left aside:
    the error of an [Insert], the found flag of an [Extract]. *)
Definition outcome {T : Type} (r : ret T) : option Error + bool :=
  match r with
  | RetInsert e => inl e
  | RetExtract _ b => inr b
  end.

Definition outcomes {T : Type} (tr : list (ret T)) : list (option Error + bool) :=
  map outcome tr.

(** Two values tie when the comparator ranks neither before the other. *)
Definition tied {T : Type} (less : T -> T -> bool) (a b : T) : Prop :=
  less a b = false /\ less b a = false.

Definition tiedb {T : Type} (less : T -> T -> bool) (a b : T) : bool :=
  negb (less a b) && negb (less b a).

(** Two results of the same call agree up to ties: the same error of an
    [Insert]; the same found flag of an [Extract], with values that tie
    when found and the same value when not. *)
Definition ret_up_to_ties {T : Type} (less : T -> T -> bool) (rl re : ret T) : Prop :=
  match rl, re with
  | RetInsert el, RetInsert ee => el = ee
  | RetExtract vl bl, RetExtract ve be =>
      bl = be /\ if bl then tied less vl ve else vl = ve
  | _, _ => False
  end.

(** The number of cells that satisfy a test. *)
Fixpoint count {T : Type} (p : T -> bool) (l : list T) : nat :=
  match l with
  | [] => 0
  | x :: l => (if p x then 1 else 0) + count p l
  end.

(** Two arrays hold the same values up to ties: as many cells of the one as
    of the other tie with any given value. *)
Definition same_ranks {T : Type} (less : T -> T -> bool) (dl de : list T) : Prop :=
  forall z, count (tiedb less z) dl = count (tiedb less z) de.

Section lazy_eager.
Context {T : Type} {zt : Zero T} {rt : Runtime}.
Context (less : T -> T -> bool).
Implicit Types (d : list T) (k : nat) (c : Z) (g hf : bool) (f : Z -> Z).

Lemma outcomes_cons (r : ret T) tr : outcomes (r :: tr) = outcome r :: outcomes tr.
Proof. done. Qed.

Lemma count_Permutation (p : T -> bool) l l' : l ≡ₚ l' -> count p l = count p l'.
Proof.
  induction 1 as [|x l l' _ IH|x y l|l l' l'' _ IH1 _ IH2]; cbn [count].
  - done.
  - by rewrite IH.
  - lia.
  - by rewrite IH1.
Qed.

Lemma count_elem (p : T -> bool) l :
  (0 < count p l)%nat -> exists y, y ∈ l /\ p y = true.
Proof.
  induction l as [|x l IH]; cbn [count]; [lia|].
  destruct (p x) eqn:E.
  - intros _. exists x. split; [by left|done].
  - intros H. destruct IH as (y & Hy & Hp); [lia|]. exists y. split; [by right|done].
Qed.

Lemma elem_count (p : T -> bool) l y : y ∈ l -> p y = true -> (0 < count p l)%nat.
Proof.
  intros Hy Hp. induction Hy as [y l|y x l _ IH]; cbn [count].
  - rewrite Hp. lia.
  - specialize (IH Hp). lia.
Qed.

Lemma tiedb_tied a b : tiedb less a b = true <-> tied less a b.
Proof.
  unfold tiedb, tied.
  destruct (less a b), (less b a); cbn; split; try done; by intros [??].
Qed.

Lemma tied_sym a b : tied less a b -> tied less b a.
Proof. by intros [??]. Qed.

Lemma same_ranks_cons v dl de dl1 de1 :
  same_ranks less dl de -> dl1 ≡ₚ v :: dl -> de1 ≡ₚ v :: de -> same_ranks less dl1 de1.
Proof.
  intros Hr Hl He z.
  rewrite (count_Permutation _ _ _ Hl), (count_Permutation _ _ _ He).
  cbn [count]. by rewrite Hr.
Qed.

Section ranks.
Context `{!StrictWeakOrder less}.

Lemma tied_refl a : tied less a a.
Proof. split; by apply less_irrefl. Qed.

Lemma tied_trans a b x : tied less a b -> tied less b x -> tied less a x.
Proof. intros [??] [??]. split; by eapply less_negtrans. Qed.

Lemma tiedb_congr z a b : tied less a b -> tiedb less z a = tiedb less z b.
Proof.
  intros Hab. apply eq_true_iff_eq. rewrite !tiedb_tied. split; intros Hz.
  - by eapply tied_trans.
  - eapply tied_trans; [done|]. by apply tied_sym.
Qed.

(** The best values of two arrays that hold the same values up to ties
    tie. *)
Lemma best_tied dl de xl xe :
  same_ranks less dl de -> xl ∈ dl -> xe ∈ de ->
  (forall y, y ∈ dl -> less y xl = false) ->
  (forall y, y ∈ de -> less y xe = false) ->
  tied less xl xe.
Proof.
  intros Hr Hxl Hxe Hml Hme.
  destruct (count_elem (tiedb less xl) de) as (y & Hy & Hty).
  { rewrite <- Hr. apply (elem_count _ _ xl); [done|]. apply tiedb_tied, tied_refl. }
  apply tiedb_tied in Hty as [Hxy Hyx].
  destruct (count_elem (tiedb less xe) dl) as (w & Hw & Htw).
  { rewrite Hr. apply (elem_count _ _ xe); [done|]. apply tiedb_tied, tied_refl. }
  apply tiedb_tied in Htw as [Hew Hwe].
  split.
  - apply (less_negtrans _ y); [done|]. by apply Hme.
  - apply (less_negtrans _ w); [done|]. by apply Hml.
Qed.

Lemma same_ranks_without xl xe dl de dl1 de1 :
  same_ranks less dl de -> tied less xl xe ->
  xl :: dl1 ≡ₚ dl -> xe :: de1 ≡ₚ de -> same_ranks less dl1 de1.
Proof.
  intros Hr Ht Hl He z. specialize (Hr z).
  rewrite <- (count_Permutation _ _ _ Hl), <- (count_Permutation _ _ _ He) in Hr.
  cbn [count] in Hr. rewrite (tiedb_congr z xl xe Ht) in Hr. lia.
Qed.
End ranks.

(** Under a strict total order, results that agree up to ties are the
    same. *)
Lemma up_to_ties_total `{!StrictTotalOrder less} (trl tre : list (ret T)) :
  Forall2 (ret_up_to_ties less) trl tre -> trl = tre.
Proof.
  induction 1 as [|rl re trl tre Hr _ IH]; [done|]. f_equal; [|done].
  destruct rl as [el|vl bl], re as [ee|ve be]; cbn in Hr; try done.
  - by subst.
  - destruct Hr as [<- Hv]. destruct bl.
    + f_equal. destruct Hv. by apply (less_total (less := less)).
    + by subst.
Qed.

(** A lazy and an eager heap that hold as many values, and have the same
    room left when they cannot grow, return to the same calls the same
    [Insert] results and found flags, whatever the comparator.  When the
    comparator is a strict weak order and they hold the same values up to
    ties, the eager one as a heap, the lazy one as a heap when marked
    rebuilt, the values they return tie. *)
Lemma lazy_eager_run (ops : list (op T)) : forall dl kl hfl de ke hfe c g f n,
  servable_run f g false n -> llen de + Z.of_nat (length ops) <= n ->
  length dl = length de ->
  (g = false -> kl = ke) ->
  exists sl se trl tre,
    run OptimizedHeap_call ops (optimized_of less dl kl c g true f hfl) = Ok (sl, trl) /\
    run OptimizedHeap_call ops (optimized_of less de ke c g false f hfe) = Ok (se, tre) /\
    outcomes trl = outcomes tre /\
    (StrictWeakOrder less -> same_ranks less dl de ->
     ordered_from less 0 de -> (hfl = true -> ordered_from less 0 dl) ->
     Forall2 (ret_up_to_ties less) trl tre).
Proof.
  induction ops as [|o ops IH]; intros dl kl hfl de ke hfe c g f n Hs Hn Hlen Hk.
  { eexists _, _, [], []. split; [done|]. split; [done|]. split; [done|].
    intros. constructor. }
  rewrite !run_cons. destruct o as [v|]; cbn [OptimizedHeap_call].
  - destruct (OptimizedHeap_Insert_cases less dl kl c g true f hfl v)
      as (dl1 & kl1 & hfl1 & el & -> & Hl); [apply servable_now_lazy|].
    destruct (OptimizedHeap_Insert_step less de ke c g false f hfe v n ops Hs Hn)
      as (de1 & ke1 & hfe1 & ee & -> & Hn1 & He).
    cbn [mbind result_bind fst snd].
    destruct Hl as [(-> & -> & -> & -> & -> & ->)
                   |(Hgl & -> & Hperml & Hkl & Hhfl & _)].
    + destruct He as [(_ & _ & -> & -> & -> & ->)|([|Hke] & _)];
        [|done|by rewrite <- Hk in Hke].
      destruct (IH dl 0%nat hfl de ke hfe c false f n Hs Hn1 Hlen Hk)
        as (sl & se & trl & tre & -> & -> & Hout & Hties).
      cbn [mbind result_bind fst snd].
      eexists _, _, _, _. split; [done|]. split; [done|].
      split; [by rewrite !outcomes_cons, Hout|].
      intros Hswo Hr Horde Hordl. constructor; [done|]. by apply Hties.
    + destruct He as [(-> & -> & _)|(_ & -> & Hperme & Hke & _ & Hhfe)].
      { destruct Hgl as [|Hkl']; [done|]. by rewrite Hk in Hkl'. }
      destruct Hhfe as [-> Hkeep]; [done|].
      destruct (IH dl1 kl1 hfl1 de1 ke1 hfe c g f n Hs Hn1)
        as (sl & se & trl & tre & -> & -> & Hout & Hties).
      { apply Permutation_length in Hperml, Hperme. cbn [length] in *. congruence. }
      { intros Hg. rewrite Hkl, Hke by done. by rewrite Hk. }
      cbn [mbind result_bind fst snd].
      eexists _, _, _, _. split; [done|]. split; [done|].
      split; [by rewrite !outcomes_cons, Hout|].
      intros Hswo Hr Horde Hordl. constructor; [done|]. apply Hties; [done| | |].
      * by apply (same_ranks_cons v dl de).
      * by apply Hkeep.
      * rewrite Hhfl by done. done.
  - destruct (OptimizedHeap_Extract_cases less dl kl c g true f hfl)
      as (dl1 & kl1 & hfl1 & rl & -> & Hl).
    destruct (OptimizedHeap_Extract_step less de ke c g false f hfe n ops Hn)
      as (de1 & ke1 & hfe1 & re & -> & Hn1 & He).
    cbn [mbind result_bind fst snd].
    destruct Hl as [(-> & -> & -> & -> & ->)
                   |(Hdl & -> & -> & xl & -> & Hperml & Hheapl)].
    + destruct de as [|? ?]; [|done].
      destruct He as [(_ & -> & -> & -> & ->)|(? & _)]; [|done].
      destruct (IH [] kl hfl [] ke hfe c g f n Hs Hn1 Hlen Hk)
        as (sl & se & trl & tre & -> & -> & Hout & Hties).
      cbn [mbind result_bind fst snd].
      eexists _, _, _, _. split; [done|]. split; [done|].
      split; [by rewrite !outcomes_cons, Hout|].
      intros Hswo Hr Horde Hordl. constructor; [done|]. by apply Hties.
    + destruct He as [(-> & _)|(_ & -> & -> & xe & -> & Hperme & Hheape)].
      { by destruct dl. }
      destruct (IH dl1 (S kl) true de1 (S ke) hfe c g f n Hs Hn1)
        as (sl & se & trl & tre & -> & -> & Hout & Hties).
      { apply Permutation_length in Hperml, Hperme. cbn [length] in *. congruence. }
      { intros Hg. by rewrite Hk. }
      cbn [mbind result_bind fst snd].
      eexists _, _, _, _. split; [done|]. split; [done|].
      split; [by rewrite !outcomes_cons, Hout|].
      intros Hswo Hr Horde Hordl.
      destruct (Hheapl Hswo) as [Hordl1 Hmaxl]; [intros [?|?]; [done|by apply Hordl]|].
      destruct (Hheape Hswo) as [Horde1 Hmaxe]; [done|].
      assert (Ht : tied less xl xe).
      { apply (best_tied dl de); [done| | |done..].
        - rewrite <- Hperml. by left.
        - rewrite <- Hperme. by left. }
      constructor; [done|]. apply Hties; [done| |done..].
      by apply (same_ranks_without xl xe dl de).
Qed.
End lazy_eager.

(** C3, as amended: a heap built with lazy heapification enabled and one
    built with the same options and lazy heapification disabled, whose
    growth asks [make] only for capacities it serves, both return to every
    sequence of [Insert] and [Extract] calls, with the same error or success
    of each [Insert] and the same found flag of each [Extract], whatever the
    comparator.  For a comparator that is a strict weak order, the values of
    corresponding [Extract] calls tie: neither is ranked before the other.
    For a strict total order they are therefore the same values. *)
Theorem lazy_equivalence_up_to_ties {T : Type} {zt : Zero T} {rt : Runtime}
    (less : T -> T -> bool) (opts : list (OptimizedHeap.Opt T))
    (eager : OptimizedHeap.t T) (ops : list (op T)) :
  OptimizedHeap.NewOptimizedHeap less opts = Ok (Some eager, None) ->
  OptimizedHeap.useLazy eager = false ->
  growth_servable eager (Z.of_nat (length ops)) ->
  exists lazy,
    OptimizedHeap.NewOptimizedHeap less (opts ++ [OptimizedHeap.UseLazyHeapification])
    = Ok (Some lazy, None) /\
    OptimizedHeap.useLazy lazy = true /\
    exists s_lazy s_eager tr_lazy tr_eager,
      run OptimizedHeap_call ops lazy = Ok (s_lazy, tr_lazy) /\
      run OptimizedHeap_call ops eager = Ok (s_eager, tr_eager) /\
      outcomes tr_lazy = outcomes tr_eager /\
      (StrictWeakOrder less -> Forall2 (ret_up_to_ties less) tr_lazy tr_eager) /\
      (StrictTotalOrder less ->
       tr_lazy = tr_eager /\ extracted tr_lazy = extracted tr_eager).
Proof.
  intros Hnew Heager Hs.
  pose proof (construction_validation_cases less opts) as Hcv.
  rewrite Hnew in Hcv. destruct Hcv as (Hc & ->).
  assert (Hcfg : configured (opts ++ [OptimizedHeap.UseLazyHeapification])
                 = OptimizedHeap.UseLazyHeapification (configured opts)).
  { unfold configured. by rewrite fold_left_app. }
  rewrite (NewOptimizedHeap_served less (opts ++ [OptimizedHeap.UseLazyHeapification]))
    by (by rewrite Hcfg).
  rewrite Hcfg. set (cfg := configured opts) in *.
  cbn [OptimizedHeap.useLazy OptimizedHeap.set_h] in Heager.
  eexists. split; [done|]. split; [done|].
  unfold growth_servable in Hs.
  unfold OptimizedHeap.set_h, OptimizedHeap.UseLazyHeapification in *.
  cbn [OptimizedHeap.cap OptimizedHeap.canGrow OptimizedHeap.useLazy
       OptimizedHeap.growthFunc OptimizedHeap.heapified] in *.
  rewrite Heager in *.
  destruct (lazy_eager_run less ops [] (Z.to_nat (OptimizedHeap.cap cfg))
              (OptimizedHeap.heapified cfg) [] (Z.to_nat (OptimizedHeap.cap cfg))
              (OptimizedHeap.heapified cfg) (OptimizedHeap.cap cfg)
              (OptimizedHeap.canGrow cfg) (OptimizedHeap.growthFunc cfg)
              (Z.of_nat (length ops)))
    as (sl & se & trl & tre & Hl & He & Hout & Hties).
  { exact Hs. }
  { change (llen []) with 0. lia. }
  { done. }
  { done. }
  exists sl, se, trl, tre. split; [exact Hl|]. split; [exact He|]. split; [exact Hout|].
  assert (Hweak : StrictWeakOrder less -> Forall2 (ret_up_to_ties less) trl tre).
  { intros Hswo. apply Hties; [done|done|apply ordered_from_nil|].
    intros _. apply ordered_from_nil. }
  split; [exact Hweak|]. intros Htotal.
  assert (trl = tre) as ->; [|done].
  apply (up_to_ties_total less). apply Hweak, total_weak.
Qed.

(** The comparator of a priority field: pairs are ranked by their first
    component alone. *)
Definition by_first (a b : Z * Z) : bool := a.1 <? b.1.

#[global] Instance by_first_StrictWeakOrder : StrictWeakOrder by_first.
Proof.
  unfold by_first. split.
  - intros a b H. apply Z.ltb_lt in H. apply Z.ltb_ge. lia.
  - intros a b c H1 H2. apply Z.ltb_ge in H1, H2. apply Z.ltb_ge. lia.
Qed.

Lemma lazy_equivalence_up_to_ties_witness :
  let opts := [OptimizedHeap.WithCapacity 2 true] in
  let ops := [OpInsert 5; OpInsert 3; OpInsert 8; OpExtract; OpInsert 1; OpExtract] in
  let popts : list (OptimizedHeap.Opt (Z * Z)) := [OptimizedHeap.WithCapacity 2 true] in
  let pairs := map OpInsert [(2, 0); (2, 1); (1, 0); (1, 1)] ++ [OpExtract] in
  (StrictTotalOrder Z.ltb /\
   exists eager lazy s_lazy s_eager tr,
     OptimizedHeap.NewOptimizedHeap (rt := doubling_runtime) Z.ltb opts
     = Ok (Some eager, None) /\
     OptimizedHeap.NewOptimizedHeap (rt := doubling_runtime) Z.ltb
       (opts ++ [OptimizedHeap.UseLazyHeapification])
     = Ok (Some lazy, None) /\
     run (OptimizedHeap_call (rt := doubling_runtime)) ops lazy = Ok (s_lazy, tr) /\
     run (OptimizedHeap_call (rt := doubling_runtime)) ops eager = Ok (s_eager, tr)) /\
  (StrictWeakOrder by_first /\
   exists eager lazy s_lazy s_eager tr_lazy tr_eager,
     OptimizedHeap.NewOptimizedHeap (rt := doubling_runtime) by_first popts
     = Ok (Some eager, None) /\
     OptimizedHeap.NewOptimizedHeap (rt := doubling_runtime) by_first
       (popts ++ [OptimizedHeap.UseLazyHeapification])
     = Ok (Some lazy, None) /\
     run (OptimizedHeap_call (rt := doubling_runtime)) pairs lazy = Ok (s_lazy, tr_lazy) /\
     run (OptimizedHeap_call (rt := doubling_runtime)) pairs eager
     = Ok (s_eager, tr_eager) /\
     outcomes tr_lazy = outcomes tr_eager /\
     Forall2 (ret_up_to_ties by_first) tr_lazy tr_eager).
Proof.
  intros opts ops popts pairs. split.
  - split; [apply _|].
    set (eager := OptimizedHeap.set_h (configured opts) (heap_of Z.ltb [] 2)).
    destruct (lazy_equivalence_up_to_ties (rt := doubling_runtime) Z.ltb opts eager ops)
      as (lazy & Hnew & _ & sl & se & trl & tre & Hl & He & _ & _ & Htr);
      [reflexivity|reflexivity| |].
    { apply (growth_servable_bounded eager 6 12); [|done..].
      intros c Hc. cbn. destruct (Z.ltb_spec c 1024); lia. }
    exists eager, lazy, sl, se, tre. split; [reflexivity|]. split; [exact Hnew|].
    destruct Htr as [Htr _]; [apply _|]. split; [by rewrite <- Htr|exact He].
  - split; [apply _|].
    set (eager := OptimizedHeap.set_h (configured popts) (heap_of by_first [] 2)).
    destruct (lazy_equivalence_up_to_ties (rt := doubling_runtime) by_first popts eager pairs)
      as (lazy & Hnew & _ & sl & se & trl & tre & Hl & He & Hout & Hties & _);
      [reflexivity|reflexivity| |].
    { apply (growth_servable_bounded eager 5 10); [|done..].
      intros c Hc. cbn. destruct (Z.ltb_spec c 1024); lia. }
    exists eager, lazy, sl, se, trl, tre. split; [reflexivity|]. split; [exact Hnew|].
    split; [exact Hl|]. split; [exact He|]. split; [exact Hout|]. apply Hties, _.
Defined.

(** C3, as stated, fails.  The comparator [by_first] is a strict weak order,
    and after the same four [Insert] calls the first [Extract] of the eager
    heap returns [(1, 0)] while that of the lazy heap returns [(1, 1)].  And
    with a growth function that returns [2^62], on a 64-bit Go with cells of
    eight bytes, the second [Insert] of the eager heap panics in [make]
    while the lazy heap accepts both values. *)
Lemma lazy_equivalence_counterexample :
  let ops := map OpInsert [(2, 0); (2, 1); (1, 0); (1, 1)] ++ [OpExtract] in
  let opts := [OptimizedHeap.WithCapacity 1 true;
               OptimizedHeap.WithGrowthFunction (fun _ => 2 ^ 62)] in
  (StrictWeakOrder by_first /\
   exists eager lazy s_eager s_lazy tr_eager tr_lazy,
     OptimizedHeap.NewOptimizedHeap (rt := doubling_runtime) by_first []
     = Ok (Some eager, None) /\
     OptimizedHeap.NewOptimizedHeap (rt := doubling_runtime) by_first
       [OptimizedHeap.UseLazyHeapification]
     = Ok (Some lazy, None) /\
     run (OptimizedHeap_call (rt := doubling_runtime)) ops eager = Ok (s_eager, tr_eager) /\
     run (OptimizedHeap_call (rt := doubling_runtime)) ops lazy = Ok (s_lazy, tr_lazy) /\
     extracted tr_eager = [((1, 0), true)] /\
     extracted tr_lazy = [((1, 1), true)] /\
     extracted tr_lazy <> extracted tr_eager) /\
  (exists eager lazy s_lazy,
     OptimizedHeap.NewOptimizedHeap (rt := doubling_runtime) Z.ltb opts
     = Ok (Some eager, None) /\
     OptimizedHeap.NewOptimizedHeap (rt := doubling_runtime) Z.ltb
       (opts ++ [OptimizedHeap.UseLazyHeapification])
     = Ok (Some lazy, None) /\
     run (OptimizedHeap_call (rt := doubling_runtime)) [OpInsert 1; OpInsert 2] eager
     = Panic /\
     run (OptimizedHeap_call (rt := doubling_runtime)) [OpInsert 1; OpInsert 2] lazy
     = Ok (s_lazy, [RetInsert None; RetInsert None])).
Proof.
  intros ops opts. split.
  - split; [apply _|].
    eexists _, _, _, _, _, _.
    split; [reflexivity|]. split; [reflexivity|].
    split; [vm_compute; reflexivity|]. split; [vm_compute; reflexivity|].
    split; [reflexivity|]. split; [reflexivity|]. discriminate.
  - eexists _, _, _.
    split; [reflexivity|]. split; [reflexivity|].
    split; [vm_compute; reflexivity|]. vm_compute; reflexivity.
Qed.

(** ** Growth of a lazy optimized heap *)

(** The capacity of the backing slice after inserting the given values into
    a min-heap built with the given options. *)
Definition capacity_after_inserts {rt : Runtime}
    (opts : list (OptimizedHeap.Opt Z)) (vals : list Z) : option Z :=
  match NewOptimizedMinHeap opts with
  | Ok (Some oh0, None) =>
    match run OptimizedHeap_call (map OpInsert vals) oh0 with
    | Ok (oh, _) =>
      match OptimizedHeap.h oh with
      | Some hp => Some (slice.cap (Heap.data hp))
      | None => None
      end
    | _ => None
    end
  | _ => None
  end.

(** C4: the code at the failing input.  A lazy heap of capacity 2 that may
    grow receives three values.  Whatever the growth function, the third
    [Insert] leaves the capacity the runtime's [append] chose, so it is not
    the capacity of the growth policy for both of two growth functions that
    the policy tells apart; an eager heap with the same options does follow
    the policy, where [make] serves the capacity it asks for. *)
Theorem lazy_insert_skips_growth_function {rt : Runtime} :
  let lazy_opts f := [OptimizedHeap.WithCapacity 2 true;
                      OptimizedHeap.WithGrowthFunction f;
                      OptimizedHeap.UseLazyHeapification] in
  let eager_opts f := [OptimizedHeap.WithCapacity 2 true;
                       OptimizedHeap.WithGrowthFunction f] in
  (2 <= makeslice_limit ->
   forall f, capacity_after_inserts (lazy_opts f) [10; 20; 30]
             = Some (3 + Z.of_nat (growslice_slack 2))) /\
  (forall f, grown_capacity f 2 <= makeslice_limit ->
             capacity_after_inserts (eager_opts f) [10; 20; 30]
             = Some (grown_capacity f 2)) /\
  grown_capacity (fun c => c + 10) 2 = 12 /\
  grown_capacity (fun c => c + 20) 2 = 22 /\
  ~ (capacity_after_inserts (lazy_opts (fun c => c + 10)) [10; 20; 30] = Some 12 /\
     capacity_after_inserts (lazy_opts (fun c => c + 20)) [10; 20; 30] = Some 22).
Proof.
  intros lazy_opts eager_opts.
  set (less := fun a b : Z => ltb a b).
  assert (Hnew : forall opts : list (OptimizedHeap.Opt Z),
            OptimizedHeap.cap (configured opts) = 2 -> 2 <= makeslice_limit ->
            NewOptimizedMinHeap opts
            = Ok (Some (OptimizedHeap.set_h (configured opts) (heap_of less [] 2)), None)).
  { intros opts Hcap Hlim. unfold NewOptimizedMinHeap. fold less.
    rewrite NewOptimizedHeap_served by lia. by rewrite Hcap. }
  assert (Hlazy : 2 <= makeslice_limit ->
                  forall f, capacity_after_inserts (lazy_opts f) [10; 20; 30]
                            = Some (3 + Z.of_nat (growslice_slack 2))).
  { intros Hlim f. unfold capacity_after_inserts.
    rewrite (Hnew (lazy_opts f)) by done. reflexivity. }
  split; [exact Hlazy|]. split.
  - intros f Hserve. unfold capacity_after_inserts.
    pose proof (grown_capacity_gt f 2).
    rewrite (Hnew (eager_opts f)) by (done || lia).
    change (OptimizedHeap.set_h (configured (eager_opts f)) (heap_of less [] 2))
      with (optimized_of less [] 2 2 true false f false).
    assert (Hrun : run OptimizedHeap_call [OpInsert 10; OpInsert 20]
                     (optimized_of less [] 2 2 true false f false)
                   = Ok (optimized_of less [10; 20] 0 2 true false f false,
                         [RetInsert None; RetInsert None]))
      by reflexivity.
    change (map OpInsert [10; 20; 30]) with ([OpInsert 10; OpInsert 20] ++ [OpInsert 30]).
    rewrite run_app, Hrun. cbn [mbind result_bind fst snd].
    rewrite run_cons. cbn [OptimizedHeap_call run].
    rewrite OptimizedHeap_Insert_eager by auto.
    destruct (Heap_Insert_spec less [10; 20] (eager_spare f [10; 20] 0) 30)
      as (d' & -> & Hperm & _).
    cbn [mbind result_bind fst snd OptimizedHeap.h]. f_equal.
    unfold slice.cap, slice.len. cbn [Heap.data heap_of slice.elems slice.spare].
    apply Permutation_length in Hperm. cbn [length] in Hperm. rewrite Hperm.
    rewrite spare_after_append_pred by apply eager_spare_pos.
    unfold eager_spare, grown_capacity. change (llen [10; 20]) with 2.
    destruct (Z.leb_spec (f 2) 2); lia.
  - split; [reflexivity|]. split; [reflexivity|].
    destruct (Z.le_gt_cases 2 makeslice_limit) as [Hlim|Hlim].
    + rewrite !Hlazy by done. intros [H1 H2]. injection H1 as H1. injection H2 as H2. lia.
    + intros [H1 _]. unfold capacity_after_inserts, NewOptimizedMinHeap in H1.
      pose proof (construction_validation_cases (fun a b : Z => ltb a b)
                    (lazy_opts (fun c => c + 10))) as Hcv.
      destruct (OptimizedHeap.NewOptimizedHeap (fun a b : Z => ltb a b)
                  (lazy_opts (fun c => c + 10))) as [[[oh|] [e|]]| |]; try done.
      destruct Hcv as (Hc & _). cbn in Hc. lia.
Qed.

Lemma lazy_insert_skips_growth_function_witness :
  let lazy_opts f := [OptimizedHeap.WithCapacity 2 true;
                      OptimizedHeap.WithGrowthFunction f;
                      OptimizedHeap.UseLazyHeapification] in
  let eager_opts f := [OptimizedHeap.WithCapacity 2 true;
                       OptimizedHeap.WithGrowthFunction f] in
  capacity_after_inserts (rt := doubling_runtime) (lazy_opts (fun c => c + 10)) [10; 20; 30]
  = Some 4 /\
  capacity_after_inserts (rt := doubling_runtime) (lazy_opts (fun c => c + 20)) [10; 20; 30]
  = Some 4 /\
  capacity_after_inserts (rt := doubling_runtime) (eager_opts (fun c => c + 10)) [10; 20; 30]
  = Some 12.
Proof.
  intros lazy_opts eager_opts.
  pose proof (lazy_insert_skips_growth_function (rt := doubling_runtime))
    as (Hlazy & Heager & _).
  split; [|split].
  - by apply (Hlazy ltac:(done) (fun c => c + 10)).
  - by apply (Hlazy ltac:(done) (fun c => c + 20)).
  - by apply (Heager (fun c => c + 10)).
Defined.

(** * Further properties of the code *)

(** ** The index functions *)

(** X1: the index functions of [heap.go] invert each other on the indices
    an [int] holds.  Where the right child of a cell is still an [int], the
    parent of either child of the cell is the cell, and the cell lies before
    its left child, which lies before its right child; and a cell that is
    not the root lies after its parent and is one of its parent's two
    children. *)
Theorem child_parent_indices (i : Z) :
  0 <= i <= max_int ->
  (Heap.rightChildIndex i <= max_int ->
   Heap.parentIndex (Heap.leftChildIndex i) = i /\
   Heap.parentIndex (Heap.rightChildIndex i) = i /\
   i < Heap.leftChildIndex i < Heap.rightChildIndex i) /\
  (0 < i ->
   0 <= Heap.parentIndex i < i /\
   (i = Heap.leftChildIndex (Heap.parentIndex i) \/
    i = Heap.rightChildIndex (Heap.parentIndex i))).
Proof.
  intros Hi.
  assert (Hl : 0 < Heap.leftChildIndex i) by (unfold Heap.leftChildIndex; lia).
  assert (Hr : 0 < Heap.rightChildIndex i) by (unfold Heap.rightChildIndex; lia).
  split.
  - intros _. rewrite !parentIndex_pos by done.
    split; [by apply par_children; auto|]. split; [by apply par_children; auto|].
    unfold Heap.leftChildIndex, Heap.rightChildIndex; lia.
  - intros Hpos. rewrite !parentIndex_pos by done.
    split; [by apply par_bounds|]. by apply par_children.
Qed.

Lemma child_parent_indices_witness :
  0 <= 4 <= max_int /\
  Heap.rightChildIndex 4 <= max_int /\
  Heap.parentIndex (Heap.leftChildIndex 4) = 4 /\
  Heap.parentIndex (Heap.rightChildIndex 4) = 4 /\
  Heap.parentIndex 4 = 1 /\
  (4 = Heap.leftChildIndex (Heap.parentIndex 4) \/
   4 = Heap.rightChildIndex (Heap.parentIndex 4)).
Proof.
  assert (Hi : 0 <= 4 <= max_int) by done.
  destruct (child_parent_indices 4 Hi) as (Hchildren & Hparent).
  destruct Hchildren as (Hl & Hr & _); [done|].
  destruct Hparent as (_ & Hlr); [lia|].
  split; [exact Hi|]. split; [done|]. split; [exact Hl|]. split; [exact Hr|].
  split; [reflexivity|exact Hlr].
Defined.

(** X2: the heap property, which the code checks from a cell towards its
    parent, says the same from a cell towards its children: no left or
    right child inside the array is ranked before its parent. *)
Theorem heap_property_children {T : Type} (h : Heap.t T) :
  heap_property h <->
  (forall i c,
     0 <= i -> c = Heap.leftChildIndex i \/ c = Heap.rightChildIndex i ->
     c < slice.len (Heap.data h) ->
     exists x y, slice.index (Heap.data h) c = Ok x /\
                 slice.index (Heap.data h) i = Ok y /\
                 Heap.less h x y = false).
Proof.
  split.
  - intros Hp i c Hi Hc Hlen.
    assert (Hc0 : 0 < c).
    { unfold Heap.leftChildIndex, Heap.rightChildIndex in Hc. lia. }
    destruct (Hp c) as (x & y & Hx & Hy & Hxy); [lia|].
    rewrite parentIndex_pos in Hy by done.
    replace (par c) with i in Hy by (symmetry; by apply par_children).
    eauto.
  - intros Hc j Hj. pose proof (par_bounds j ltac:(lia)) as Hb.
    rewrite parentIndex_pos by lia.
    apply (Hc (par j) j); [lia| |lia]. by apply par_children; [lia|].
Qed.

(** ** Sifting in a heap *)

Section sifting_in_a_heap.
Context {T : Type} {zt : Zero T}.
Implicit Types (d : list T) (less : T -> T -> bool) (k : nat) (i j : Z).




End sifting_in_a_heap.



(** ** What sifting leaves alone *)

Section sifting_frame.
Context {T : Type} {zt : Zero T}.
Implicit Types (d : list T) (less : T -> T -> bool) (k : nat) (i j : Z).

Lemma heapifyDown_rec_before less k (fuel : nat) : forall i d d',
  0 <= i ->
  Heap.heapifyDown_rec fuel i (heap_of less d k) = Ok (heap_of less d' k) ->
  forall j, 0 <= j < i -> get d' j = get d j.
Proof.
  induction fuel as [|fuel IH]; intros i d d' Hi Hrun j Hj; [done|].
  rewrite heapifyDown_rec_step in Hrun by done.
  destruct (decide (pick less d i = i)) as [Hpick|Hpick].
  - by injection Hrun as <-.
  - destruct (pick_range less d i Hi) as [?|[Hm Hmn]]; [done|].
    assert (H0 : 0 <= pick less d i) by lia.
    rewrite (IH (pick less d i) (exch d i (pick less d i)) d' H0 Hrun) by lia.
    rewrite get_exch by lia.
    destruct (decide (j = pick less d i)); [lia|]. destruct (decide (j = i)); [lia|done].
Qed.

Lemma heapifyUp_loop_after less k (fuel : nat) : forall i d d',
  0 <= i < llen d ->
  Heap.heapifyUp_loop fuel i (heap_of less d k) = Ok (heap_of less d' k) ->
  forall j, i < j -> get d' j = get d j.
Proof.
  induction fuel as [|fuel IH]; intros i d d' Hi Hrun j Hj; [done|].
  rewrite heapifyUp_loop_step in Hrun by done.
  destruct (decide (0 < i /\ less (get d i) (get d (par i)) = true)) as [[H0 _]|_].
  - pose proof (par_bounds i H0) as Hp.
    assert (Hp' : 0 <= par i < llen (exch d i (par i))) by (rewrite llen_exch; lia).
    rewrite (IH (par i) (exch d i (par i)) d' Hp' Hrun) by lia.
    rewrite get_exch by lia.
    destruct (decide (j = par i)); [lia|]. destruct (decide (j = i)); [lia|done].
  - by injection Hrun as <-.
Qed.

Lemma index_same (s s' : slice.t T) j :
  slice.len s' = slice.len s ->
  (0 <= j < slice.len s -> get (slice.elems s') j = get (slice.elems s) j) ->
  slice.index s' j = slice.index s j.
Proof.
  intros Hlen Hget.
  destruct (decide (0 <= j < slice.len s)) as [Hj|Hj].
  - rewrite !index_ok by lia. by rewrite Hget.
  - unfold slice.index. destruct (Z.ltb_spec j 0); [done|].
    unfold slice.len in *.
    rewrite !lookup_ge_None_2 by lia. done.
Qed.
End sifting_frame.

(** X4: sifting stays on its side of the index it starts at.
    [heapifyDown] at an index keeps the length of the array and every cell
    before that index; [heapifyUp] at an index of the array keeps the length
    and every cell after that index. *)
Theorem sifting_stays_on_its_side {T : Type} {zt : Zero T} (h : Heap.t T) (i : Z) :
  0 <= i ->
  (forall h', Heap.heapifyDown i h = Ok h' ->
     slice.len (Heap.data h') = slice.len (Heap.data h) /\
     forall j, j < i -> slice.index (Heap.data h') j = slice.index (Heap.data h) j) /\
  (forall h', i < slice.len (Heap.data h) -> Heap.heapifyUp i h = Ok h' ->
     slice.len (Heap.data h') = slice.len (Heap.data h) /\
     forall j, i < j -> slice.index (Heap.data h') j = slice.index (Heap.data h) j).
Proof.
  intros Hi. destruct h as [[d k] less].
  change (Heap.mk (slice.mk d k) less) with (heap_of less d k).
  split.
  - intros h' Hrun.
    destruct (heapifyDown_spec less k i d Hi) as (d' & Hspec & Hperm & _).
    rewrite Hspec in Hrun. injection Hrun as <-.
    assert (Hlen : slice.len (Heap.data (heap_of less d' k))
                   = slice.len (Heap.data (heap_of less d k))).
    { unfold slice.len. cbn. by rewrite (Permutation_length Hperm). }
    split; [done|]. intros j Hj. apply index_same; [done|]. intros Hj'.
    apply (heapifyDown_rec_before less k (S (length d)) i d d'); [done|exact Hspec|lia].
  - intros h' Hlt Hrun.
    assert (Hi' : 0 <= i < llen d) by (split; [done|exact Hlt]).
    destruct (heapifyUp_spec less k i d Hi') as (d' & Hspec & Hperm & _).
    rewrite Hspec in Hrun. injection Hrun as <-.
    assert (Hlen : slice.len (Heap.data (heap_of less d' k))
                   = slice.len (Heap.data (heap_of less d k))).
    { unfold slice.len. cbn. by rewrite (Permutation_length Hperm). }
    split; [done|]. intros j Hj. apply index_same; [done|]. intros Hj'.
    apply (heapifyUp_loop_after less k (S (Z.to_nat i)) i d d'); [done|exact Hspec|lia].
Qed.

Lemma sifting_stays_on_its_side_witness :
  let h := heap_of Z.ltb [9; 7; 1; 8; 2] 0 in
  0 <= 1 /\
  exists h', Heap.heapifyDown 1 h = Ok h' /\
             slice.index (Heap.data h') 0 = slice.index (Heap.data h) 0.
Proof.
  intros h. split; [lia|].
  exists (heap_of Z.ltb [9; 2; 1; 8; 7] 0).
  assert (Hrun : Heap.heapifyDown 1 h = Ok (heap_of Z.ltb [9; 2; 1; 8; 7] 0))
    by reflexivity.
  split; [exact Hrun|].
  destruct (sifting_stays_on_its_side h 1) as [Hdown _]; [lia|].
  apply (Hdown _ Hrun). lia.
Defined.

(** ** Values are neither lost nor made up *)

Section conservation.
Context {T : Type} {zt : Zero T} {rt : Runtime}.
Implicit Types (d : list T) (less : T -> T -> bool) (k : nat).
Implicit Types (c : Z) (g l hf : bool) (f : Z -> Z).

(** The values of the [Insert] calls. *)
Definition inserted (ops : list (op T)) : list T :=
  omap (fun o => match o with OpInsert v => Some v | OpExtract => None end) ops.

(** The values of the [Insert] calls that returned no error. *)
Fixpoint accepted (ops : list (op T)) (tr : list (ret T)) : list T :=
  match ops, tr with
  | OpInsert v :: ops', RetInsert None :: tr' => v :: accepted ops' tr'
  | _ :: ops', _ :: tr' => accepted ops' tr'
  | _, _ => []
  end.

(** The values that [Extract] calls returned with [found = true]. *)
Definition found (tr : list (ret T)) : list T :=
  omap (fun r => match r with
                 | RetExtract v true => Some v
                 | _ => None
                 end) tr.

Lemma Heap_run_conserves less (ops : list (op T)) : forall d k,
  exists d' k' tr,
    run Heap_call ops (heap_of less d k) = Ok (heap_of less d' k', tr) /\
    length tr = length ops /\
    inserted ops ++ d ≡ₚ found tr ++ d'.
Proof.
  induction ops as [|o ops IH]; intros d k.
  { eexists _, _, _. split; [done|]. split; done. }
  rewrite run_cons. destruct o as [v|]; cbn [Heap_call].
  - destruct (Heap_Insert_spec less d k v) as (d1 & -> & Hperm1 & _).
    cbn [mbind result_bind fst snd].
    destruct (IH d1 (spare_after_append d k)) as (d' & k' & tr & -> & Hlen & Hperm).
    cbn [mbind result_bind fst snd].
    eexists _, _, _. split; [done|]. split; [cbn; by rewrite Hlen|].
    change (inserted (OpInsert v :: ops)) with (v :: inserted ops).
    change (found (RetInsert None :: tr)) with (found tr).
    rewrite <- Hperm, Hperm1. cbn [app]. by rewrite Permutation_middle.
  - destruct d as [|x tl].
    + rewrite Heap_Extract_empty. cbn [mbind result_bind fst snd].
      destruct (IH [] k) as (d' & k' & tr & -> & Hlen & Hperm).
    cbn [mbind result_bind fst snd].
      eexists _, _, _. split; [done|]. split; [cbn; by rewrite Hlen|done].
    + destruct (Heap_Extract_spec less (x :: tl) k) as (d1 & -> & Hperm1 & _); [done|].
      cbn [mbind result_bind fst snd].
      destruct (IH d1 (S k)) as (d' & k' & tr & -> & Hlen & Hperm).
    cbn [mbind result_bind fst snd].
      eexists _, _, _. split; [done|]. split; [cbn; by rewrite Hlen|].
      change (inserted (OpExtract :: ops)) with (inserted ops).
      change (found (RetExtract (get (x :: tl) 0) true :: tr))
        with (get (x :: tl) 0 :: found tr).
      set (r := get (x :: tl) 0) in *.
      cbn [app]. rewrite <- Hperm, <- Hperm1. by rewrite Permutation_middle.
Qed.

Lemma OptimizedHeap_run_conserves less (ops : list (op T)) : forall d k c g l f hf n,
  servable_run f g l n -> llen d + Z.of_nat (length ops) <= n ->
  exists d' k' hf' tr,
    run OptimizedHeap_call ops (optimized_of less d k c g l f hf)
    = Ok (optimized_of less d' k' c g l f hf', tr) /\
    length tr = length ops /\
    accepted ops tr ++ d ≡ₚ found tr ++ d'.
Proof.
  induction ops as [|o ops IH]; intros d k c g l f hf n Hs Hn.
  { eexists _, _, _, _. split; [done|]. split; done. }
  rewrite run_cons. destruct o as [v|]; cbn [OptimizedHeap_call].
  - destruct (OptimizedHeap_Insert_step less d k c g l f hf v n ops Hs Hn)
      as (d1 & k1 & hf1 & e & -> & Hn1 & Hcase).
    cbn [mbind result_bind fst snd].
    destruct (IH d1 k1 c g l f hf1 n Hs Hn1) as (d' & k' & hf' & tr & -> & Hlen & Hperm).
    cbn [mbind result_bind fst snd].
    eexists _, _, _, _. split; [done|]. split; [cbn; by rewrite Hlen|].
    destruct Hcase as [(_ & _ & -> & -> & _)|(_ & -> & Hperm1 & _)].
    + exact Hperm.
    + change (accepted (OpInsert v :: ops) (RetInsert None :: tr))
        with (v :: accepted ops tr).
      change (found (RetInsert None :: tr)) with (found tr).
      rewrite <- Hperm, Hperm1. cbn [app]. by rewrite Permutation_middle.
  - destruct (OptimizedHeap_Extract_step less d k c g l f hf n ops Hn)
      as (d1 & k1 & hf1 & r & -> & Hn1 & Hcase).
    cbn [mbind result_bind fst snd].
    destruct (IH d1 k1 c g l f hf1 n Hs Hn1) as (d' & k' & hf' & tr & -> & Hlen & Hperm).
    cbn [mbind result_bind fst snd].
    eexists _, _, _, _. split; [done|]. split; [cbn; by rewrite Hlen|].
    destruct Hcase as [(-> & -> & _ & _ & ->)|(_ & _ & _ & x & -> & Hperm1 & _)].
    + exact Hperm.
    + cbn [fst snd].
      change (accepted (OpExtract :: ops) (RetExtract x true :: tr))
        with (accepted ops tr).
      change (found (RetExtract x true :: tr)) with (x :: found tr).
      cbn [app]. rewrite <- Hperm, <- Hperm1. by rewrite Permutation_middle.
Qed.
End conservation.

(** X5: a [Heap] neither loses nor makes up values, whatever the
    comparator, order or not.  After any sequence of calls on a new heap,
    every call has returned, and the values inserted are, counted with
    repetitions, the values extracted with [found = true] together with
    the values still in the array. *)
Theorem heap_conserves_values {T : Type} {zt : Zero T} {rt : Runtime}
    (less : T -> T -> bool) (ops : list (op T)) :
  exists h tr,
    run Heap_call ops (Heap.New less) = Ok (h, tr) /\
    length tr = length ops /\
    inserted ops ≡ₚ found tr ++ slice.elems (Heap.data h) /\
    slice.len (Heap.data h)
    = Z.of_nat (length (inserted ops)) - Z.of_nat (length (found tr)).
Proof.
  destruct (Heap_run_conserves less ops [] 0) as (d & k & tr & Hrun & Hlen & Hperm).
  rewrite app_nil_r in Hperm.
  exists (heap_of less d k), tr. split; [exact Hrun|]. split; [exact Hlen|].
  split; [exact Hperm|].
  apply Permutation_length in Hperm. rewrite length_app in Hperm.
  unfold slice.len. cbn [Heap.data heap_of slice.elems]. lia.
Qed.

(** X6: an [OptimizedHeap] neither loses nor makes up values, in either
    mode and whatever the comparator.  After any sequence of calls on a
    heap made by [NewOptimizedHeap], [make] serving the capacities its
    growth asks for, the values of the [Insert] calls that returned no error
    are, counted with repetitions, the values extracted with [found = true]
    together with the values still in the array. *)
Theorem optimized_heap_conserves_values {T : Type} {zt : Zero T} {rt : Runtime}
    (less : T -> T -> bool) (opts : list (OptimizedHeap.Opt T))
    (oh0 : OptimizedHeap.t T) (ops : list (op T)) :
  OptimizedHeap.NewOptimizedHeap less opts = Ok (Some oh0, None) ->
  growth_servable oh0 (Z.of_nat (length ops)) ->
  exists oh tr hp,
    run OptimizedHeap_call ops oh0 = Ok (oh, tr) /\
    OptimizedHeap.h oh = Some hp /\
    length tr = length ops /\
    accepted ops tr ≡ₚ found tr ++ slice.elems (Heap.data hp).
Proof.
  intros Hnew Hs.
  pose proof (construction_validation_cases less opts) as Hcv.
  rewrite Hnew in Hcv. destruct Hcv as (_ & ->).
  set (cfg := configured opts) in *.
  destruct (OptimizedHeap_run_conserves less ops [] (Z.to_nat (OptimizedHeap.cap cfg))
              (OptimizedHeap.cap cfg) (OptimizedHeap.canGrow cfg)
              (OptimizedHeap.useLazy cfg) (OptimizedHeap.growthFunc cfg)
              (OptimizedHeap.heapified cfg) (Z.of_nat (length ops)))
    as (d & k & hf & tr & Hrun & Hlen & Hperm).
  { exact Hs. }
  { change (llen []) with 0. lia. }
  rewrite app_nil_r in Hperm.
  eexists _, tr, _. split; [exact Hrun|]. split; [done|]. split; [exact Hlen|exact Hperm].
Qed.

Lemma optimized_heap_conserves_values_witness :
  let opts := [OptimizedHeap.WithCapacity 2 false; OptimizedHeap.UseLazyHeapification] in
  let ops := [OpInsert 5; OpInsert 3; OpInsert 8; OpExtract; OpInsert 1] in
  exists oh0 oh tr hp,
    OptimizedHeap.NewOptimizedHeap (rt := doubling_runtime) Z.ltb opts
    = Ok (Some oh0, None) /\
    growth_servable (rt := doubling_runtime) oh0 (Z.of_nat (length ops)) /\
    run (OptimizedHeap_call (rt := doubling_runtime)) ops oh0 = Ok (oh, tr) /\
    OptimizedHeap.h oh = Some hp /\
    accepted ops tr ≡ₚ found tr ++ slice.elems (Heap.data hp).
Proof.
  intros opts ops.
  set (oh0 := OptimizedHeap.set_h (configured opts) (heap_of Z.ltb [] 2)).
  assert (Hs : growth_servable (rt := doubling_runtime) oh0 (Z.of_nat (length ops))).
  { apply (growth_servable_bounded oh0 5 10); [|done..].
    intros c Hc. cbn. destruct (Z.ltb_spec c 1024); lia. }
  destruct (optimized_heap_conserves_values (rt := doubling_runtime) Z.ltb opts oh0 ops)
    as (oh & tr & hp & Hrun & Hh & _ & Hperm); [reflexivity|exact Hs|].
  exists oh0, oh, tr, hp. split; [reflexivity|]. split; [exact Hs|]. split; [exact Hrun|].
  split; [exact Hh|exact Hperm].
Defined.

(** ** What [Extract] returns *)

(** X7: for a comparator that is a strict weak order, [Extract] on a
    [Heap] reached by any sequence of calls and holding a value returns
    the root cell with [found = true]; no value held is ranked before it,
    and what is left is what was held without one copy of it. *)
Theorem heap_extract_returns_best {T : Type} {zt : Zero T} {rt : Runtime}
    (less : T -> T -> bool) (ops : list (op T)) :
  StrictWeakOrder less ->
  exists h tr,
    run Heap_call ops (Heap.New less) = Ok (h, tr) /\
    (0 < slice.len (Heap.data h) ->
     exists h' x,
       Heap.Extract h = Ok (h', (x, true)) /\
       slice.index (Heap.data h) 0 = Ok x /\
       (forall y, y ∈ slice.elems (Heap.data h) -> less y x = false) /\
       x :: slice.elems (Heap.data h') ≡ₚ slice.elems (Heap.data h)).
Proof.
  intros Hswo.
  destruct (Heap_run_ordered less ops [] 0) as (d & k & tr & Hrun & Hord).
  { apply ordered_from_nil. }
  exists (heap_of less d k), tr. split; [exact Hrun|].
  cbn [Heap.data heap_of slice.elems]. intros Hlen.
  assert (Hd : d <> []) by (by intros ->).
  destruct (Heap_Extract_spec less d k Hd) as (d' & Hext & Hperm & _).
  exists (heap_of less d' (S k)), (get d 0). split; [exact Hext|].
  split; [by rewrite index_ok|]. split; [by apply root_first|exact Hperm].
Qed.

Lemma heap_extract_returns_best_witness :
  StrictWeakOrder Z.ltb /\
  exists h tr,
    run (Heap_call (rt := doubling_runtime)) [OpInsert 5; OpInsert 3; OpInsert 8]
        (Heap.New Z.ltb) = Ok (h, tr) /\
    Heap.Extract h = Ok (heap_of Z.ltb [5; 8] 2, (3, true)).
Proof.
  split; [apply _|].
  destruct (heap_extract_returns_best (rt := doubling_runtime) Z.ltb
              [OpInsert 5; OpInsert 3; OpInsert 8] _) as (h & tr & Hrun & _).
  exists h, tr. split; [exact Hrun|].
  assert (Hc : run (Heap_call (rt := doubling_runtime))
                 [OpInsert 5; OpInsert 3; OpInsert 8] (Heap.New Z.ltb)
               = Ok (heap_of Z.ltb [3; 5; 8] 1,
                     [RetInsert None; RetInsert None; RetInsert None])) by reflexivity.
  rewrite Hc in Hrun. injection Hrun as <- _. reflexivity.
Defined.

(** X8: for a comparator that is a strict weak order, [Extract] on an
    [OptimizedHeap] reached by any sequence of calls, [make] serving the
    capacities its growth asks for, and holding a value, in lazy mode or
    not, rebuilt or not, returns with [found = true] a value that was held
    and before which no value held is ranked; what is left is what was held
    without one copy of it. *)
Theorem optimized_extract_returns_best {T : Type} {zt : Zero T} {rt : Runtime}
    (less : T -> T -> bool) (opts : list (OptimizedHeap.Opt T))
    (oh0 : OptimizedHeap.t T) (ops : list (op T)) :
  StrictWeakOrder less ->
  OptimizedHeap.NewOptimizedHeap less opts = Ok (Some oh0, None) ->
  growth_servable oh0 (Z.of_nat (length ops)) ->
  exists oh tr hp,
    run OptimizedHeap_call ops oh0 = Ok (oh, tr) /\
    OptimizedHeap.h oh = Some hp /\
    (0 < slice.len (Heap.data hp) ->
     exists oh' hp' x,
       OptimizedHeap.Extract oh = Ok (oh', (x, true)) /\
       OptimizedHeap.h oh' = Some hp' /\
       (forall y, y ∈ slice.elems (Heap.data hp) -> less y x = false) /\
       x :: slice.elems (Heap.data hp') ≡ₚ slice.elems (Heap.data hp)).
Proof.
  intros Hswo Hnew Hs.
  pose proof (construction_validation_cases less opts) as Hcv.
  rewrite Hnew in Hcv. destruct Hcv as (_ & ->).
  set (cfg := configured opts) in *.
  destruct (OptimizedHeap_run_ordered less ops [] (Z.to_nat (OptimizedHeap.cap cfg))
              (OptimizedHeap.cap cfg) (OptimizedHeap.canGrow cfg)
              (OptimizedHeap.useLazy cfg) (OptimizedHeap.growthFunc cfg)
              (OptimizedHeap.heapified cfg) (Z.of_nat (length ops)))
    as (d & k & hf & tr & Hrun & Hord).
  { exact Hs. }
  { change (llen []) with 0. lia. }
  { intros _. apply ordered_from_nil. }
  eexists _, tr, _. split; [exact Hrun|]. split; [done|].
  cbn [Heap.data heap_of slice.elems]. intros Hlen.
  destruct (OptimizedHeap_Extract_cases less d k (OptimizedHeap.cap cfg)
              (OptimizedHeap.canGrow cfg) (OptimizedHeap.useLazy cfg)
              (OptimizedHeap.growthFunc cfg) hf) as (d' & k' & hf' & r & Hext & Hcase).
  destruct Hcase as [(-> & _)|(_ & _ & _ & x & -> & Hperm & Hbest)]; [done|].
  destruct Hbest as [_ Hmax]; [done|exact Hord|].
  eexists _, _, x. split; [exact Hext|]. split; [done|]. split; [exact Hmax|exact Hperm].
Qed.

Lemma optimized_extract_returns_best_witness :
  let opts := [OptimizedHeap.UseLazyHeapification] in
  let ops := [OpInsert 5; OpInsert 3; OpInsert 8] in
  StrictWeakOrder Z.ltb /\
  exists oh0 oh tr hp,
    OptimizedHeap.NewOptimizedHeap (rt := doubling_runtime) Z.ltb opts
    = Ok (Some oh0, None) /\
    growth_servable (rt := doubling_runtime) oh0 (Z.of_nat (length ops)) /\
    run (OptimizedHeap_call (rt := doubling_runtime)) ops oh0 = Ok (oh, tr) /\
    OptimizedHeap.h oh = Some hp /\
    (0 < slice.len (Heap.data hp) ->
     exists oh' hp' x,
       OptimizedHeap.Extract oh = Ok (oh', (x, true)) /\
       OptimizedHeap.h oh' = Some hp' /\
       (forall y, y ∈ slice.elems (Heap.data hp) -> (y <? x) = false) /\
       x :: slice.elems (Heap.data hp') ≡ₚ slice.elems (Heap.data hp)).
Proof.
  intros opts ops. split; [apply _|].
  set (oh0 := OptimizedHeap.set_h (configured opts) (heap_of Z.ltb [] 16)).
  assert (Hs : growth_servable (rt := doubling_runtime) oh0 (Z.of_nat (length ops))).
  { apply (growth_servable_bounded oh0 3 6); [|done..].
    intros c Hc. cbn. destruct (Z.ltb_spec c 1024); lia. }
  destruct (optimized_extract_returns_best (rt := doubling_runtime) Z.ltb opts oh0 ops)
    as (oh & tr & hp & Hrun & Hh & Hbest); [apply _|reflexivity|exact Hs|].
  exists oh0, oh, tr, hp. split; [reflexivity|]. split; [exact Hs|]. split; [exact Hrun|].
  split; [exact Hh|exact Hbest].
Defined.

(** ** Sorted extraction from an optimized heap *)

Section optimized_sorted_extraction.
Context {T : Type} {zt : Zero T} {rt : Runtime}.
Context (less : T -> T -> bool) `{!StrictWeakOrder less}.
Implicit Types (d vals out : list T) (k : nat).
Implicit Types (c : Z) (l hf : bool) (f : Z -> Z).

Lemma OptimizedHeap_run_inserts vals : forall d k c l f hf n,
  servable_run f true l n -> llen d + Z.of_nat (length vals) <= n ->
  (l = false \/ hf = true -> ordered_from less 0 d) ->
  exists d' k' hf',
    run OptimizedHeap_call (map OpInsert vals) (optimized_of less d k c true l f hf)
    = Ok (optimized_of less d' k' c true l f hf',
          replicate (length vals) (RetInsert None)) /\
    d' ≡ₚ vals ++ d /\
    (l = false \/ hf' = true -> ordered_from less 0 d').
Proof.
  induction vals as [|v vals IH]; intros d k c l f hf n Hs Hn Hord.
  { eexists _, _, _. split; [done|]. split; done. }
  cbn [map]. rewrite run_cons. cbn [OptimizedHeap_call].
  destruct (OptimizedHeap_Insert_step less d k c true l f hf v n (map OpInsert vals) Hs)
    as (d1 & k1 & hf1 & e & -> & Hn1 & Hcase).
  { rewrite length_map. exact Hn. }
  rewrite length_map in Hn1.
  destruct Hcase as [(? & _)|(_ & -> & Hperm1 & _ & Hl & He)]; [done|].
  cbn [mbind result_bind fst snd].
  destruct (IH d1 k1 c l f hf1 n Hs Hn1) as (d' & k' & hf' & -> & Hperm & Hord').
  { destruct l.
    - rewrite Hl by done. by intros [|].
    - destruct He as [-> Hkeep]; [done|]. intros _. apply Hkeep; [done|].
      apply Hord. by left. }
  eexists _, _, _. split; [done|]. split; [|done].
  rewrite Hperm, Hperm1. cbn [app]. by rewrite Permutation_middle.
Qed.

Lemma OptimizedHeap_run_extracts (n : nat) : forall d k c g l f hf,
  length d = n ->
  (l = false \/ hf = true -> ordered_from less 0 d) ->
  exists out k' hf',
    run OptimizedHeap_call (replicate n OpExtract) (optimized_of less d k c g l f hf)
    = Ok (optimized_of less [] k' c g l f hf',
          map (fun v => RetExtract v true) out) /\
    out ≡ₚ d /\ by_priority less out.
Proof.
  induction n as [|n IH]; intros d k c g l f hf Hlen Hord.
  { destruct d; [|done]. exists [], k, hf. split; [done|]. split; [done|]. constructor. }
  cbn [replicate]. rewrite run_cons. cbn [OptimizedHeap_call].
  destruct (OptimizedHeap_Extract_cases less d k c g l f hf)
    as (d1 & k1 & hf1 & r & -> & Hcase).
  destruct Hcase as [(-> & _)|(_ & _ & _ & x & -> & Hperm1 & Hbest)]; [done|].
  destruct Hbest as [Hord1 Hmax]; [done|exact Hord|].
  cbn [mbind result_bind fst snd].
  destruct (IH d1 k1 c g l f hf1) as (out & k' & hf' & -> & Hperm & Hsorted).
  { apply Permutation_length in Hperm1. cbn [length] in Hperm1. lia. }
  { by intros _. }
  exists (x :: out), k', hf'. split; [done|]. split; [by rewrite Hperm|].
  constructor; [done|]. apply Forall_forall. intros y Hy.
  apply Hmax. rewrite <- Hperm1, <- Hperm. by right.
Qed.
End optimized_sorted_extraction.

(** X9: for a comparator that is a strict weak order, on an
    [OptimizedHeap] that may grow, lazy or eager, [make] serving the
    capacities its growth asks for, every one of [n] [Insert] calls
    succeeds, and [n] [Extract] calls then return all the values, each with
    [found = true], in an order in which no value is ranked after a value it
    beats; the heap is left empty. *)
Theorem optimized_sorted_extraction {T : Type} {zt : Zero T} {rt : Runtime}
    (less : T -> T -> bool) (opts : list (OptimizedHeap.Opt T))
    (oh0 : OptimizedHeap.t T) (vals : list T) :
  StrictWeakOrder less ->
  OptimizedHeap.NewOptimizedHeap less opts = Ok (Some oh0, None) ->
  OptimizedHeap.canGrow oh0 = true ->
  growth_servable oh0 (Z.of_nat (length vals)) ->
  exists oh out hp,
    run OptimizedHeap_call (map OpInsert vals ++ replicate (length vals) OpExtract) oh0
    = Ok (oh, replicate (length vals) (RetInsert None)
              ++ map (fun v => RetExtract v true) out) /\
    out ≡ₚ vals /\
    by_priority less out /\
    OptimizedHeap.h oh = Some hp /\
    slice.elems (Heap.data hp) = [].
Proof.
  intros Hswo Hnew Hg Hs.
  pose proof (construction_validation_cases less opts) as Hcv.
  rewrite Hnew in Hcv. destruct Hcv as (_ & ->).
  unfold growth_servable in Hs.
  cbn [OptimizedHeap.canGrow OptimizedHeap.useLazy OptimizedHeap.growthFunc
       OptimizedHeap.set_h] in Hg, Hs.
  set (cfg := configured opts) in *. unfold OptimizedHeap.set_h. rewrite Hg in *.
  change (OptimizedHeap.mk (Some (heap_of less [] ?k)) ?c true ?l ?f ?hf)
    with (optimized_of less [] k c true l f hf).
  rewrite run_app.
  destruct (OptimizedHeap_run_inserts less vals [] (Z.to_nat (OptimizedHeap.cap cfg))
              (OptimizedHeap.cap cfg) (OptimizedHeap.useLazy cfg)
              (OptimizedHeap.growthFunc cfg) (OptimizedHeap.heapified cfg)
              (Z.of_nat (length vals)))
    as (d & k & hf & -> & Hperm & Hord).
  { exact Hs. }
  { change (llen []) with 0. lia. }
  { intros _. apply ordered_from_nil. }
  cbn [mbind result_bind fst snd]. rewrite app_nil_r in Hperm.
  destruct (OptimizedHeap_run_extracts less (length vals) d k (OptimizedHeap.cap cfg) true
              (OptimizedHeap.useLazy cfg) (OptimizedHeap.growthFunc cfg) hf)
    as (out & k' & hf' & -> & Hperm' & Hsorted).
  { by apply Permutation_length. } { exact Hord. }
  cbn [mbind result_bind fst snd].
  eexists _, out, _. split; [done|]. split; [by rewrite Hperm'|]. split; [done|].
  split; done.
Qed.

Lemma optimized_sorted_extraction_witness :
  let opts := [OptimizedHeap.WithCapacity 2 true] in
  StrictWeakOrder Z.ltb /\
  exists oh0 oh,
    OptimizedHeap.NewOptimizedHeap (rt := doubling_runtime) Z.ltb opts
    = Ok (Some oh0, None) /\
    OptimizedHeap.canGrow oh0 = true /\
    growth_servable (rt := doubling_runtime) oh0 5 /\
    run (OptimizedHeap_call (rt := doubling_runtime))
        (map OpInsert [5; 3; 8; 1; 2] ++ replicate 5 OpExtract) oh0
    = Ok (oh, replicate 5 (RetInsert None)
              ++ map (fun v => RetExtract v true) [1; 2; 3; 5; 8]).
Proof.
  intros opts. split; [apply _|].
  set (oh0 := OptimizedHeap.set_h (configured opts) (heap_of Z.ltb [] 2)).
  assert (Hs : growth_servable (rt := doubling_runtime) oh0 5).
  { apply (growth_servable_bounded oh0 5 10); [|done..].
    intros c Hc. cbn. destruct (Z.ltb_spec c 1024); lia. }
  destruct (optimized_sorted_extraction (rt := doubling_runtime) Z.ltb opts oh0
              [5; 3; 8; 1; 2]) as (oh & out & hp & Hrun & _);
    [apply _|reflexivity|reflexivity|exact Hs|].
  exists oh0.
  assert (Hc : exists oh1,
             run (OptimizedHeap_call (rt := doubling_runtime))
               (map OpInsert [5; 3; 8; 1; 2] ++ replicate 5 OpExtract) oh0
             = Ok (oh1, replicate 5 (RetInsert None)
                        ++ map (fun v => RetExtract v true) [1; 2; 3; 5; 8]))
    by (eexists; vm_compute; reflexivity).
  destruct Hc as [oh1 Hc]. exists oh1.
  split; [reflexivity|]. split; [reflexivity|]. split; [exact Hs|exact Hc].
Defined.

(** ** When [Insert] is refused *)

(** X10: what [OptimizedHeap.Insert] returns on a heap, by cases.  When
    [make] serves the capacity the call asks for, it returns; its only error
    is [ErrCapacityReached], returned exactly when growth is disallowed and
    the slice is full, and then the heap is as it was; when it returns no
    error the array is longer by one, and the policy fields and the
    comparator are as they were.  When an eager heap that may grow is full
    and its growth function (returning an [int]) asks for a capacity [make]
    does not serve, the call panics in [make]. *)
Theorem optimized_insert_refused_iff {T : Type} {zt : Zero T} {rt : Runtime}
    (oh : OptimizedHeap.t T) (hp : Heap.t T) (v : T) :
  OptimizedHeap.h oh = Some hp ->
  (growth_served oh hp ->
   exists oh' e,
     OptimizedHeap.Insert v oh = Ok (oh', e) /\
     (e = None \/ e = Some ErrCapacityReached) /\
     (e = Some ErrCapacityReached <->
      OptimizedHeap.canGrow oh = false /\
      slice.cap (Heap.data hp) <= slice.len (Heap.data hp)) /\
     (e = Some ErrCapacityReached -> oh' = oh) /\
     (e = None ->
      exists hp',
        OptimizedHeap.h oh' = Some hp' /\
        slice.len (Heap.data hp') = slice.len (Heap.data hp) + 1 /\
        Heap.less hp' = Heap.less hp /\
        OptimizedHeap.cap oh' = OptimizedHeap.cap oh /\
        OptimizedHeap.canGrow oh' = OptimizedHeap.canGrow oh /\
        OptimizedHeap.useLazy oh' = OptimizedHeap.useLazy oh /\
        OptimizedHeap.growthFunc oh' = OptimizedHeap.growthFunc oh)) /\
  (OptimizedHeap.useLazy oh = false -> OptimizedHeap.canGrow oh = true ->
   slice.len (Heap.data hp) = slice.cap (Heap.data hp) ->
   makeslice_limit
   < grown_capacity (OptimizedHeap.growthFunc oh) (slice.cap (Heap.data hp)) ->
   OptimizedHeap.growthFunc oh (slice.cap (Heap.data hp)) <= max_int ->
   OptimizedHeap.Insert v oh = Panic).
Proof.
  intros Hh. split.
  - intros Hs. destruct oh as [h0 c g l f hf], hp as [[d k] less].
    cbn [OptimizedHeap.h] in Hh. subst h0.
    change (Heap.mk (slice.mk d k) less) with (heap_of less d k) in Hs.
    apply growth_served_now in Hs.
    cbn [OptimizedHeap.cap OptimizedHeap.canGrow OptimizedHeap.useLazy
         OptimizedHeap.growthFunc Heap.data Heap.less] in *.
    unfold slice.cap, slice.len. cbn [slice.elems slice.spare].
    change (OptimizedHeap.mk (Some (Heap.mk (slice.mk d k) less)) c g l f hf)
      with (optimized_of less d k c g l f hf).
    destruct (OptimizedHeap_Insert_cases less d k c g l f hf v Hs)
      as (d' & k' & hf' & e & Hrun & Hcase).
    eexists _, e. split; [exact Hrun|].
    destruct Hcase as [(-> & -> & -> & -> & -> & ->)|(Hg & -> & Hperm & _)].
    + split; [by right|]. split; [split; [intros _; split; [done|lia]|done]|].
      split; [done|]. done.
    + split; [by left|]. split.
      { split; [done|]. intros [-> Hfull]. destruct Hg as [|Hk]; [done|lia]. }
      split; [done|]. intros _. eexists. split; [done|].
      cbn [Heap.data Heap.less heap_of slice.elems].
      apply Permutation_length in Hperm. cbn [length] in Hperm.
      split; [lia|]. done.
  - intros Hl Hg Hfull Hserve _. rewrite (optimized_of_eta oh hp Hh), Hl, Hg.
    destruct hp as [[d k] less].
    unfold slice.cap, slice.len in *. cbn [Heap.data Heap.less slice.elems slice.spare] in *.
    assert (k = 0%nat) as -> by lia. rewrite Z.add_0_r in Hserve.
    by apply OptimizedHeap_Insert_eager_panic.
Qed.

Lemma optimized_insert_refused_iff_witness :
  let full := optimized_of Z.ltb [3; 5] 0 2 false true (fun c => c * 2) false in
  let eager := optimized_of Z.ltb [3; 5] 0 2 true false (fun c => c * 2) false in
  let greedy := optimized_of Z.ltb [3; 5] 0 2 true false (fun c => 2 ^ 62) false in
  OptimizedHeap.Insert (rt := doubling_runtime) 7 full = Ok (full, Some ErrCapacityReached) /\
  (exists oh' hp',
     OptimizedHeap.Insert (rt := doubling_runtime) 7 eager = Ok (oh', None) /\
     OptimizedHeap.h oh' = Some hp' /\
     slice.len (Heap.data hp') = 3) /\
  OptimizedHeap.Insert (rt := doubling_runtime) 7 greedy = Panic.
Proof.
  intros full eager greedy. split; [|split].
  - destruct (proj1 (optimized_insert_refused_iff (rt := doubling_runtime) full
                       (heap_of Z.ltb [3; 5] 0) 7 eq_refl))
      as (oh' & e & Hrun & _ & Hiff & Hsame & _).
    { by intros ?. }
    assert (He : e = Some ErrCapacityReached).
    { apply Hiff. split; [reflexivity|]. unfold slice.cap, slice.len. simpl. lia. }
    rewrite Hrun, He. by rewrite (Hsame He).
  - destruct (proj1 (optimized_insert_refused_iff (rt := doubling_runtime) eager
                       (heap_of Z.ltb [3; 5] 0) 7 eq_refl))
      as (oh' & e & Hrun & _ & Hiff & _ & Hok).
    { by intros _ _ _. }
    destruct e as [e|].
    { destruct (proj1 Hiff) as [Hg _]; [|done].
      assert (Hc : OptimizedHeap.Insert (rt := doubling_runtime) 7 eager
                   = Ok (optimized_of Z.ltb [3; 5; 7] 1 2 true false (fun c => c * 2) false,
                         None)) by reflexivity.
      rewrite Hc in Hrun. by injection Hrun. }
    destruct (Hok eq_refl) as (hp' & Hh' & Hlen & _).
    exists oh', hp'. split; [exact Hrun|]. split; [exact Hh'|exact Hlen].
  - by apply (proj2 (optimized_insert_refused_iff (rt := doubling_runtime) greedy
                       (heap_of Z.ltb [3; 5] 0) 7 eq_refl)).
Defined.

(** ** The capacity over time *)

Section capacity.
Context {T : Type} {zt : Zero T} {rt : Runtime}.
Implicit Types (d : list T) (less : T -> T -> bool) (k : nat).
Implicit Types (c : Z) (g l hf : bool) (f : Z -> Z).

Lemma OptimizedHeap_Insert_capacity less d k c g l f hf v :
  servable_now f d k g l ->
  exists d' k' hf' e,
    OptimizedHeap.Insert v (optimized_of less d k c g l f hf)
    = Ok (optimized_of less d' k' c g l f hf', e) /\
    llen d' <= llen d + 1 /\
    llen d + Z.of_nat k <= llen d' + Z.of_nat k' /\
    (k <> 0%nat -> llen d' + Z.of_nat k' = llen d + Z.of_nat k).
Proof.
  intros Hs. destruct (decide (g = true \/ k <> 0%nat)) as [Hg|Hg].
  - destruct l.
    + rewrite OptimizedHeap_Insert_lazy by done.
      eexists _, _, _, _. split; [done|].
      rewrite llen_app. change (llen [v]) with 1. split; [lia|].
      destruct k as [|k]; [|rewrite spare_after_append_pred by done; lia].
      split; [lia|done].
    + rewrite OptimizedHeap_Insert_eager;
        [|done|intros Hk; destruct Hg as [Hg|Hg]; [by apply Hs|done]].
      destruct (Heap_Insert_spec less d (eager_spare f d k) v) as (d' & -> & Hperm & _).
      eexists _, _, _, _. split; [done|].
      apply Permutation_length in Hperm. cbn [length] in Hperm.
      split; [unfold llen; lia|].
      rewrite spare_after_append_pred by apply eager_spare_pos.
      pose proof (eager_spare_pos f d k) as Hpos.
      destruct k as [|k].
      * split; [|done]. unfold eager_spare in *. unfold llen in *.
        destruct (Z.leb_spec (f (Z.of_nat (length d))) (Z.of_nat (length d))); lia.
      * rewrite eager_spare_nonzero by done. unfold llen. lia.
  - assert (g = false /\ k = 0%nat) as [-> ->].
    { destruct g; [by destruct Hg; left|]. split; [done|].
      destruct k; [done|]. destruct Hg. by right. }
    rewrite OptimizedHeap_Insert_rejected.
    eexists _, _, _, _. split; [done|]. split; [lia|]. split; [lia|done].
Qed.

Lemma OptimizedHeap_run_capacity less (ops : list (op T)) : forall d k c g l f hf n,
  servable_run f g l n -> llen d + Z.of_nat (length ops) <= n ->
  exists d' k' hf' tr,
    run OptimizedHeap_call ops (optimized_of less d k c g l f hf)
    = Ok (optimized_of less d' k' c g l f hf', tr) /\
    llen d + Z.of_nat k <= llen d' + Z.of_nat k'.
Proof.
  induction ops as [|o ops IH]; intros d k c g l f hf n Hs Hn.
  { eexists _, _, _, _. split; [done|lia]. }
  rewrite run_cons. destruct o as [v|]; cbn [OptimizedHeap_call].
  - destruct (OptimizedHeap_Insert_capacity less d k c g l f hf v)
      as (d1 & k1 & hf1 & e & -> & Hlen1 & Hcap1 & _).
    { apply (servable_run_now f d k g l n Hs). cbn [length] in Hn. lia. }
    cbn [mbind result_bind fst snd].
    destruct (IH d1 k1 c g l f hf1 n Hs) as (d' & k' & hf' & tr & -> & Hcap).
    { cbn [length] in Hn. lia. }
    eexists _, _, _, _. split; [done|lia].
  - destruct (OptimizedHeap_Extract_step less d k c g l f hf n ops Hn)
      as (d1 & k1 & hf1 & r & -> & Hn1 & Hcase).
    cbn [mbind result_bind fst snd].
    destruct (IH d1 k1 c g l f hf1 n Hs Hn1) as (d' & k' & hf' & tr & -> & Hcap).
    eexists _, _, _, _. split; [done|].
    destruct Hcase as [(-> & -> & -> & _)|(_ & -> & _ & x & _ & Hperm & _)]; [done|].
    apply Permutation_length in Hperm. cbn [length] in Hperm. unfold llen in *. lia.
Qed.
End capacity.

(** X11: the calls never shrink the backing slice and never change the
    configuration.  After any sequence of calls on an [OptimizedHeap] that
    owns a heap, in either mode, [make] serving the capacities its growth
    asks for, the capacity of the slice is at least what it was, the array
    fits in it, and the requested capacity, the growth permission, the lazy
    mode, the growth function and the comparator are those it started
    with. *)
Theorem capacity_never_shrinks {T : Type} {zt : Zero T} {rt : Runtime}
    (oh : OptimizedHeap.t T) (hp : Heap.t T) (ops : list (op T)) :
  OptimizedHeap.h oh = Some hp ->
  growth_servable oh (slice.len (Heap.data hp) + Z.of_nat (length ops)) ->
  exists oh' tr hp',
    run OptimizedHeap_call ops oh = Ok (oh', tr) /\
    OptimizedHeap.h oh' = Some hp' /\
    slice.cap (Heap.data hp) <= slice.cap (Heap.data hp') /\
    slice.len (Heap.data hp') <= slice.cap (Heap.data hp') /\
    Heap.less hp' = Heap.less hp /\
    OptimizedHeap.cap oh' = OptimizedHeap.cap oh /\
    OptimizedHeap.canGrow oh' = OptimizedHeap.canGrow oh /\
    OptimizedHeap.useLazy oh' = OptimizedHeap.useLazy oh /\
    OptimizedHeap.growthFunc oh' = OptimizedHeap.growthFunc oh.
Proof.
  intros Hh Hs. destruct oh as [h0 c g l f hf], hp as [[d k] less].
  cbn [OptimizedHeap.h] in Hh. subst h0.
  change (OptimizedHeap.mk (Some (Heap.mk (slice.mk d k) less)) c g l f hf)
    with (optimized_of less d k c g l f hf).
  destruct (OptimizedHeap_run_capacity less ops d k c g l f hf
              (llen d + Z.of_nat (length ops)) Hs)
    as (d' & k' & hf' & tr & Hrun & Hcap); [lia|].
  eexists _, tr, _. split; [exact Hrun|]. split; [done|].
  unfold slice.cap, slice.len. cbn [Heap.data Heap.less heap_of slice.elems slice.spare].
  unfold llen in Hcap. split; [lia|]. split; [lia|]. done.
Qed.

Lemma capacity_never_shrinks_witness :
  let oh := optimized_of Z.ltb [3; 5] 0 2 true true (fun c => c * 2) false in
  let ops := [OpInsert 7; OpExtract; OpExtract; OpExtract] in
  OptimizedHeap.h oh = Some (heap_of Z.ltb [3; 5] 0) /\
  growth_servable (rt := doubling_runtime) oh (2 + Z.of_nat (length ops)) /\
  exists oh' tr hp',
    run (OptimizedHeap_call (rt := doubling_runtime)) ops oh = Ok (oh', tr) /\
    OptimizedHeap.h oh' = Some hp' /\
    2 <= slice.cap (Heap.data hp').
Proof.
  intros oh ops.
  assert (Hs : growth_servable (rt := doubling_runtime) oh (2 + Z.of_nat (length ops))).
  { apply (growth_servable_bounded oh 6 12); [|done..]. intros c Hc. cbn. lia. }
  split; [reflexivity|]. split; [exact Hs|].
  destruct (capacity_never_shrinks (rt := doubling_runtime) oh (heap_of Z.ltb [3; 5] 0) ops)
    as (oh' & tr & hp' & Hrun & Hh & Hcap & _); [reflexivity|exact Hs|].
  exists oh', tr, hp'. split; [exact Hrun|]. split; [exact Hh|exact Hcap].
Defined.

(** ** Lazy insertion *)

Section lazy_insertion.
Context {T : Type} {zt : Zero T} {rt : Runtime}.
Implicit Types (d vals : list T) (less : T -> T -> bool) (k : nat).
Implicit Types (c : Z) (g hf : bool) (f : Z -> Z).

Lemma OptimizedHeap_run_lazy_inserts less vals : forall d k c g f hf,
  g = true \/ (length vals <= k)%nat ->
  exists k',
    run OptimizedHeap_call (map OpInsert vals) (optimized_of less d k c g true f hf)
    = Ok (optimized_of less (d ++ vals) k' c g true f
            (match vals with [] => hf | _ => false end),
          replicate (length vals) (RetInsert None)).
Proof.
  induction vals as [|v vals IH]; intros d k c g f hf Hroom.
  { exists k. by rewrite app_nil_r. }
  cbn [map]. rewrite run_cons. cbn [OptimizedHeap_call].
  rewrite OptimizedHeap_Insert_lazy by (cbn [length] in Hroom; destruct Hroom; [auto|right; lia]).
  cbn [mbind result_bind fst snd].
  destruct (IH (d ++ [v]) (spare_after_append d k) c g f false) as (k' & ->).
  { destruct Hroom as [|Hroom]; [by left|right]. cbn [length] in Hroom.
    rewrite spare_after_append_pred by lia. lia. }
  exists k'. cbn [mbind result_bind fst snd]. rewrite <- app_assoc. cbn [app length replicate].
  by destruct vals.
Qed.
End lazy_insertion.

(** X12: lazy insertion keeps the order of arrival.  On a lazy heap made
    by [NewOptimizedHeap] that may grow, or whose capacity the values fit
    in, a burst of [Insert] calls all succeed and leave in the backing
    array exactly the values, in the order inserted, whatever the
    comparator; the heap is marked not rebuilt as soon as one value is
    inserted. *)
Theorem lazy_inserts_keep_arrival_order {T : Type} {zt : Zero T} {rt : Runtime}
    (less : T -> T -> bool) (opts : list (OptimizedHeap.Opt T))
    (oh0 : OptimizedHeap.t T) (vals : list T) :
  OptimizedHeap.NewOptimizedHeap less opts = Ok (Some oh0, None) ->
  OptimizedHeap.useLazy oh0 = true ->
  OptimizedHeap.canGrow oh0 = true \/ Z.of_nat (length vals) <= OptimizedHeap.cap oh0 ->
  exists oh hp,
    run OptimizedHeap_call (map OpInsert vals) oh0
    = Ok (oh, replicate (length vals) (RetInsert None)) /\
    OptimizedHeap.h oh = Some hp /\
    slice.elems (Heap.data hp) = vals /\
    (vals <> [] -> OptimizedHeap.heapified oh = false).
Proof.
  intros Hnew Hl Hroom.
  pose proof (construction_validation_cases less opts) as Hcv.
  rewrite Hnew in Hcv. destruct Hcv as (Hc & ->).
  cbn [OptimizedHeap.canGrow OptimizedHeap.useLazy OptimizedHeap.cap
       OptimizedHeap.set_h] in *.
  set (cfg := configured opts) in *. unfold OptimizedHeap.set_h. rewrite Hl.
  change (OptimizedHeap.mk (Some (heap_of less [] ?k)) ?c ?g true ?f ?hf)
    with (optimized_of less [] k c g true f hf).
  destruct (OptimizedHeap_run_lazy_inserts less vals [] (Z.to_nat (OptimizedHeap.cap cfg))
              (OptimizedHeap.cap cfg) (OptimizedHeap.canGrow cfg)
              (OptimizedHeap.growthFunc cfg) (OptimizedHeap.heapified cfg)) as (k' & ->).
  { destruct Hroom as [|Hroom]; [by left|right; lia]. }
  eexists _, _. split; [done|]. split; [done|]. split; [done|].
  cbn [OptimizedHeap.heapified optimized_of]. by destruct vals.
Qed.

Lemma lazy_inserts_keep_arrival_order_witness :
  let opts := [OptimizedHeap.WithCapacity 3 false; OptimizedHeap.UseLazyHeapification] in
  exists oh0 oh hp,
    OptimizedHeap.NewOptimizedHeap (rt := doubling_runtime) Z.ltb opts
    = Ok (Some oh0, None) /\
    OptimizedHeap.useLazy oh0 = true /\
    run (OptimizedHeap_call (rt := doubling_runtime)) (map OpInsert [5; 3; 8]) oh0
    = Ok (oh, replicate 3 (RetInsert None)) /\
    OptimizedHeap.h oh = Some hp /\
    slice.elems (Heap.data hp) = [5; 3; 8].
Proof.
  intros opts.
  set (oh0 := OptimizedHeap.set_h (configured opts) (heap_of Z.ltb [] 3)).
  destruct (lazy_inserts_keep_arrival_order (rt := doubling_runtime) Z.ltb opts oh0
              [5; 3; 8]) as (oh & hp & Hrun & Hh & Helems & _);
    [reflexivity|reflexivity|right; simpl; lia|].
  exists oh0, oh, hp. split; [reflexivity|]. split; [reflexivity|].
  split; [exact Hrun|]. split; [exact Hh|exact Helems].
Defined.

(** ** The provided options *)

(** The three options the package provides, by name. *)
Inductive provided_option : Type :=
| Capacity (cap : Z) (canGrow : bool)
| GrowthFunction (growthFunc : Z -> Z)
| LazyHeapification.

Definition to_Opt {T : Type} (o : provided_option) : OptimizedHeap.Opt T :=
  match o with
  | Capacity cap canGrow => OptimizedHeap.WithCapacity cap canGrow
  | GrowthFunction growthFunc => OptimizedHeap.WithGrowthFunction growthFunc
  | LazyHeapification => OptimizedHeap.UseLazyHeapification
  end.

(** The arguments of the [WithCapacity] options of a list, in order. *)
Definition capacities (os : list provided_option) : list (Z * bool) :=
  omap (fun o => match o with Capacity c g => Some (c, g) | _ => None end) os.

(** The arguments of the [WithGrowthFunction] options of a list, in order. *)
Definition growth_functions (os : list provided_option) : list (Z -> Z) :=
  omap (fun o => match o with GrowthFunction f => Some f | _ => None end) os.

(** Whether [UseLazyHeapification] is in a list. *)
Definition asks_lazy (os : list provided_option) : bool :=
  existsb (fun o => match o with LazyHeapification => true | _ => false end) os.

Lemma configured_snoc {T : Type} (opts : list (OptimizedHeap.Opt T)) o :
  configured (opts ++ [o]) = o (configured opts).
Proof. unfold configured. by rewrite fold_left_app. Qed.

(** X13: on conflicting options the last one wins, and options on
    different fields do not disturb each other.  For any list of the three
    provided options, the configuration [NewOptimizedHeap] validates has
    the capacity and growth permission of the last [WithCapacity] (16 and
    permitted when there is none), the growth function of the last
    [WithGrowthFunction] (the default one when there is none), lazy mode
    exactly when [UseLazyHeapification] occurs, no heap yet and the mark
    not set; construction succeeds exactly when that capacity is at least
    one and one that [make] serves, and panics in [make] exactly when it is
    at least one and beyond what [make] serves. *)
Theorem provided_options_last_wins {T : Type} {zt : Zero T} {rt : Runtime}
    (less : T -> T -> bool) (os : list provided_option) :
  let c := default 16 (fst <$> last (capacities os)) in
  configured (T := T) (map to_Opt os)
  = OptimizedHeap.mk None c
      (default true (snd <$> last (capacities os)))
      (asks_lazy os)
      (default (OptimizedHeap.growthFunc (T := T) OptimizedHeap.defaultOptimizedHeap)
               (last (growth_functions os)))
      false /\
  (1 <= c <= makeslice_limit <->
   exists oh, OptimizedHeap.NewOptimizedHeap less (map to_Opt os) = Ok (Some oh, None)) /\
  (1 <= c /\ makeslice_limit < c <->
   OptimizedHeap.NewOptimizedHeap less (map to_Opt os) = Panic).
Proof.
  intros c.
  assert (Hcfg : configured (T := T) (map to_Opt os)
                 = OptimizedHeap.mk None c
                     (default true (snd <$> last (capacities os)))
                     (asks_lazy os)
                     (default (OptimizedHeap.growthFunc (T := T)
                                 OptimizedHeap.defaultOptimizedHeap)
                              (last (growth_functions os)))
                     false).
  { subst c. induction os as [|o os IH] using rev_ind; [done|].
    rewrite map_app. cbn [map]. rewrite configured_snoc, IH.
    unfold capacities, growth_functions, asks_lazy.
    rewrite !omap_app, existsb_app.
    destruct o as [c g|f|]; simpl.
    - rewrite last_snoc, !app_nil_r, orb_false_r. done.
    - rewrite last_snoc, !app_nil_r, orb_false_r. done.
    - rewrite !app_nil_r, orb_true_r. done. }
  split; [exact Hcfg|].
  pose proof (construction_validation_cases less (map to_Opt os)) as Hcv.
  rewrite Hcfg in Hcv. cbn [OptimizedHeap.cap] in Hcv.
  fold c in Hcv.
  destruct (OptimizedHeap.NewOptimizedHeap less (map to_Opt os))
    as [[[oh|] [e|]]| |]; try done.
  - destruct Hcv as [Hc _]. split; [split; [eauto|done]|]. split; [lia|done].
  - split; [split; [lia|]; by intros [? ?]|]. split; [lia|done].
  - split; [split; [lia|]; by intros [? ?]|]. split; [done|]. by intros _.
Qed.

(** ** An eager optimized heap is a heap *)

Section eager_is_a_heap.
Context {T : Type} {zt : Zero T} {rt : Runtime}.
Implicit Types (d : list T) (less : T -> T -> bool) (k : nat).
Implicit Types (c : Z) (hf : bool) (f : Z -> Z).

Lemma heapifyUp_loop_spare less (fuel : nat) : forall i d d' k k2,
  0 <= i < llen d ->
  Heap.heapifyUp_loop fuel i (heap_of less d k) = Ok (heap_of less d' k) ->
  Heap.heapifyUp_loop fuel i (heap_of less d k2) = Ok (heap_of less d' k2).
Proof.
  induction fuel as [|fuel IH]; intros i d d' k k2 Hi Hrun; [done|].
  rewrite heapifyUp_loop_step in Hrun |- * by done.
  destruct (decide (0 < i /\ less (get d i) (get d (par i)) = true)) as [[H0 _]|_].
  - pose proof (par_bounds i H0). apply (IH _ _ _ k); [|done].
    rewrite llen_exch. lia.
  - by injection Hrun as <-.
Qed.

Lemma heapifyDown_rec_spare less (fuel : nat) : forall i d d' k k2,
  0 <= i ->
  Heap.heapifyDown_rec fuel i (heap_of less d k) = Ok (heap_of less d' k) ->
  Heap.heapifyDown_rec fuel i (heap_of less d k2) = Ok (heap_of less d' k2).
Proof.
  induction fuel as [|fuel IH]; intros i d d' k k2 Hi Hrun; [done|].
  rewrite heapifyDown_rec_step in Hrun |- * by done.
  destruct (decide (pick less d i = i)) as [_|Hpick].
  - by injection Hrun as <-.
  - destruct (pick_range less d i Hi) as [?|[Hm _]]; [done|].
    apply (IH _ _ _ k); [lia|done].
Qed.

(** The cells after [Heap.Insert], and after [Heap.Extract] on a heap that
    holds a value, as decided with no spare capacity at hand. *)
Definition cells_after_Insert less d (v : T) : list T :=
  match Heap.Insert v (heap_of less d 0) with
  | Ok (h, _) => slice.elems (Heap.data h)
  | _ => d ++ [v]
  end.

Definition cells_after_Extract less d : list T :=
  match Heap.Extract (heap_of less d 0) with
  | Ok (h, _) => slice.elems (Heap.data h)
  | _ => d
  end.

Lemma Heap_Insert_unfold less d k v :
  Heap.Insert v (heap_of less d k)
  = (h ← Heap.heapifyUp (llen d) (heap_of less (d ++ [v]) (spare_after_append d k));
     Ok (h, None)).
Proof.
  unfold Heap.Insert. cbn [Heap.data heap_of Heap.set_data Heap.less].
  rewrite append_eq.
  replace (slice.len _ - 1) with (llen d); [done|].
  unfold slice.len, llen. cbn. rewrite length_app. cbn. lia.
Qed.

Lemma Heap_Insert_cells less d k v :
  Heap.Insert v (heap_of less d k)
  = Ok (heap_of less (cells_after_Insert less d v) (spare_after_append d k), None).
Proof.
  assert (Hi : 0 <= llen d < llen (d ++ [v])).
  { rewrite llen_app. change (llen [v]) with 1. unfold llen. lia. }
  unfold cells_after_Insert. rewrite !Heap_Insert_unfold.
  destruct (heapifyUp_spec less (spare_after_append d 0) (llen d) (d ++ [v]) Hi)
    as (d' & Hrun & _).
  rewrite Hrun. cbn [mbind result_bind Heap.data heap_of slice.elems].
  unfold Heap.heapifyUp in *.
  by rewrite (heapifyUp_loop_spare less _ _ _ d' _ (spare_after_append d k) Hi Hrun).
Qed.

Lemma Heap_Extract_unfold less d k :
  d <> [] ->
  Heap.Extract (heap_of less d k)
  = (h ← Heap.heapifyDown 0 (heap_of less (without_root d) (S k));
     Ok (h, (get d 0, true))).
Proof.
  intros Hd.
  assert (Hn : 0 < llen d) by (destruct d; [done|unfold llen; cbn; lia]).
  unfold Heap.Extract. cbn [Heap.data heap_of Heap.set_data Heap.less].
  change (slice.len {| slice.elems := d; slice.spare := k |}) with (llen d).
  destruct (Z.eqb_spec (llen d) 0); [lia|].
  rewrite !index_ok by (change (slice.len _) with (llen d); lia).
  cbn [mbind result_bind slice.elems].
  rewrite store_ok by (change (slice.len _) with (llen d); lia).
  cbn [mbind result_bind slice.elems slice.spare].
  unfold slice.reslice_to. cbn [slice.elems slice.spare].
  change (slice.len _) with (llen (<[Z.to_nat 0:=get d (llen d - 1)]> d)).
  unfold llen at 2 3. rewrite length_insert. fold (llen d).
  destruct (Z.leb_spec 0 (llen d - 1)); [|lia].
  destruct (Z.leb_spec (llen d - 1) (llen d)); [|lia].
  cbn [andb mbind result_bind].
  match goal with
  | |- Heap.heapifyDown 0 ?h ≫= _ = _ =>
      replace h with (heap_of less (without_root d) (S k))
  end; [done|].
  unfold heap_of, Heap.set_data, without_root. cbn [Heap.less]. do 2 f_equal.
  unfold llen. rewrite length_insert. lia.
Qed.

Lemma Heap_Extract_cells less d k :
  d <> [] ->
  Heap.Extract (heap_of less d k)
  = Ok (heap_of less (cells_after_Extract less d) (S k), (get d 0, true)).
Proof.
  intros Hd. unfold cells_after_Extract. rewrite !Heap_Extract_unfold by done.
  destruct (heapifyDown_spec less 1 0 (without_root d)) as (d' & Hrun & _); [lia|].
  rewrite Hrun. cbn [mbind result_bind Heap.data heap_of slice.elems].
  unfold Heap.heapifyDown in *. cbn [Heap.data heap_of slice.elems] in *.
  by rewrite (heapifyDown_rec_spare less _ 0 _ d' 1%nat (S k) ltac:(lia) Hrun).
Qed.

Lemma llen_cells_after_Insert less d v : llen (cells_after_Insert less d v) = llen d + 1.
Proof.
  destruct (Heap_Insert_spec less d 0 v) as (d' & Hrun & Hperm & _).
  unfold cells_after_Insert. rewrite Hrun. cbn [Heap.data heap_of slice.elems].
  apply Permutation_length in Hperm. cbn [length] in Hperm. unfold llen. lia.
Qed.

Lemma llen_cells_after_Extract less d :
  d <> [] -> llen (cells_after_Extract less d) = llen d - 1.
Proof.
  intros Hd. destruct (Heap_Extract_spec less d 0 Hd) as (d' & Hrun & Hperm & _).
  unfold cells_after_Extract. rewrite Hrun. cbn [Heap.data heap_of slice.elems].
  apply Permutation_length in Hperm. cbn [length] in Hperm. unfold llen. lia.
Qed.

Lemma eager_run_as_heap less (ops : list (op T)) : forall d k1 k2 c f hf n,
  servable_run f true false n -> llen d + Z.of_nat (length ops) <= n ->
  exists d' k1' k2' tr,
    run OptimizedHeap_call ops (optimized_of less d k1 c true false f hf)
    = Ok (optimized_of less d' k1' c true false f hf, tr) /\
    run Heap_call ops (heap_of less d k2) = Ok (heap_of less d' k2', tr).
Proof.
  induction ops as [|o ops IH]; intros d k1 k2 c f hf n Hs Hn.
  { eexists _, _, _, _. split; done. }
  cbn [length] in Hn.
  rewrite !run_cons. destruct o as [v|]; cbn [OptimizedHeap_call Heap_call].
  - rewrite OptimizedHeap_Insert_eager;
      [|by auto|intros _; apply (Hs eq_refl eq_refl); unfold llen in *; lia].
    rewrite !Heap_Insert_cells.
    cbn [mbind result_bind fst snd].
    destruct (IH (cells_after_Insert less d v)
                (spare_after_append d (eager_spare f d k1))
                (spare_after_append d k2) c f hf n Hs) as (d' & k1' & k2' & tr & Ho & Hh).
    { rewrite llen_cells_after_Insert. lia. }
    fold (optimized_of less (cells_after_Insert less d v)
            (spare_after_append d (eager_spare f d k1)) c true false f hf).
    rewrite Ho, Hh. cbn [mbind result_bind fst snd].
    eexists _, _, _, _. split; done.
  - rewrite OptimizedHeap_Extract_direct by auto.
    destruct (decide (d = [])) as [->|Hd].
    + rewrite !Heap_Extract_empty. cbn [mbind result_bind fst snd].
      destruct (IH [] k1 k2 c f hf n Hs) as (d' & k1' & k2' & tr & Ho & Hh); [lia|].
      fold (optimized_of less [] k1 c true false f hf).
      rewrite Ho, Hh. cbn [mbind result_bind fst snd].
      eexists _, _, _, _. split; done.
    + rewrite !Heap_Extract_cells by done. cbn [mbind result_bind fst snd].
      destruct (IH (cells_after_Extract less d) (S k1) (S k2) c f hf n Hs)
        as (d' & k1' & k2' & tr & Ho & Hh).
      { rewrite llen_cells_after_Extract by done. lia. }
      fold (optimized_of less (cells_after_Extract less d) (S k1) c true false f hf).
      rewrite Ho, Hh. cbn [mbind result_bind fst snd].
      eexists _, _, _, _. split; done.
Qed.
End eager_is_a_heap.

(** X14: an eager [OptimizedHeap] that may grow behaves as a plain [Heap],
    whatever the comparator, the capacity and the growth function, [make]
    serving the capacities the growth asks for.  The same calls on both
    return the same errors, values and found flags, and leave the same
    cells in the same order in the backing array. *)
Theorem eager_optimized_heap_is_a_heap {T : Type} {zt : Zero T} {rt : Runtime}
    (less : T -> T -> bool) (opts : list (OptimizedHeap.Opt T))
    (oh0 : OptimizedHeap.t T) (ops : list (op T)) :
  OptimizedHeap.NewOptimizedHeap less opts = Ok (Some oh0, None) ->
  OptimizedHeap.useLazy oh0 = false ->
  OptimizedHeap.canGrow oh0 = true ->
  growth_servable oh0 (Z.of_nat (length ops)) ->
  exists oh hp h tr,
    run OptimizedHeap_call ops oh0 = Ok (oh, tr) /\
    run Heap_call ops (Heap.New less) = Ok (h, tr) /\
    OptimizedHeap.h oh = Some hp /\
    slice.elems (Heap.data hp) = slice.elems (Heap.data h).
Proof.
  intros Hnew Hl Hg Hs.
  pose proof (construction_validation_cases less opts) as Hcv.
  rewrite Hnew in Hcv. destruct Hcv as (_ & ->).
  unfold growth_servable in Hs.
  cbn [OptimizedHeap.canGrow OptimizedHeap.useLazy OptimizedHeap.growthFunc
       OptimizedHeap.set_h] in *.
  set (cfg := configured opts) in *. unfold OptimizedHeap.set_h. rewrite Hl, Hg in *.
  change (OptimizedHeap.mk (Some (heap_of less [] ?k)) ?c true false ?f ?hf)
    with (optimized_of less [] k c true false f hf).
  destruct (eager_run_as_heap less ops [] (Z.to_nat (OptimizedHeap.cap cfg)) 0
              (OptimizedHeap.cap cfg) (OptimizedHeap.growthFunc cfg)
              (OptimizedHeap.heapified cfg) (Z.of_nat (length ops)))
    as (d & k1 & k2 & tr & Ho & Hh).
  { exact Hs. }
  { change (llen []) with 0. lia. }
  eexists _, _, _, tr. split; [exact Ho|]. split; [exact Hh|]. split; done.
Qed.

Lemma eager_optimized_heap_is_a_heap_witness :
  let opts := [OptimizedHeap.WithCapacity 2 true] in
  let ops := [OpInsert 5; OpInsert 3; OpInsert 8; OpExtract; OpInsert 1] in
  exists oh0 oh hp h tr,
    OptimizedHeap.NewOptimizedHeap (rt := doubling_runtime) Z.ltb opts
    = Ok (Some oh0, None) /\
    growth_servable (rt := doubling_runtime) oh0 (Z.of_nat (length ops)) /\
    run (OptimizedHeap_call (rt := doubling_runtime)) ops oh0 = Ok (oh, tr) /\
    run (Heap_call (rt := doubling_runtime)) ops (Heap.New Z.ltb) = Ok (h, tr) /\
    OptimizedHeap.h oh = Some hp /\
    slice.elems (Heap.data hp) = slice.elems (Heap.data h).
Proof.
  intros opts ops.
  set (oh0 := OptimizedHeap.set_h (configured opts) (heap_of Z.ltb [] 2)).
  assert (Hs : growth_servable (rt := doubling_runtime) oh0 (Z.of_nat (length ops))).
  { apply (growth_servable_bounded oh0 5 10); [|done..].
    intros c Hc. cbn. destruct (Z.ltb_spec c 1024); lia. }
  destruct (eager_optimized_heap_is_a_heap (rt := doubling_runtime) Z.ltb opts oh0 ops)
    as (oh & hp & h & tr & Ho & Hh & Hhp & Hcells); [reflexivity..|exact Hs|].
  exists oh0, oh, hp, h, tr. split; [reflexivity|]. split; [exact Hs|]. split; [exact Ho|].
  split; [exact Hh|]. split; [exact Hhp|exact Hcells].
Defined.

(** ** Draining a heap, whatever the comparator *)

Section draining.
Context {T : Type} {zt : Zero T} {rt : Runtime}.
Implicit Types (d vals out : list T) (less : T -> T -> bool) (k : nat).

Lemma Heap_run_inserts_any less vals : forall d k,
  exists d' k',
    run Heap_call (map OpInsert vals) (heap_of less d k)
    = Ok (heap_of less d' k', replicate (length vals) (RetInsert None)) /\
    d' ≡ₚ vals ++ d.
Proof.
  induction vals as [|v vals IH]; intros d k.
  { eexists _, _. split; done. }
  cbn [map]. rewrite run_cons. cbn [Heap_call].
  destruct (Heap_Insert_spec less d k v) as (d1 & -> & Hperm1 & _).
  cbn [mbind result_bind fst snd].
  destruct (IH d1 (spare_after_append d k)) as (d' & k' & -> & Hperm).
  eexists _, _. split; [done|].
  rewrite Hperm, Hperm1. cbn [app]. by rewrite Permutation_middle.
Qed.

Lemma Heap_run_extracts_any less (n : nat) : forall d k,
  length d = n ->
  exists out k',
    run Heap_call (replicate n OpExtract) (heap_of less d k)
    = Ok (heap_of less [] k', map (fun v => RetExtract v true) out) /\
    out ≡ₚ d.
Proof.
  induction n as [|n IH]; intros d k Hlen.
  { destruct d; [|done]. exists [], k. split; done. }
  assert (Hd : d <> []) by (by destruct d).
  cbn [replicate]. rewrite run_cons. cbn [Heap_call].
  destruct (Heap_Extract_spec less d k Hd) as (d1 & -> & Hperm1 & _).
  cbn [mbind result_bind fst snd].
  destruct (IH d1 (S k)) as (out & k' & -> & Hperm).
  { apply Permutation_length in Hperm1. cbn [length] in Hperm1. lia. }
  exists (get d 0 :: out), k'. split; [done|]. by rewrite Hperm.
Qed.
End draining.

(** X15: whatever the comparator, order or not, [n] [Insert] calls on a
    new [Heap] followed by [n] [Extract] calls return every inserted value
    exactly once, each with [found = true], and leave the heap empty, so
    that the next [Extract] returns [found = false].  In particular [k]
    copies of a value come back as [k] copies of it. *)
Theorem heap_drains_what_was_inserted {T : Type} {zt : Zero T} {rt : Runtime}
    (less : T -> T -> bool) (vals : list T) :
  exists h out,
    run Heap_call (map OpInsert vals ++ replicate (length vals) OpExtract) (Heap.New less)
    = Ok (h, replicate (length vals) (RetInsert None)
             ++ map (fun v => RetExtract v true) out) /\
    out ≡ₚ vals /\
    Heap.Extract h = Ok (h, (zero, false)) /\
    (forall v, vals = replicate (length vals) v -> out = vals).
Proof.
  rewrite run_app.
  destruct (Heap_run_inserts_any less vals [] 0) as (d & k & Hfill & Hperm).
  change (Heap.New less) with (heap_of less [] 0). rewrite Hfill.
  cbn [mbind result_bind fst snd]. rewrite app_nil_r in Hperm.
  destruct (Heap_run_extracts_any less (length vals) d k) as (out & k' & -> & Hperm').
  { by apply Permutation_length. }
  eexists _, out. split; [done|]. split; [by rewrite Hperm'|].
  split; [apply Heap_Extract_empty|].
  intros v Hv. assert (Hout : out ≡ₚ vals) by (by rewrite Hperm').
  set (n := length vals) in *. rewrite Hv in Hout |- *.
  symmetry. apply replicate_as_Forall. split.
  - rewrite (Permutation_length Hout). by rewrite length_replicate.
  - rewrite Hout. by apply Forall_replicate.
Qed.
